(** * PSMC-Solver: the certifier (tester.py) and the model builder (solver.py)

    A shallow embedding of the Python sources.  Python integers are [Z];
    the dictionaries [S], [r], [c], [E] handed from [read_instance] to the
    checks are finite maps [gmap Z _]; a [collections.Counter] is a
    [gmap Z Z] whose missing keys read as 0; lists are lists.  An uncaught
    Python exception is the [Raise] outcome of the [result] monad, and what
    a function prints is kept next to its outcome in [IO]. *)

From Stdlib Require Import ZArith Lia Ascii String.
From stdpp Require Import gmap strings list fin_maps.

Open Scope Z_scope.

(** ** Exceptions and the two monads *)

(** An exception is recorded by its class: which key a [KeyError] names
    is not kept. *)
Inductive exn := KeyError | IndexError | ValueError | TypeError | SystemExit.

Inductive result (A : Type) :=
  | Return (a : A)
  | Raise (e : exn).
Arguments Return {A} a.
Arguments Raise {A} e.

#[global] Instance result_ret : MRet result := λ A a, Return a.
#[global] Instance result_bind : MBind result := λ A B f m,
  match m with
  | Return a => f a
  | Raise e => Raise e
  end.

(** [for i in l: s = body(s, i)], an exception leaving the loop. *)
Fixpoint for_each {A St : Type} (body : St → A → result St) (l : list A) (s : St)
  : result St :=
  match l with
  | [] => Return s
  | a :: l' => s' ← body s a; for_each body l' s'
  end.

(** What has been printed, in order, and how the call ended. *)
Record IO (A : Type) := mkIO { stdout : list string; outcome : result A }.
Arguments mkIO {A} stdout outcome.
Arguments stdout {A} _.
Arguments outcome {A} _.

#[global] Instance IO_ret : MRet IO := λ A a, mkIO [] (Return a).
#[global] Instance IO_bind : MBind IO := λ A B f m,
  match outcome m with
  | Return a => mkIO (stdout m ++ stdout (f a)) (outcome (f a))
  | Raise e => mkIO (stdout m) (Raise e)
  end.

Definition print (line : string) : IO unit := mkIO [line] (Return tt).
Definition lift {A : Type} (m : result A) : IO A := mkIO [] m.
(** [exit()] raises [SystemExit]. *)
Definition exit {A : Type} : IO A := mkIO [] (Raise SystemExit).

(** ** Dictionaries and counters *)

(** [d[k]] *)
Definition getitem {V : Type} (d : gmap Z V) (k : Z) : result V :=
  match d !! k with
  | Some v => Return v
  | None => Raise KeyError
  end.

(** [cov[e]] on a [Counter]: a missing key counts 0. *)
Definition Counter_get (cov : gmap Z Z) (e : Z) : Z := default 0 (cov !! e).

(** [cov.update(iterable)]: one more for every occurrence. *)
Definition Counter_update (cov : gmap Z Z) (iterable : list Z) : gmap Z Z :=
  foldl (λ m e, <[e := Counter_get m e + 1]> m) cov iterable.

(** [l.remove(x)] on a copy: the first occurrence goes, [ValueError] when
    there is none. *)
Fixpoint list_remove (x : Z) (l : list Z) : result (list Z) :=
  match l with
  | [] => Raise ValueError
  | y :: l' => if decide (x = y) then Return l'
               else l'' ← list_remove x l'; Return (y :: l'')
  end.

(** ** Text and the dictionaries built while reading

    Characters are code points below 256.  [int] of a token is Python's
    built-in; it is a parameter of the readers below. *)

(** [s.split(sep)] with a one-character separator: every separator cuts,
    empty pieces are kept. *)
Fixpoint split_on (sep : ascii) (s : string) : list string :=
  match s with
  | EmptyString => [EmptyString]
  | String ch s' =>
      if decide (ch = sep) then EmptyString :: split_on sep s'
      else match split_on sep s' with
           | w :: ws => String ch w :: ws
           | [] => [String ch EmptyString]
           end
  end.

(** [str.isspace] on one character. *)
Definition isspace (ch : ascii) : bool :=
  let n := nat_of_ascii ch in
  ((9 <=? n) && (n <=? 13) || (28 <=? n) && (n <=? 32)
   || (n =? 133) || (n =? 160))%nat.

(** [s.split()]: cut at runs of white space, no empty pieces. *)
Fixpoint split_ws (s : string) : list string :=
  match s with
  | EmptyString => []
  | String ch s' =>
      if isspace ch then split_ws s'
      else match s' with
           | EmptyString => [String ch EmptyString]
           | String ch' _ =>
               if isspace ch' then String ch EmptyString :: split_ws s'
               else match split_ws s' with
                    | w :: ws => String ch w :: ws
                    | [] => [String ch EmptyString]
                    end
           end
  end.

(** [l[i]] *)
Definition index {A : Type} (l : list A) (i : nat) : result A :=
  match l !! i with
  | Some a => Return a
  | None => Raise IndexError
  end.

(** [[f(a) for a in l]] *)
Fixpoint list_comp {A B : Type} (f : A → result B) (l : list A) : result (list B) :=
  match l with
  | [] => Return []
  | a :: l' => b ← f a; bs ← list_comp f l'; Return (b :: bs)
  end.

(** [range(a, b)] *)
Definition range (a b : Z) : list Z :=
  (λ i : nat, a + Z.of_nat i) <$> seq 0 (Z.to_nat (b - a)).

(** [enumerate(l)] *)
Definition enumerate {A : Type} (l : list A) : list (Z * A) :=
  imap (λ i a, (Z.of_nat i, a)) l.

(** A dictionary under construction keeps its insertion order, which
    [zip(S, c)] reads; [od_set] is [d[k] = v]. *)
Fixpoint od_set {V : Type} (k : Z) (v : V) (d : list (Z * V)) : list (Z * V) :=
  match d with
  | [] => [(k, v)]
  | (k', v') :: d' =>
      if decide (k = k') then (k, v) :: d' else (k', v') :: od_set k v d'
  end.

(** [dict(pairs)] and [{k: v for ...}] *)
Definition od_of_pairs {V : Type} (pairs : list (Z * V)) : list (Z * V) :=
  foldl (λ d kv, od_set kv.1 kv.2 d) [] pairs.

(** ** tester.py *)

(** [verify_costs], lines 40-66. *)
Definition verify_costs (Sol_Set : list Z) (Sol_Costs : Z) (C_dict : gmap Z Z)
  : result bool :=
  cost ← for_each (λ cost i, ci ← getitem C_dict i; Return (cost + ci)) Sol_Set 0;
  if decide (cost = Sol_Costs) then Return true else Return false.

(** The counter filled by lines 84-87 of [verify_covering_requirement]. *)
Definition coverage (Sol_Set : list Z) (S : gmap Z (list Z)) : result (gmap Z Z) :=
  for_each (λ cov i, Si ← getitem S i; Return (Counter_update cov Si)) Sol_Set ∅.

(** Lines 90-92: [for i in cov: if cov[i] >= Re[i]: req += 1]. *)
Definition count_satisfied (Re cov : gmap Z Z) : result Z :=
  for_each (λ req '(i, n), ri ← getitem Re i;
              Return (if decide (ri ≤ n) then req + 1 else req))
           (map_to_list cov) 0.

(** [verify_covering_requirement], lines 68-104. *)
Definition verify_covering_requirement
    (Re : gmap Z Z) (Sol_Set : list Z) (S : gmap Z (list Z)) (P_thresh : Z)
  : result bool :=
  cov ← coverage Sol_Set S;
  req ← count_satisfied Re cov;
  if decide (P_thresh ≤ req) then Return true else Return false.

(** The loop of [verify_minimal] over the sets still to be tried. *)
Fixpoint verify_minimal_loop
    (Re : gmap Z Z) (Sol_Set : list Z) (S : gmap Z (list Z)) (P_thresh : Z)
    (todo : list Z) : result bool :=
  match todo with
  | [] => Return true
  | i :: todo' =>
      changed ← list_remove i Sol_Set;
      flag ← verify_covering_requirement Re changed S P_thresh;
      if flag : bool then Return false
      else verify_minimal_loop Re Sol_Set S P_thresh todo'
  end.

(** [verify_minimal], lines 106-133. *)
Definition verify_minimal
    (Re : gmap Z Z) (Sol_Set : list Z) (S : gmap Z (list Z)) (P_thresh : Z)
  : result bool :=
  verify_minimal_loop Re Sol_Set S P_thresh Sol_Set.

(** The four verdicts of the certifier and the line [main] prints for each. *)
Inductive Verdict := CostMismatch | Infeasible | NotMinimal | Correct.

Definition message (v : Verdict) : string :=
  match v with
  | CostMismatch => "incorrect cost"
  | Infeasible => "infeasible"
  | NotMinimal => "not minimal"
  | Correct => "everything is correct!"
  end.

(** Lines 182-202 of [main]: the three checks on what the two readers
    returned.  [Some 0] is [return 0]; falling off the end returns [None]. *)
Definition main_checks
    (S : gmap Z (list Z)) (r c : gmap Z Z) (P Costs : Z) (Sets : list Z)
  : IO (option Z) :=
  cost_flag ← lift (verify_costs Sets Costs c);
  if negb cost_flag then _ ← print "incorrect cost"; mret (Some 0) else
  covering_flag ← lift (verify_covering_requirement r Sets S P);
  if negb covering_flag then _ ← print "infeasible"; mret (Some 0) else
  minimal_flag ← lift (verify_minimal r Sets S P);
  if negb minimal_flag then _ ← print "not minimal"; mret (Some 0) else
  if cost_flag && covering_flag && minimal_flag
  then _ ← print "everything is correct!"; mret (Some 0)
  else mret None.

(** ** The two readers *)

(** What [open(filename)] finds: the text that [file.read()] returns, or
    the error that [open] raises. *)
Inductive open_result := FileText (text : string) | OSError (msg : string).

Section Readers.

(** [int(tok)]: [None] is the [ValueError] of a token that is no integer. *)
Variable int : string → option Z.

(** The files the run can see. *)
Variable fs : string → open_result.

Definition int_of (tok : string) : result Z :=
  match int tok with
  | Some z => Return z
  | None => Raise ValueError
  end.

(** The [try] block of [read_instance], solver.py lines 35-64. *)
Definition read_instance_try (text : string)
  : result (gmap Z Z * gmap Z (list Z) * gmap Z Z * gmap Z Z * Z * Z * Z) :=
  let instance := split_on "010"%char text in
  line0 ← index instance 0;
  header ← list_comp int_of (split_ws line0);
  '(num_E, num_S, P) ← match header with
                       | [a; b; c] => Return (a, b, c)
                       | _ => Raise ValueError
                       end;
  let E := od_of_pairs ((λ kv, (kv.1 + 1, kv.2)) <$> enumerate (range 1 (num_E + 1))) in
  line1 ← index instance 1;
  r ← list_comp int_of (split_ws line1);
  if negb (bool_decide (Z.of_nat (length r) = num_E)) then Raise ValueError else
  line2 ← index instance 2;
  c ← list_comp int_of (split_ws line2);
  if negb (bool_decide (Z.of_nat (length c) = num_S)) then Raise ValueError else
  S ← for_each (λ S jk, line ← index instance (Z.to_nat jk.2);
                        members ← list_comp int_of (split_ws line);
                        Return (od_set (jk.1 + 1) members S))
               (enumerate (range 3 (Z.of_nat (length instance)))) [];
  if negb (bool_decide (Z.of_nat (length S) = num_S)) then Raise ValueError else
  let c := od_of_pairs (zip S.*1 c) in
  let r := od_of_pairs (zip E.*1 r) in
  Return (list_to_map E, list_to_map S, list_to_map r, list_to_map c,
          num_E, num_S, P).

(** [read_instance], solver.py lines 9-68. *)
Definition read_instance (filename : string)
  : IO (gmap Z Z * gmap Z (list Z) * gmap Z Z * gmap Z Z * Z * Z * Z) :=
  match fs filename with
  | OSError msg => _ ← print msg; exit
  | FileText text =>
      match read_instance_try text with
      | Return inst => mret inst
      | Raise _ => _ ← print "wrong format"; exit
      end
  end.

(** [read_solution], tester.py lines 9-38. *)
Definition read_solution (filename : string) : IO (Z * Z * list Z) :=
  match fs filename with
  | OSError msg => _ ← print msg; exit
  | FileText text =>
      let instance := split_on " "%char text in
      tok0 ← lift (index instance 0);
      k ← lift (int_of tok0);
      tok1 ← lift (index instance 1);
      Cost ← lift (int_of tok1);
      Sets ← lift (list_comp int_of (drop 2 instance));
      if negb (bool_decide (k = Z.of_nat (length Sets)))
      then _ ← print "wrong format"; exit
      else mret (k, Cost, Sets)
  end.

(** Lines 179-202 of [main]: read both files, then run the checks. *)
Definition main_run (input_file output_file : string) : IO (option Z) :=
  '(E, S_, r, c, num_E, num_S, P) ← read_instance input_file;
  '(k, Costs, Sets) ← read_solution output_file;
  main_checks S_ r c P Costs Sets.

End Readers.

(** Decimal digits, for the concrete files of the examples. *)
Definition digit_of (ch : ascii) : option Z :=
  let n := nat_of_ascii ch in
  if ((48 <=? n) && (n <=? 57))%nat then Some (Z.of_nat n - 48) else None.

Fixpoint digits_of (acc : Z) (s : string) : option Z :=
  match s with
  | EmptyString => Some acc
  | String ch s' => d ← digit_of ch; digits_of (10 * acc + d) s'
  end.

(** [int] on the plain tokens: an optional minus sign before decimal
    digits.  Python accepts more (white space around, a plus sign,
    underscores); the examples use plain tokens only. *)
Definition int_plain (tok : string) : option Z :=
  match tok with
  | EmptyString => None
  | String "-"%char EmptyString => None
  | String "-"%char s' => Z.opp <$> digits_of 0 s'
  | _ => digits_of 0 tok
  end.

(** The instance and the solution of the worked scenario, as files. *)
Definition scenario_text : string := "3 2 2
1 1 1
5 3
1 2
2 3".

Definition scenario_fs (filename : string) : open_result :=
  if decide (filename = "instance01.txt") then FileText scenario_text
  else if decide (filename = "solution01.txt") then FileText "1 3 2"
  else OSError "[Errno 2] No such file or directory".

(** ** solver.py: the model

    [create_Instance] builds its model through the operators of the pulp
    library, which is no part of this repository.  The fragment it uses is
    written out here as pulp defines it: a variable is an object with a
    name, bounds and a category; an affine expression is an
    insertion-ordered table from variables to coefficients with a constant;
    a constraint is an affine expression compared with 0; a problem holds
    an objective and the constraints added so far. *)

Inductive LpCategory := LpContinuous | LpInteger.

(** [LpVariable(name_format % name_index, lowBound, upBound, cat)] *)
Record LpVariable := mkLpVariable {
  name_format : string;
  name_index : Z;
  lowBound : option Z;
  upBound : option Z;
  cat : LpCategory
}.

#[global] Instance LpCategory_eq_dec : EqDecision LpCategory.
Proof. solve_decision. Defined.
#[global] Instance LpVariable_eq_dec : EqDecision LpVariable.
Proof. solve_decision. Defined.

Record LpAffineExpression := mkExpr {
  terms : list (LpVariable * Z);
  constant : Z
}.

Inductive LpConstraintSense := LpConstraintLE | LpConstraintEQ | LpConstraintGE.

(** [LpConstraint(e, sense)]: [e] compared with 0. *)
Record LpConstraint := mkLpConstraint {
  con_expr : LpAffineExpression;
  con_sense : LpConstraintSense
}.

Inductive LpSense := LpMinimize | LpMaximize.

Record LpProblem := mkLpProblem {
  prob_name : string;
  prob_sense : LpSense;
  objective : option LpAffineExpression;
  constraints : list LpConstraint
}.

(** [LpVariable.dict(name, indexs, lowBound, upBound, cat)] *)
Definition LpVariable_dict (name : string) (indexs : list Z)
    (lb ub : option Z) (ct : LpCategory) : gmap Z LpVariable :=
  foldl (λ d i, <[i := mkLpVariable name i lb ub ct]> d) ∅ indexs.

(** [e.addterm(key, value)] *)
Fixpoint addterm (key : LpVariable) (value : Z) (ts : list (LpVariable * Z))
  : list (LpVariable * Z) :=
  match ts with
  | [] => [(key, value)]
  | (v, a) :: ts' =>
      if decide (key = v) then (v, a + value) :: ts'
      else (v, a) :: addterm key value ts'
  end.

(** [LpAffineExpression(v)] for a variable and for a number. *)
Definition expr_of_var (v : LpVariable) : LpAffineExpression := mkExpr [(v, 1)] 0.
Definition expr_of_int (z : Z) : LpAffineExpression := mkExpr [] z.

(** [e + v] for a variable [v]: [e.copy().addInPlace(v)]. *)
Definition expr_add_var (e : LpAffineExpression) (v : LpVariable)
  : LpAffineExpression :=
  mkExpr (addterm v 1 (terms e)) (constant e).

(** [e1 + e2]: [e1.copy().addInPlace(e2)]. *)
Definition expr_add (e1 e2 : LpAffineExpression) : LpAffineExpression :=
  mkExpr (foldl (λ ts va, addterm va.1 va.2 ts) (terms e1) (terms e2))
         (constant e1 + constant e2).

(** [e1 - e2]: [e1.copy().subInPlace(e2)]. *)
Definition expr_sub (e1 e2 : LpAffineExpression) : LpAffineExpression :=
  mkExpr (foldl (λ ts va, addterm va.1 (- va.2) ts) (terms e1) (terms e2))
         (constant e1 - constant e2).

(** [-e] *)
Definition expr_neg (e : LpAffineExpression) : LpAffineExpression :=
  mkExpr ((λ va, (va.1, - va.2)) <$> terms e) (- constant e).

(** [e * z] for a number [z]: the empty expression when [z] is 0. *)
Definition expr_mul (e : LpAffineExpression) (z : Z) : LpAffineExpression :=
  if decide (z = 0) then mkExpr [] 0
  else mkExpr ((λ va, (va.1, z * va.2)) <$> terms e) (constant e * z).

(** [v * z] and [z * v]: [LpAffineExpression(v) * z]. *)
Definition var_mul (v : LpVariable) (z : Z) : LpAffineExpression :=
  expr_mul (expr_of_var v) z.

(** What the built-in [sum] returns: the integer 0 on the empty list, an
    expression otherwise. *)
Inductive sum_value := SumInt (z : Z) | SumExpr (e : LpAffineExpression).

(** [sum(l)] on a list of expressions: [0 + e1] is [e1], then [+]. *)
Definition sum_exprs (l : list LpAffineExpression) : sum_value :=
  match l with
  | [] => SumInt 0
  | e :: l' => SumExpr (foldl expr_add e l')
  end.

(** [sum(l)] on a list of variables: [0 + v1] is [LpAffineExpression(v1)]. *)
Definition sum_vars (l : list LpVariable) : sum_value :=
  match l with
  | [] => SumInt 0
  | v :: l' => SumExpr (foldl expr_add_var (expr_of_var v) l')
  end.

(** [s - e]: [0 - e] is [(-e).addInPlace(0)]. *)
Definition sum_sub (s : sum_value) (e : LpAffineExpression) : LpAffineExpression :=
  match s with
  | SumInt z => mkExpr (terms (expr_neg e)) (constant (expr_neg e) + z)
  | SumExpr e1 => expr_sub e1 e
  end.

(** [e >= z]: [LpConstraint(e - z, LpConstraintGE)]. *)
Definition expr_ge (e : LpAffineExpression) (z : Z) : LpConstraint :=
  mkLpConstraint (mkExpr (terms e) (constant e - z)) LpConstraintGE.

(** [[f(a) for a in l if cond(a)]] *)
Fixpoint list_comp_if {A B : Type} (f : A → result B) (cond : A → result bool)
    (l : list A) : result (list B) :=
  match l with
  | [] => Return []
  | a :: l' =>
      keep ← cond a;
      if keep : bool then b ← f a; bs ← list_comp_if f cond l'; Return (b :: bs)
      else list_comp_if f cond l'
  end.

(** [for k in d]; the iteration order of the finite map stands for the
    insertion order of the dictionary. *)
Definition keys {V : Type} (d : gmap Z V) : list Z := (map_to_list d).*1.

Section Model.

(** [PSMC += False], which pulp treats differently from version to
    version. *)
Variable iadd_False : LpProblem → result LpProblem.

(** [PSMC += s] for the value of a [sum]: the objective is set. *)
Definition iadd_objective (PSMC : LpProblem) (s : sum_value) : LpProblem :=
  mkLpProblem (prob_name PSMC) (prob_sense PSMC)
    (Some match s with SumInt z => expr_of_int z | SumExpr e => e end)
    (constraints PSMC).

(** [PSMC += constraint] *)
Definition iadd_constraint (PSMC : LpProblem) (con : LpConstraint) : LpProblem :=
  mkLpProblem (prob_name PSMC) (prob_sense PSMC) (objective PSMC)
    (constraints PSMC ++ [con]).

(** [PSMC += (s >= z)]: on an integer [s] the comparison is a Python
    [bool]; [PSMC += True] leaves the problem as it is. *)
Definition iadd_ge (PSMC : LpProblem) (s : sum_value) (z : Z) : result LpProblem :=
  match s with
  | SumExpr e => Return (iadd_constraint PSMC (expr_ge e z))
  | SumInt n => if decide (z ≤ n) then Return PSMC else iadd_False PSMC
  end.

(** [create_Instance], solver.py lines 70-94. *)
Definition create_Instance (E : gmap Z Z) (S : gmap Z (list Z)) (r c : gmap Z Z)
    (num_E num_S P : Z)
  : result (LpProblem * gmap Z LpVariable * gmap Z LpVariable) :=
  let PSMC := mkLpProblem "Partial Set Multi Cover" LpMinimize None [] in
  let x := LpVariable_dict "x_%d" (keys S) (Some 0) (Some 1) LpInteger in
  let y := LpVariable_dict "y_%d" (keys E) (Some 0) (Some 1) LpInteger in
  obj ← list_comp (λ i, ci ← getitem c i; xi ← getitem x i;
                        Return (var_mul xi ci)) (keys S);
  let PSMC := iadd_objective PSMC (sum_exprs obj) in
  ys ← list_comp (getitem y) (keys E);
  PSMC ← iadd_ge PSMC (sum_vars ys) P;
  PSMC ← for_each
    (λ PSMC i,
       xs ← list_comp_if (getitem x)
              (λ j, Sj ← getitem S j; Return (bool_decide (i ∈ Sj))) (keys S);
       yi ← getitem y i;
       ri ← getitem r i;
       Return (iadd_constraint PSMC (expr_ge (sum_sub (sum_vars xs) (var_mul yi ri)) 0)))
    (keys E) PSMC;
  Return (PSMC, x, y).

End Model.

(** ** What a model means *)

(** The value of an expression under an assignment of the variables. *)
Definition eval (ρ : LpVariable → Z) (e : LpAffineExpression) : Z :=
  foldr (λ va acc, va.2 * ρ va.1 + acc) (constant e) (terms e).

Fixpoint Zsum (l : list Z) : Z :=
  match l with
  | [] => 0
  | z :: l' => z + Zsum l'
  end.

(** ** The vocabulary of the properties *)

(** Σ cost[j] over the selected sets. *)
Definition cost_sum (C_dict : gmap Z Z) (Sol_Set : list Z) : Z :=
  foldr (λ i acc, default 0 (C_dict !! i) + acc) 0 Sol_Set.

(** What [main] prints when a check ends it. *)
Definition report (v : Verdict) : IO (option Z) :=
  mkIO [message v] (Return (Some 0)).

(** How often [e] is listed in one membership list. *)
Definition occ (e : Z) (B : list Z) : Z := Z.of_nat (length (filter (e =.) B)).

(** What the counter of the covering check holds for [e]: the number of
    occurrences of [e] in the membership lists of the selected sets, a
    repeated entry of a list counting each time. *)
Definition multiplicity (S : gmap Z (list Z)) (Sol_Set : list Z) (e : Z) : Z :=
  foldr (λ i acc, occ e (default [] (S !! i)) + acc) 0 Sol_Set.

(** [e] is listed in the membership of a selected set. *)
Definition covered (S : gmap Z (list Z)) (Sol_Set : list Z) (e : Z) : Prop :=
  ∃ i B, i ∈ Sol_Set ∧ S !! i = Some B ∧ e ∈ B.

(** An entry [(i, cov[i])] of the counter that the second loop counts. *)
Definition sat_entry (Re : gmap Z Z) (kn : Z * Z) : Prop :=
  match Re !! kn.1 with
  | Some ri => ri ≤ kn.2
  | None => False
  end.

#[global] Instance sat_entry_dec Re kn : Decision (sat_entry Re kn).
Proof. unfold sat_entry. destruct (Re !! kn.1); apply _. Defined.

(** The elements whose requirement is met by the number of their
    occurrences, and how many there are. *)
Definition satisfied (Re : gmap Z Z) (S : gmap Z (list Z)) (Sol_Set : list Z)
  : gmap Z Z :=
  filter (λ er, er.2 ≤ multiplicity S Sol_Set er.1) Re.

Definition satisfied_count (Re : gmap Z Z) (S : gmap Z (list Z)) (Sol_Set : list Z)
  : Z :=
  Z.of_nat (size (satisfied Re S Sol_Set)).





(** The keys 1, 2, ..., n in this order. *)
Definition keys_upto (n : nat) : list Z := (λ i : nat, Z.of_nat i + 1) <$> seq 0 n.

(** An instance file with one element and one set that lists the
    elements 1 and 2. *)
Definition stray_element_text : string := "1 1 1
1
4
1 2".

(** A file that holds only a count. *)
Definition count_only_fs (filename : string) : open_result := FileText "5".

(** The variables [x[j]] and [y[e]]: integer, between 0 and 1. *)
Definition x_var (j : Z) : LpVariable :=
  mkLpVariable "x_%d" j (Some 0) (Some 1) LpInteger.
Definition y_var (e : Z) : LpVariable :=
  mkLpVariable "y_%d" e (Some 0) (Some 1) LpInteger.

(** An assignment satisfies a constraint. *)
Definition holds (ρ : LpVariable → Z) (con : LpConstraint) : Prop :=
  match con_sense con with
  | LpConstraintLE => eval ρ (con_expr con) ≤ 0
  | LpConstraintEQ => eval ρ (con_expr con) = 0
  | LpConstraintGE => 0 ≤ eval ρ (con_expr con)
  end.

(** The value of what [sum] returned. *)
Definition sum_eval (ρ : LpVariable → Z) (s : sum_value) : Z :=
  match s with
  | SumInt z => z
  | SumExpr e => eval ρ e
  end.

(** The terms of the objective and the constraint of one element, as
    [create_Instance] writes them. *)
Definition objective_terms (S : gmap Z (list Z)) (c : gmap Z Z)
  : list LpAffineExpression :=
  (λ j, var_mul (x_var j) (default 0 (c !! j))) <$> keys S.

Definition element_constraint (S : gmap Z (list Z)) (r : gmap Z Z) (e : Z)
  : LpConstraint :=
  expr_ge (sum_sub (sum_vars (x_var <$> filter (λ j, e ∈ default [] (S !! j)) (keys S)))
                   (var_mul (y_var e) (default 0 (r !! e)))) 0.

(** An instance file without elements: one set, empty, of cost 5, and
    threshold 0. *)
Definition no_element_text : string := "0 1 0

5
".

(** The dictionary with the keys 1, 2, ..., [length vs] and the values
    [vs] in this order. *)
Definition dict_of_list {V : Type} (vs : list V) : gmap Z V :=
  list_to_map (zip (keys_upto (length vs)) vs).

(** [[int(i) for i in line.split()]] *)
Definition ints_of_line (int : string → option Z) (line : string) : result (list Z) :=
  list_comp (int_of int) (split_ws line).

(** ** solver.py: writing the solution *)

(** A character occurs in a string. *)
Fixpoint In_string (ch : ascii) (s : string) : Prop :=
  match s with
  | EmptyString => False
  | String ch' s' => ch = ch' ∨ In_string ch s'
  end.

(** [''.join(l)] *)
Fixpoint join (l : list string) : string :=
  match l with
  | [] => EmptyString
  | s :: l' => String.append s (join l')
  end.

Section Solution.

(** [str(z)] of an integer is Python's built-in, as [int] is; and
    [x[i].value() == 1] is what the solver, which is no part of this
    repository, has left in the variable. *)
Variable str : Z → string.
Variable value_is_1 : LpVariable → bool.

(** Lines 141-148 of [main] in solver.py: the selected sets, their number
    and their cost.  The state of the loop is [(cost, k, sets)]; [order]
    lists the keys of [x] as [for i in x] visits them, in the order of
    their insertion. *)
Definition main_collect (order : list Z) (x : gmap Z LpVariable) (c : gmap Z Z)
  : result (Z * Z * list Z) :=
  for_each (λ st i,
              xi ← getitem x i;
              if value_is_1 xi
              then ci ← getitem c i; Return (st.1.1 + ci, st.1.2 + 1, st.2 ++ [i])
              else Return st)
           order (0, 0, []).

(** Line 151: [str(k)+" "+str(cost)+''.join([" %s" % i for i in sets])]. *)
Definition main_lines (cost k : Z) (sets : list Z) : string :=
  String.append (str k)
    (String.append " "
       (String.append (str cost)
          (join ((λ i, String.append " " (str i)) <$> sets)))).

End Solution.

(** [str] of an integer, in decimal, for the concrete examples. *)
Definition digit_char (d : Z) : ascii := ascii_of_nat (Z.to_nat (48 + d)).

Fixpoint str_digits (fuel : nat) (n : Z) (acc : string) : string :=
  match fuel with
  | O => acc
  | S fuel' =>
      let acc' := String (digit_char (n mod 10)) acc in
      if decide (n < 10) then acc' else str_digits fuel' (n / 10) acc'
  end.

Definition str_int (z : Z) : string :=
  if decide (z < 0) then String "-"%char (str_digits (S (Z.to_nat (- z))) (- z) EmptyString)
  else str_digits (S (Z.to_nat z)) z EmptyString.

(** ** The file names *)

(** [str.isdigit] on one character below 256. *)
Definition isdigit (ch : ascii) : bool :=
  let n := nat_of_ascii ch in ((48 <=? n) && (n <=? 57))%nat.

(** [re.findall('\d+', s)]: the maximal runs of digits, from the left. *)
Fixpoint findall_digits (s : string) : list string :=
  match s with
  | EmptyString => []
  | String ch s' =>
      if isdigit ch then
        match s' with
        | EmptyString => [String ch EmptyString]
        | String ch' _ =>
            if isdigit ch' then
              match findall_digits s' with
              | w :: ws => String ch w :: ws
              | [] => [String ch EmptyString]
              end
            else String ch EmptyString :: findall_digits s'
        end
      else findall_digits s'
  end.

(** [s.endswith(suffix)] *)
Fixpoint endswith (s suffix : string) : bool :=
  String.eqb s suffix
  || match s with
     | EmptyString => false
     | String _ s' => endswith s' suffix
     end.

(** Lines 128-129 of [main] in solver.py: the name of the solution file. *)
Definition output_name (input_file : string) : result string :=
  number ← index (findall_digits input_file) 0;
  Return (String.append "solution" (String.append number ".txt")).

(** How a run of [main] in tester.py ends: with the [AssertionError] of a
    file name that does not end in ".txt", or as [IO] tells. *)
Inductive main_end :=
  | AssertionError (msg : string)
  | Ended (io : IO (option Z)).

Section TesterMain.

Variable int : string → option Z.
Variable fs : string → open_result.

(** [main] of tester.py, lines 159-202, on [sys.argv]. *)
Definition tester_main (argv : list string) : main_end :=
  match argv with
  | [_; input_file; output_file] =>
      if negb (endswith input_file ".txt")
      then AssertionError "Instance File is not a text file"
      else if negb (endswith output_file ".txt")
      then AssertionError "Solution File is not a text file"
      else Ended (
        number_inst ← lift (index (findall_digits input_file) 0);
        number_sol ← lift (index (findall_digits output_file) 0);
        if negb (String.eqb number_inst number_sol)
        then _ ← print "wrong format"; exit
        else main_run int fs input_file output_file)
  | _ => Ended (mkIO [] (Raise ValueError))
  end.

End TesterMain.


(** Every character of the string is a digit. *)
Definition all_digits (s : string) : Prop := ∀ ch, In_string ch s → isdigit ch = true.

(** ** Solutions and assignments *)

(** The assignment respects the bounds of the variable. *)
Definition within_bounds (ρ : LpVariable → Z) (v : LpVariable) : Prop :=
  match lowBound v with Some lb => lb ≤ ρ v | None => True end
  ∧ match upBound v with Some ub => ρ v ≤ ub | None => True end.

(** The assignment satisfies every constraint of the problem. *)
Definition feasible (ρ : LpVariable → Z) (PSMC : LpProblem) : Prop :=
  Forall (holds ρ) (constraints PSMC).

(** [x[i].value() == 1] when the solver has left the assignment [ρ] in
    the variables. *)
Definition value_is_1_in (ρ : LpVariable → Z) (v : LpVariable) : bool :=
  bool_decide (ρ v = 1).

(** The sets whose variable has the value 1, in the order of [for i in x]. *)
Definition selected (ρ : LpVariable → Z) (order : list Z) : list Z :=
  filter (λ j, ρ (x_var j) = 1) order.

(** The assignment that a solution stands for: [x[j]] is 1 for the
    selected sets and [y[e]] is 1 for the elements whose requirement the
    selection meets. *)
Definition assignment_of (r : gmap Z Z) (S : gmap Z (list Z)) (Sol_Set : list Z)
    (v : LpVariable) : Z :=
  if decide (name_format v = "x_%d")
  then (if decide (name_index v ∈ Sol_Set) then 1 else 0)
  else match r !! name_index v with
       | Some re => if decide (re ≤ multiplicity S Sol_Set (name_index v)) then 1 else 0
       | None => 0
       end.

(** The model of the worked scenario: minimise 3·x[2] + 5·x[1] subject to
    y[3] + y[2] + y[1] ≥ 2, x[2] − y[3] ≥ 0, x[2] + x[1] − y[2] ≥ 0 and
    x[1] − y[1] ≥ 0. *)
Definition scenario_model : LpProblem :=
  mkLpProblem "Partial Set Multi Cover" LpMinimize
    (Some (mkExpr [(x_var 2, 3); (x_var 1, 5)] 0))
    [mkLpConstraint (mkExpr [(y_var 3, 1); (y_var 2, 1); (y_var 1, 1)] (-2))
       LpConstraintGE;
     mkLpConstraint (mkExpr [(x_var 2, 1); (y_var 3, -1)] 0) LpConstraintGE;
     mkLpConstraint (mkExpr [(x_var 2, 1); (x_var 1, 1); (y_var 2, -1)] 0)
       LpConstraintGE;
     mkLpConstraint (mkExpr [(x_var 1, 1); (y_var 1, -1)] 0) LpConstraintGE].

(** The value of the objective of the problem under an assignment. *)
Definition objective_value (ρ : LpVariable → Z) (PSMC : LpProblem) : Z :=
  match objective PSMC with
  | Some obj => eval ρ obj
  | None => 0
  end.

(** * Properties *)

(** ** The worked scenario *)

Example scenario_set2 :
  main_checks {[1 := [1; 2]; 2 := [2; 3]]} {[1 := 1; 2 := 1; 3 := 1]}
              {[1 := 5; 2 := 3]} 2 3 [2]
  = mkIO [message Correct] (Return (Some 0)).
Proof. vm_compute. reflexivity. Qed.

Example scenario_run :
  main_run int_plain scenario_fs "instance01.txt" "solution01.txt"
  = mkIO [message Correct] (Return (Some 0)).
Proof. vm_compute. reflexivity. Qed.

(** ** The monads *)

Lemma IO_eta {A : Type} (m : IO A) : mkIO (stdout m) (outcome m) = m.
Proof. by destruct m. Qed.

Lemma bind_lift_Return {A B : Type} (a : A) (f : A → IO B) :
  (lift (Return a) ≫= f) = f a.
Proof. unfold mbind, IO_bind, lift; simpl. apply IO_eta. Qed.

Lemma bind_lift_Raise {A B : Type} (e : exn) (f : A → IO B) :
  (lift (Raise e) ≫= f) = mkIO [] (Raise e).
Proof. reflexivity. Qed.

Lemma getitem_Some {V : Type} (d : gmap Z V) (k : Z) (v : V) :
  d !! k = Some v → getitem d k = Return v.
Proof. unfold getitem. by intros ->. Qed.

Lemma getitem_None {V : Type} (d : gmap Z V) (k : Z) :
  d !! k = None → getitem d k = Raise KeyError.
Proof. unfold getitem. by intros ->. Qed.

(** ** The cost check *)

Lemma cost_loop (C_dict : gmap Z Z) (Sol_Set : list Z) (acc : Z) :
  (∀ i, i ∈ Sol_Set → is_Some (C_dict !! i)) →
  for_each (λ cost i, ci ← getitem C_dict i; Return (cost + ci)) Sol_Set acc
  = Return (acc + cost_sum C_dict Sol_Set).
Proof.
  revert acc. induction Sol_Set as [|i l IH]; intros acc Hv; simpl.
  - f_equal. lia.
  - destruct (Hv i) as [ci Hci]; [left|].
    rewrite (getitem_Some _ _ _ Hci), Hci. simpl.
    rewrite IH; [f_equal; lia|]. intros j Hj. apply Hv. by right.
Qed.

Lemma cost_loop_invalid (C_dict : gmap Z Z) (Sol_Set : list Z) (acc : Z) :
  (∃ i, i ∈ Sol_Set ∧ C_dict !! i = None) →
  for_each (λ cost i, ci ← getitem C_dict i; Return (cost + ci)) Sol_Set acc
  = Raise KeyError.
Proof.
  revert acc. induction Sol_Set as [|i l IH]; intros acc (j & Hj & Hn).
  - by apply elem_of_nil in Hj.
  - simpl. destruct (C_dict !! i) as [ci|] eqn:Hci;
      [rewrite (getitem_Some _ _ _ Hci) | rewrite (getitem_None _ _ Hci)]; simpl; [|done].
    apply IH. exists j. split; [|done].
    apply elem_of_cons in Hj as [->|Hj]; [congruence | done].
Qed.

Lemma verify_costs_value (Sol_Set : list Z) (Sol_Costs : Z) (C_dict : gmap Z Z) :
  (∀ i, i ∈ Sol_Set → is_Some (C_dict !! i)) →
  verify_costs Sol_Set Sol_Costs C_dict
  = Return (bool_decide (cost_sum C_dict Sol_Set = Sol_Costs)).
Proof.
  intros Hv. unfold verify_costs. rewrite cost_loop by done. simpl.
  rewrite Z.add_0_l. by repeat case_decide; case_bool_decide.
Qed.

(** C4. When every selected SetId is a key of the cost mapping, the cost
    check returns, and it passes exactly when the declared cost is the sum
    of the costs of the selected sets; a declared cost that differs from
    that sum, by any amount, fails. *)
Theorem verify_costs_iff (Sol_Set : list Z) (Sol_Costs : Z) (C_dict : gmap Z Z) :
  (∀ i, i ∈ Sol_Set → is_Some (C_dict !! i)) →
  (verify_costs Sol_Set Sol_Costs C_dict = Return true
     ↔ Sol_Costs = cost_sum C_dict Sol_Set)
  ∧ (∀ d, d ≠ 0 →
       verify_costs Sol_Set (cost_sum C_dict Sol_Set + d) C_dict = Return false).
Proof.
  intros Hv. split.
  - rewrite verify_costs_value by done. case_bool_decide; split; intros; congruence.
  - intros d Hd. rewrite verify_costs_value by done.
    case_bool_decide; [lia | done].
Qed.

Lemma verify_costs_iff_witness :
  (verify_costs [1; 2] 8 {[1 := 5; 2 := 3]} = Return true
     ↔ 8 = cost_sum {[1 := 5; 2 := 3]} [1; 2])
  ∧ (∀ d, d ≠ 0 →
       verify_costs [1; 2] (cost_sum {[1 := 5; 2 := 3]} [1; 2] + d)
                    {[1 := 5; 2 := 3]} = Return false).
Proof.
  apply (verify_costs_iff [1; 2] 8 {[1 := 5; 2 := 3]}).
  intros i Hi. apply elem_of_cons in Hi as [->|Hi]; [by eexists|].
  apply elem_of_cons in Hi as [->|Hi]; [by eexists|].
  by apply elem_of_nil in Hi.
Defined.

(** ** The order of the checks *)

Lemma main_checks_cases
    (S : gmap Z (list Z)) (r c : gmap Z Z) (P Costs : Z) (Sets : list Z) :
  main_checks S r c P Costs Sets =
  match verify_costs Sets Costs c with
  | Raise e => mkIO [] (Raise e)
  | Return false => report CostMismatch
  | Return true =>
      match verify_covering_requirement r Sets S P with
      | Raise e => mkIO [] (Raise e)
      | Return false => report Infeasible
      | Return true =>
          match verify_minimal r Sets S P with
          | Raise e => mkIO [] (Raise e)
          | Return false => report NotMinimal
          | Return true => report Correct
          end
      end
  end.
Proof.
  unfold main_checks.
  destruct (verify_costs Sets Costs c) as [[|]|e1];
    rewrite ?bind_lift_Return, ?bind_lift_Raise; try reflexivity; simpl.
  destruct (verify_covering_requirement r Sets S P) as [[|]|e2];
    rewrite ?bind_lift_Return, ?bind_lift_Raise; try reflexivity; simpl.
  destruct (verify_minimal r Sets S P) as [[|]|e3];
    rewrite ?bind_lift_Return, ?bind_lift_Raise; reflexivity.
Qed.

(** C1. [main] runs the cost check first and prints "incorrect cost" when
    it fails, whatever the other checks would do; when it passes, the
    covering check runs and its failure prints "infeasible"; when both
    pass, the minimality check runs and its failure prints "not minimal";
    "everything is correct!" is printed exactly when all three pass. *)
Theorem main_checks_order
    (S : gmap Z (list Z)) (r c : gmap Z Z) (P Costs : Z) (Sets : list Z) :
  (verify_costs Sets Costs c = Return false →
     main_checks S r c P Costs Sets = report CostMismatch)
  ∧ (verify_costs Sets Costs c = Return true →
     verify_covering_requirement r Sets S P = Return false →
     main_checks S r c P Costs Sets = report Infeasible)
  ∧ (verify_costs Sets Costs c = Return true →
     verify_covering_requirement r Sets S P = Return true →
     verify_minimal r Sets S P = Return false →
     main_checks S r c P Costs Sets = report NotMinimal)
  ∧ (main_checks S r c P Costs Sets = report Correct
     ↔ verify_costs Sets Costs c = Return true
       ∧ verify_covering_requirement r Sets S P = Return true
       ∧ verify_minimal r Sets S P = Return true).
Proof.
  rewrite main_checks_cases. unfold report.
  destruct (verify_costs Sets Costs c) as [[|]|e1];
    [|intuition (discriminate || congruence)..].
  destruct (verify_covering_requirement r Sets S P) as [[|]|e2];
    [|intuition (discriminate || congruence)..].
  destruct (verify_minimal r Sets S P) as [[|]|e3];
    intuition (discriminate || congruence).
Qed.

Lemma main_checks_order_witness :
  main_checks {[1 := [1; 2]; 2 := [2; 3]]} {[1 := 1; 2 := 1; 3 := 1]}
              {[1 := 5; 2 := 3]} 2 7 [1; 2] = report CostMismatch
  ∧ main_checks {[1 := [1; 2]; 2 := [2; 3]]} {[1 := 1; 2 := 1; 3 := 1]}
                {[1 := 5; 2 := 3]} 3 3 [2] = report Infeasible
  ∧ main_checks {[1 := [1; 2]; 2 := [2; 3]]} {[1 := 1; 2 := 1; 3 := 1]}
                {[1 := 5; 2 := 3]} 2 8 [1; 2] = report NotMinimal
  ∧ main_checks {[1 := [1; 2]; 2 := [2; 3]]} {[1 := 1; 2 := 1; 3 := 1]}
                {[1 := 5; 2 := 3]} 2 3 [2] = report Correct.
Proof.
  split; [|split; [|split]].
  - apply (main_checks_order {[1 := [1; 2]; 2 := [2; 3]]} {[1 := 1; 2 := 1; 3 := 1]}
             {[1 := 5; 2 := 3]} 2 7 [1; 2]). vm_compute; reflexivity.
  - apply (main_checks_order {[1 := [1; 2]; 2 := [2; 3]]} {[1 := 1; 2 := 1; 3 := 1]}
             {[1 := 5; 2 := 3]} 3 3 [2]); vm_compute; reflexivity.
  - apply (main_checks_order {[1 := [1; 2]; 2 := [2; 3]]} {[1 := 1; 2 := 1; 3 := 1]}
             {[1 := 5; 2 := 3]} 2 8 [1; 2]); vm_compute; reflexivity.
  - apply (main_checks_order {[1 := [1; 2]; 2 := [2; 3]]} {[1 := 1; 2 := 1; 3 := 1]}
             {[1 := 5; 2 := 3]} 2 3 [2]).
    split; [|split]; vm_compute; reflexivity.
Defined.

(** The cost check ends [main] before the covering check is tried: with a
    wrong declared cost the verdict is the cost mismatch even where the
    covering check would raise. *)
Example cost_failure_short_circuits :
  verify_covering_requirement {[1 := 1]} [1] {[1 := [1; 2]]} 1 = Raise KeyError
  ∧ main_checks {[1 := [1; 2]]} {[1 := 1]} {[1 := 4]} 1 3 [1] = report CostMismatch.
Proof. split; vm_compute; reflexivity. Qed.

(** ** Coverage counts *)

Lemma occ_nonneg e B : 0 ≤ occ e B.
Proof. unfold occ. lia. Qed.

Lemma occ_elem (e : Z) (B : list Z) : e ∈ B → 1 ≤ occ e B.
Proof.
  intros He. unfold occ.
  assert (e ∈ filter (e =.) B) as Hin by (by apply list_elem_of_filter).
  destruct (filter (e =.) B); [by apply elem_of_nil in Hin | simpl; lia].
Qed.

Lemma occ_not_elem (e : Z) (B : list Z) : e ∉ B → occ e B = 0.
Proof.
  intros He. unfold occ.
  destruct (filter (e =.) B) as [|a l] eqn:Hf; [done|].
  assert (a ∈ filter (e =.) B) as Hin by (rewrite Hf; left).
  apply list_elem_of_filter in Hin as [<- Hin]. done.
Qed.

Lemma occ_NoDup (e : Z) (B : list Z) : NoDup B → occ e B ≤ 1.
Proof.
  intros Hnd. unfold occ.
  pose proof (NoDup_filter (e =.) B Hnd) as Hndf.
  destruct (filter (e =.) B) as [|a [|b l]] eqn:Hf; simpl; [lia..|].
  assert (a ∈ filter (e =.) B) as Ha by (rewrite Hf; left).
  assert (b ∈ filter (e =.) B) as Hb by (rewrite Hf; right; left).
  apply list_elem_of_filter in Ha as [<- _]. apply list_elem_of_filter in Hb as [<- _].
  apply NoDup_cons in Hndf as [Hn _]. exfalso. apply Hn. left.
Qed.



Lemma multiplicity_app S l1 l2 e :
  multiplicity S (l1 ++ l2) e = multiplicity S l1 e + multiplicity S l2 e.
Proof. induction l1 as [|i l1 IH]; simpl; lia. Qed.

Lemma Counter_update_get cov B e :
  Counter_get (Counter_update cov B) e = Counter_get cov e + occ e B.
Proof.
  unfold Counter_update, occ. revert cov.
  induction B as [|y B IH]; intros cov; simpl; [lia|].
  rewrite IH, filter_cons. unfold Counter_get at 1.
  destruct (decide (y = e)) as [->|Hne].
  - rewrite lookup_insert_eq, decide_True by done. simpl. lia.
  - rewrite lookup_insert_ne, decide_False by done. fold (Counter_get cov e). lia.
Qed.

Lemma Counter_update_lookup cov B e :
  is_Some (Counter_update cov B !! e) ↔ is_Some (cov !! e) ∨ e ∈ B.
Proof.
  unfold Counter_update. revert cov.
  induction B as [|y B IH]; intros cov; simpl.
  - split; [by left|]. intros [?|H]; [done|]. by apply elem_of_nil in H.
  - rewrite IH, elem_of_cons. destruct (decide (y = e)) as [->|Hne].
    + rewrite lookup_insert_eq. intuition eauto.
    + rewrite lookup_insert_ne by done. intuition congruence.
Qed.

(** The first loop of the covering check, started from any counter. *)
Lemma coverage_loop S Sol_Set cov0 :
  (∀ i, i ∈ Sol_Set → is_Some (S !! i)) →
  ∃ cov,
    for_each (λ cov i, Si ← getitem S i; Return (Counter_update cov Si)) Sol_Set cov0
    = Return cov
    ∧ (∀ e, Counter_get cov e = Counter_get cov0 e + multiplicity S Sol_Set e)
    ∧ (∀ e, is_Some (cov !! e) ↔ is_Some (cov0 !! e) ∨ covered S Sol_Set e).
Proof.
  revert cov0. induction Sol_Set as [|i l IH]; intros cov0 Hv; simpl.
  - exists cov0. split; [done|]. split; [intros; lia|].
    intros e. split; [by left|]. intros [?|(i & B & Hi & _)]; [done|].
    by apply elem_of_nil in Hi.
  - destruct (Hv i) as [B HB]; [left|].
    rewrite (getitem_Some _ _ _ HB), HB. simpl.
    destruct (IH (Counter_update cov0 B)) as (cov & -> & Hget & Hdom).
    { intros j Hj. apply Hv. by right. }
    exists cov. split; [done|]. split.
    + intros e. rewrite Hget, Counter_update_get. lia.
    + intros e. rewrite Hdom, Counter_update_lookup. unfold covered. split.
      * intros [[?|He]|(j & B' & Hj & HB' & He)]; [by left|right..].
        -- exists i, B. split; [left | done].
        -- exists j, B'. split; [by right | done].
      * intros [?|(j & B' & Hj & HB' & He)]; [by left; left|].
        apply elem_of_cons in Hj as [->|Hj].
        -- left; right. congruence.
        -- right. by exists j, B'.
Qed.

Lemma coverage_loop_invalid S Sol_Set cov0 :
  (∃ i, i ∈ Sol_Set ∧ S !! i = None) →
  for_each (λ cov i, Si ← getitem S i; Return (Counter_update cov Si)) Sol_Set cov0
  = Raise KeyError.
Proof.
  revert cov0. induction Sol_Set as [|i l IH]; intros cov0 (j & Hj & Hn).
  - by apply elem_of_nil in Hj.
  - simpl. destruct (S !! i) as [B|] eqn:HB;
      [rewrite (getitem_Some _ _ _ HB) | rewrite (getitem_None _ _ HB)]; simpl; [|done].
    apply IH. exists j. split; [|done].
    apply elem_of_cons in Hj as [->|Hj]; [congruence | done].
Qed.

Lemma coverage_Return S Sol_Set :
  (∀ i, i ∈ Sol_Set → is_Some (S !! i)) →
  ∃ cov, coverage Sol_Set S = Return cov
    ∧ (∀ e, Counter_get cov e = multiplicity S Sol_Set e)
    ∧ (∀ e, is_Some (cov !! e) ↔ covered S Sol_Set e).
Proof.
  intros Hv. destruct (coverage_loop S Sol_Set ∅ Hv) as (cov & Hc & Hget & Hdom).
  exists cov. split; [done|]. split.
  - intros e. rewrite Hget. unfold Counter_get. rewrite lookup_empty. simpl. lia.
  - intros e. rewrite Hdom, lookup_empty. split; [|by right].
    intros [[? ?]|?]; done.
Qed.

Lemma coverage_valid S Sol_Set cov :
  coverage Sol_Set S = Return cov → ∀ i, i ∈ Sol_Set → is_Some (S !! i).
Proof.
  intros Hc i Hi. destruct (S !! i) as [B|] eqn:HB; [by eexists|].
  unfold coverage in Hc. rewrite coverage_loop_invalid in Hc; [done|by exists i].
Qed.

Lemma list_remove_elem (i : Z) (l : list Z) :
  i ∈ l → ∃ l1 l2, l = l1 ++ i :: l2 ∧ list_remove i l = Return (l1 ++ l2).
Proof.
  induction l as [|y l IH]; intros Hi; [by apply elem_of_nil in Hi|].
  simpl. destruct (decide (i = y)) as [->|Hne].
  - by exists [], l.
  - apply elem_of_cons in Hi as [?|Hi]; [done|].
    destruct (IH Hi) as (l1 & l2 & -> & ->). by exists (y :: l1), l2.
Qed.

(** C7. Whenever the coverage counter of a solution list can be computed,
    inserting a set of the instance anywhere in the list gives a counter in
    which no element counts less, and removing any one member, as
    [verify_minimal] does, gives a counter in which no element counts
    more. *)
Theorem coverage_monotone (S : gmap Z (list Z)) (Sol_Set : list Z)
    (cov : gmap Z Z) (e : Z) :
  coverage Sol_Set S = Return cov →
  (∀ j l1 l2, is_Some (S !! j) → Sol_Set = l1 ++ l2 →
     ∃ cov', coverage (l1 ++ j :: l2) S = Return cov'
       ∧ Counter_get cov e ≤ Counter_get cov' e)
  ∧ (∀ i, i ∈ Sol_Set →
     ∃ changed cov', list_remove i Sol_Set = Return changed
       ∧ coverage changed S = Return cov'
       ∧ Counter_get cov' e ≤ Counter_get cov e).
Proof.
  intros Hc. pose proof (coverage_valid _ _ _ Hc) as Hv.
  destruct (coverage_Return S Sol_Set Hv) as (cov0 & Hc0 & Hget & _).
  assert (cov0 = cov) as -> by congruence. split.
  - intros j l1 l2 [B HB] ->.
    destruct (coverage_Return S (l1 ++ j :: l2)) as (cov' & Hc' & Hget' & _).
    { intros i Hi. apply elem_of_app in Hi as [Hi|Hi].
      - apply Hv, elem_of_app. by left.
      - apply elem_of_cons in Hi as [->|Hi]; [by eexists|].
        apply Hv, elem_of_app. by right. }
    exists cov'. split; [done|].
    rewrite Hget, Hget', !multiplicity_app. simpl.
    pose proof (occ_nonneg e (default [] (S !! j))). lia.
  - intros i Hi. destruct (list_remove_elem i Sol_Set Hi) as (l1 & l2 & -> & Hrm).
    destruct (coverage_Return S (l1 ++ l2)) as (cov' & Hc' & Hget' & _).
    { intros k Hk. apply Hv. rewrite elem_of_app, elem_of_cons.
      apply elem_of_app in Hk as [?|?]; auto. }
    exists (l1 ++ l2), cov'. split; [done|]. split; [done|].
    rewrite Hget, Hget', !multiplicity_app. simpl.
    pose proof (occ_nonneg e (default [] (S !! i))). lia.
Qed.

Lemma coverage_monotone_witness :
  (∃ cov', coverage ([1] ++ 2 :: []) {[1 := [1; 2]; 2 := [2; 3]]} = Return cov'
     ∧ Counter_get {[1 := 1; 2 := 1]} 2 ≤ Counter_get cov' 2)
  ∧ (∃ changed cov', list_remove 1 [1] = Return changed
     ∧ coverage changed {[1 := [1; 2]; 2 := [2; 3]]} = Return cov'
     ∧ Counter_get cov' 2 ≤ Counter_get {[1 := 1; 2 := 1]} 2).
Proof.
  pose proof (coverage_monotone {[1 := [1; 2]; 2 := [2; 3]]} [1]
                {[1 := 1; 2 := 1]} 2 eq_refl) as [Hadd Hrm].
  split.
  - apply (Hadd 2 [1] []); [by eexists | reflexivity].
  - apply (Hrm 1). left.
Defined.

(** ** The covering check *)

Lemma count_loop (Re : gmap Z Z) (l : list (Z * Z)) (acc : Z) :
  (∀ kn, kn ∈ l → is_Some (Re !! kn.1)) →
  for_each (λ req '(i, n), ri ← getitem Re i;
              Return (if decide (ri ≤ n) then req + 1 else req)) l acc
  = Return (acc + Z.of_nat (length (filter (sat_entry Re) l))).
Proof.
  revert acc. induction l as [|[i n] l IH]; intros acc Hv; simpl.
  - f_equal. lia.
  - destruct (Hv (i, n)) as [ri Hri]; [left|]. simpl in Hri.
    rewrite (getitem_Some _ _ _ Hri). simpl.
    rewrite IH by (intros kn Hkn; apply Hv; by right).
    assert (sat_entry Re (i, n) ↔ ri ≤ n) as Hsat
      by (unfold sat_entry; simpl; by rewrite Hri).
    rewrite filter_cons. f_equal.
    destruct (decide (sat_entry Re (i, n))), (decide (ri ≤ n)); simpl; tauto || lia.
Qed.

Lemma count_loop_invalid (Re : gmap Z Z) (l : list (Z * Z)) (acc : Z) :
  (∃ kn, kn ∈ l ∧ Re !! kn.1 = None) →
  for_each (λ req '(i, n), ri ← getitem Re i;
              Return (if decide (ri ≤ n) then req + 1 else req)) l acc
  = Raise KeyError.
Proof.
  revert acc. induction l as [|[i n] l IH]; intros acc (kn & Hkn & Hn).
  - by apply elem_of_nil in Hkn.
  - simpl. destruct (Re !! i) as [ri|] eqn:Hri;
      [rewrite (getitem_Some _ _ _ Hri) | rewrite (getitem_None _ _ Hri)]; simpl; [|done].
    apply IH. exists kn. split; [|done].
    apply elem_of_cons in Hkn as [->|Hkn]; [simpl in Hn; congruence | done].
Qed.

Lemma count_satisfied_value Re S Sol_Set (cov : gmap Z Z) :
  (∀ e re, Re !! e = Some re → 0 < re) →
  (∀ e, Counter_get cov e = multiplicity S Sol_Set e) →
  (∀ e, is_Some (cov !! e) → is_Some (Re !! e)) →
  count_satisfied Re cov = Return (satisfied_count Re S Sol_Set).
Proof.
  intros Hpos Hget Hreq. unfold count_satisfied.
  rewrite count_loop.
  2:{ intros [i n] Hin. apply elem_of_map_to_list in Hin. simpl. by apply Hreq. }
  rewrite Z.add_0_l. f_equal. unfold satisfied_count. f_equal.
  rewrite <- length_map_to_list.
  rewrite <- (length_fmap fst (filter _ _)), <- (length_fmap fst (map_to_list (satisfied _ _ _))).
  apply Permutation_length, NoDup_Permutation.
  - apply (sublist_NoDup _ (map_to_list cov).*1).
    + apply NoDup_fst_map_to_list.
    + apply fmap_sublist, sublist_filter.
  - apply NoDup_fst_map_to_list.
  - intros e. rewrite !list_elem_of_fmap. split.
    + intros ([e' n] & -> & Hin). apply list_elem_of_filter in Hin as [Hsat Hin].
      apply elem_of_map_to_list in Hin. unfold sat_entry in Hsat. simpl in *.
      destruct (Re !! e') as [re|] eqn:Hre; [|done].
      exists (e', re). split; [done|].
      apply elem_of_map_to_list, map_lookup_filter_Some. split; [done|]. simpl.
      rewrite <- Hget. unfold Counter_get. by rewrite Hin.
    + intros ([e' re] & -> & Hin).
      apply elem_of_map_to_list, map_lookup_filter_Some in Hin as [Hre Hle].
      simpl in *. pose proof (Hpos _ _ Hre) as Hp.
      rewrite <- Hget in Hle. unfold Counter_get in Hle.
      destruct (cov !! e') as [n|] eqn:Hn; simpl in Hle; [|lia].
      exists (e', n). split; [done|].
      apply list_elem_of_filter. split.
      * unfold sat_entry. simpl. by rewrite Hre.
      * by apply elem_of_map_to_list.
Qed.

Lemma covering_check_value Re Sol_Set S P_thresh :
  (∀ e re, Re !! e = Some re → 0 < re) →
  (∀ i, i ∈ Sol_Set → is_Some (S !! i)) →
  (∀ e, covered S Sol_Set e → is_Some (Re !! e)) →
  verify_covering_requirement Re Sol_Set S P_thresh
  = Return (bool_decide (P_thresh ≤ satisfied_count Re S Sol_Set)).
Proof.
  intros Hpos Hv Hreq. unfold verify_covering_requirement.
  destruct (coverage_Return S Sol_Set Hv) as (cov & -> & Hget & Hdom). simpl.
  rewrite (count_satisfied_value Re S Sol_Set cov); [|done..|].
  - simpl. by case_decide; case_bool_decide.
  - intros e He. by apply Hreq, Hdom.
Qed.


Ltac in_list H :=
  repeat (apply elem_of_cons in H as [->|H]); [..| by apply elem_of_nil in H].



(** ** The minimality check *)

Lemma covering_check_returns Re Sol_Set S P_thresh :
  (∀ i, i ∈ Sol_Set → is_Some (S !! i)) →
  (∀ e, covered S Sol_Set e → is_Some (Re !! e)) →
  ∃ b, verify_covering_requirement Re Sol_Set S P_thresh = Return b.
Proof.
  intros Hv Hreq. unfold verify_covering_requirement, count_satisfied.
  destruct (coverage_Return S Sol_Set Hv) as (cov & -> & _ & Hdom). simpl.
  rewrite count_loop.
  - simpl. case_decide; by eexists.
  - intros [i n] Hin. apply elem_of_map_to_list in Hin. simpl.
    apply Hreq, Hdom. by eexists.
Qed.

(** The covering check stops with [KeyError] as soon as a selected set
    lists an element that has no requirement. *)
Lemma covering_check_raises Re Sol_Set S P_thresh :
  (∀ i, i ∈ Sol_Set → is_Some (S !! i)) →
  (∃ e, covered S Sol_Set e ∧ Re !! e = None) →
  verify_covering_requirement Re Sol_Set S P_thresh = Raise KeyError.
Proof.
  intros Hv (e & He & Hn). unfold verify_covering_requirement, count_satisfied.
  destruct (coverage_Return S Sol_Set Hv) as (cov & -> & _ & Hdom). simpl.
  apply Hdom in He as [n Hcov].
  rewrite count_loop_invalid; [done|].
  exists (e, n). split; [by apply elem_of_map_to_list | done].
Qed.

(** The loop of [verify_minimal], when every removal and every covering
    check it makes returns. *)
Lemma minimal_loop_spec Re Sol_Set S P_thresh todo :
  (∀ i, i ∈ todo → ∃ changed b, list_remove i Sol_Set = Return changed
      ∧ verify_covering_requirement Re changed S P_thresh = Return b) →
  (verify_minimal_loop Re Sol_Set S P_thresh todo = Return false
   ↔ ∃ j changed, j ∈ todo ∧ list_remove j Sol_Set = Return changed
       ∧ verify_covering_requirement Re changed S P_thresh = Return true)
  ∧ (verify_minimal_loop Re Sol_Set S P_thresh todo = Return true
   ↔ ∀ j, j ∈ todo → ∃ changed, list_remove j Sol_Set = Return changed
       ∧ verify_covering_requirement Re changed S P_thresh = Return false).
Proof.
  induction todo as [|i todo IH]; intros Hret; simpl.
  - split; split; try done.
    + intros (j & ? & Hj & _). by apply elem_of_nil in Hj.
    + intros _ j Hj. by apply elem_of_nil in Hj.
  - destruct (Hret i) as (changed & b & Hrm & Hb); [left|].
    destruct IH as [IHf IHt]; [intros j Hj; apply Hret; by right|].
    rewrite Hrm. simpl. rewrite Hb. simpl. destruct b.
    + split; split; try done.
      * intros _. exists i, changed. split; [left | done].
      * intros H. destruct (H i) as (ch' & Hrm' & Hb'); [left|]. congruence.
    + rewrite IHf, IHt. split; split.
      * intros (j & ch & Hj & ?). exists j, ch. split; [by right | done].
      * intros (j & ch & Hj & Hrm' & Hb').
        apply elem_of_cons in Hj as [->|Hj]; [congruence|]. by exists j, ch.
      * intros H j Hj. apply elem_of_cons in Hj as [->|Hj]; [by exists changed | by apply H].
      * intros H j Hj. apply H. by right.
Qed.

Lemma covered_remove S l1 l2 i e :
  covered S (l1 ++ l2) e → covered S (l1 ++ i :: l2) e.
Proof.
  intros (j & B & Hj & HB & He). exists j, B. split; [|done].
  rewrite elem_of_app, elem_of_cons. apply elem_of_app in Hj as [?|?]; auto.
Qed.

Lemma valid_or_missing {V : Type} (d : gmap Z V) (l : list Z) :
  (∀ i, i ∈ l → is_Some (d !! i)) ∨ (∃ i, i ∈ l ∧ d !! i = None).
Proof.
  induction l as [|i l [IH|(j & Hj & Hn)]].
  - left. intros i Hi. by apply elem_of_nil in Hi.
  - destruct (d !! i) as [v|] eqn:Hi.
    + left. intros j Hj. apply elem_of_cons in Hj as [->|Hj]; [by eexists | by apply IH].
    + right. exists i. split; [left | done].
  - right. exists j. split; [by right | done].
Qed.

Lemma covered_or_unlisted (Re : gmap Z Z) (cov : gmap Z Z) :
  (∀ e, is_Some (cov !! e) → is_Some (Re !! e))
  ∨ (∃ e, is_Some (cov !! e) ∧ Re !! e = None).
Proof.
  destruct (valid_or_missing Re (map_to_list cov).*1) as [Hv|(e & He & Hn)].
  - left. intros e [n Hn]. apply Hv, list_elem_of_fmap.
    exists (e, n). split; [done | by apply elem_of_map_to_list].
  - right. exists e. split; [|done].
    apply list_elem_of_fmap in He as ([e' n] & -> & Hin).
    apply elem_of_map_to_list in Hin. by eexists.
Qed.

Lemma covering_check_Return_inv Re (l : list Z) S P_thresh b :
  verify_covering_requirement Re l S P_thresh = Return b →
  (∀ i, i ∈ l → is_Some (S !! i)) ∧ (∀ e, covered S l e → is_Some (Re !! e)).
Proof.
  intros Hb. destruct (valid_or_missing S l) as [Hv|Hm].
  - split; [done|]. destruct (coverage_Return S l Hv) as (cov & Hc & _ & Hdom).
    destruct (covered_or_unlisted Re cov) as [Hreq|(e & He & Hn)].
    + intros e He. by apply Hreq, Hdom.
    + rewrite covering_check_raises in Hb; [done | done |].
      exists e. split; [by apply Hdom | done].
  - unfold verify_covering_requirement, coverage in Hb.
    by rewrite coverage_loop_invalid in Hb.
Qed.

Lemma report_inj (v v' : Verdict) : report v = report v' → v = v'.
Proof. by destruct v, v'. Qed.

Lemma minimal_loop_returns Re Sol_Set S P_thresh todo :
  (∀ i, i ∈ todo → ∃ changed b, list_remove i Sol_Set = Return changed
      ∧ verify_covering_requirement Re changed S P_thresh = Return b) →
  ∃ b, verify_minimal_loop Re Sol_Set S P_thresh todo = Return b.
Proof.
  induction todo as [|i todo IH]; intros Hret; simpl; [by eexists|].
  destruct (Hret i) as (changed & b & -> & Hb); [left|]. simpl. rewrite Hb. simpl.
  destruct b; [by eexists|]. apply IH. intros j Hj. apply Hret. by right.
Qed.

Lemma verify_minimal_returns Re Sol_Set S P_thresh :
  (∀ i, i ∈ Sol_Set → is_Some (S !! i)) →
  (∀ e, covered S Sol_Set e → is_Some (Re !! e)) →
  ∃ b, verify_minimal Re Sol_Set S P_thresh = Return b.
Proof.
  intros Hv Hreq. apply minimal_loop_returns.
  intros i Hi. destruct (list_remove_elem i Sol_Set Hi) as (l1 & l2 & -> & Hrm).
  destruct (covering_check_returns Re (l1 ++ l2) S P_thresh) as [b Hb].
  - intros k Hk. apply Hv. rewrite elem_of_app, elem_of_cons.
    apply elem_of_app in Hk as [?|?]; auto.
  - intros e He. by apply Hreq, covered_remove.
  - by exists (l1 ++ l2), b.
Qed.




(** Called on its own on a list whose covering check raises, which [main]
    never does, the minimality check may raise where a removal would
    pass: with requirement {1: 1}, sets {1: [1], 2: [7]} and threshold 1,
    the list [1, 2] stays feasible without set 2, but the check tries set
    1 first and the covering check of [2] stops at element 7, which has no
    requirement. *)
Lemma verify_minimal_unlisted_element :
  verify_covering_requirement {[1 := 1]} [1; 2] {[1 := [1]; 2 := [7]]} 1 = Raise KeyError
  ∧ (∃ j changed, j ∈ [1; 2] ∧ list_remove j [1; 2] = Return changed
       ∧ verify_covering_requirement {[1 := 1]} changed {[1 := [1]; 2 := [7]]} 1
         = Return true)
  ∧ verify_minimal {[1 := 1]} [1; 2] {[1 := [1]; 2 := [7]]} 1 = Raise KeyError.
Proof.
  split; [vm_compute; reflexivity|]. split; [|vm_compute; reflexivity].
  exists 2, [1]. split; [right; left|]. split; vm_compute; reflexivity.
Qed.

(** ** The empty solution *)

Lemma covering_check_empty Re S P_thresh :
  verify_covering_requirement Re [] S P_thresh = Return (bool_decide (P_thresh ≤ 0)).
Proof.
  unfold verify_covering_requirement, coverage, count_satisfied. simpl.
  rewrite map_to_list_empty. simpl. by case_decide; case_bool_decide.
Qed.

(** C10. On the empty solution list the minimality check returns [True]
    without trying anything, so [main] never prints "not minimal" for it,
    whatever cost is declared; declared with cost 0 it passes the cost
    check, and the verdict is the one of the covering check alone: correct
    when that passes, infeasible when it fails. *)
Theorem empty_solution (S : gmap Z (list Z)) (r c : gmap Z Z) (P : Z) :
  verify_minimal r [] S P = Return true
  ∧ (∀ Costs, main_checks S r c P Costs [] ≠ report NotMinimal)
  ∧ verify_costs [] 0 c = Return true
  ∧ (∃ b, verify_covering_requirement r [] S P = Return b
       ∧ main_checks S r c P 0 [] = report (if b then Correct else Infeasible)).
Proof.
  split; [reflexivity|]. split; [|split; [reflexivity|]].
  - intros Costs. rewrite main_checks_cases, covering_check_empty. simpl.
    destruct (verify_costs [] Costs c) as [[|]|e]; [|done..].
    by case_bool_decide.
  - exists (bool_decide (P ≤ 0)). split; [apply covering_check_empty|].
    rewrite main_checks_cases, covering_check_empty. simpl.
    by case_bool_decide.
Qed.

(** ** Correct is not optimal *)

(** C6. In the instance with requirements [1, 1, 1], costs [5, 3], sets
    {1, 2} and {2, 3} and threshold 2, the solution [1] declared with its
    true cost 5 passes the three checks and is reported correct, while the
    solution [2] is feasible too and costs 3. *)
Theorem correct_not_optimal :
  ∃ (S : gmap Z (list Z)) (r c : gmap Z Z) (P : Z) (Sets Sets' : list Z),
    verify_costs Sets (cost_sum c Sets) c = Return true
    ∧ verify_covering_requirement r Sets S P = Return true
    ∧ verify_minimal r Sets S P = Return true
    ∧ main_checks S r c P (cost_sum c Sets) Sets = report Correct
    ∧ Sets' ≠ Sets
    ∧ (∀ i, i ∈ Sets' → is_Some (c !! i))
    ∧ verify_covering_requirement r Sets' S P = Return true
    ∧ cost_sum c Sets' < cost_sum c Sets.
Proof.
  exists {[1 := [1; 2]; 2 := [2; 3]]}, {[1 := 1; 2 := 1; 3 := 1]},
    {[1 := 5; 2 := 3]}, 2, [1], [2].
  repeat (split; [vm_compute; reflexivity|]).
  split; [discriminate|]. split.
  - intros i H. in_list H; by eexists.
  - split; vm_compute; reflexivity.
Qed.

(** ** Dictionaries built by [read_instance] *)

Lemma elem_of_keys_upto (n : nat) (k : Z) : k ∈ keys_upto n ↔ 1 ≤ k ≤ Z.of_nat n.
Proof.
  unfold keys_upto. rewrite list_elem_of_fmap. split.
  - intros (i & -> & Hi). apply elem_of_seq in Hi. lia.
  - intros Hk. exists (Z.to_nat (k - 1)). split; [lia|]. apply elem_of_seq. lia.
Qed.

Lemma keys_upto_S (n : nat) : keys_upto (S n) = keys_upto n ++ [Z.of_nat n + 1].
Proof. unfold keys_upto. by rewrite seq_S, fmap_app. Qed.

Lemma length_keys_upto (n : nat) : length (keys_upto n) = n.
Proof. unfold keys_upto. by rewrite length_fmap, length_seq. Qed.

Lemma NoDup_keys_upto (n : nat) : NoDup (keys_upto n).
Proof.
  unfold keys_upto. apply NoDup_fmap_2_strong; [|apply NoDup_seq].
  intros i j _ _ ?. lia.
Qed.

Lemma od_set_fresh {V : Type} (k : Z) (v : V) (d : list (Z * V)) :
  k ∉ d.*1 → od_set k v d = d ++ [(k, v)].
Proof.
  induction d as [|[k' v'] d IH]; intros Hk; [done|].
  rewrite fmap_cons in Hk. apply not_elem_of_cons in Hk as [Hne Hd]. simpl in *.
  rewrite decide_False by done. by rewrite IH.
Qed.

Lemma od_of_pairs_loop {V : Type} (d pairs : list (Z * V)) :
  NoDup (d ++ pairs).*1 →
  foldl (λ d kv, od_set kv.1 kv.2 d) d pairs = d ++ pairs.
Proof.
  revert d. induction pairs as [|[k v] pairs IH]; intros d Hnd; simpl.
  - by rewrite app_nil_r.
  - rewrite od_set_fresh.
    + rewrite IH; rewrite <- app_assoc; [done|]. exact Hnd.
    + rewrite fmap_app in Hnd. apply NoDup_app in Hnd as (_ & Hd & _).
      intros Hin. apply (Hd k Hin). simpl. left.
Qed.

Lemma od_of_pairs_NoDup {V : Type} (pairs : list (Z * V)) :
  NoDup pairs.*1 → od_of_pairs pairs = pairs.
Proof. intros Hnd. unfold od_of_pairs. by rewrite od_of_pairs_loop. Qed.

Lemma list_to_map_is_Some {V : Type} (l : list (Z * V)) (k : Z) :
  is_Some ((list_to_map l : gmap Z V) !! k) ↔ k ∈ l.*1.
Proof.
  destruct (decide (k ∈ l.*1)) as [Hin|Hnin].
  - split; [done|]. intros _. apply not_eq_None_Some.
    intros Hn. by apply not_elem_of_list_to_map in Hn.
  - apply not_elem_of_list_to_map in Hnin as Hn. rewrite Hn.
    split; [by intros [? ?] | done].
Qed.

Lemma imap_keys {A : Type} (l : list A) (m : nat) :
  (imap (λ i a, (Z.of_nat (m + i) + 1, a)) l).*1
  = (λ i : nat, Z.of_nat i + 1) <$> seq m (length l).
Proof.
  revert m. induction l as [|a l IH]; intros m; simpl; [done|].
  rewrite Nat.add_0_r. f_equal. rewrite <- IH. f_equal.
  apply imap_ext. intros i x _. simpl. do 2 f_equal. lia.
Qed.

Lemma enumerate_keys {A : Type} (l : list A) :
  ((λ kv : Z * A, (kv.1 + 1, kv.2)) <$> enumerate l).*1 = keys_upto (length l).
Proof.
  unfold enumerate, keys_upto. rewrite fmap_imap, <- (imap_keys l 0).
  f_equal.
Qed.

Lemma length_range (a b : Z) : length (range a b) = Z.to_nat (b - a).
Proof. unfold range. by rewrite length_fmap, length_seq. Qed.

(** Inverting one step of a computation that returned. *)
Ltac bind_inv H :=
  match type of H with
  | (?m ≫= _) = Return _ =>
      let x := fresh "x" in let Hx := fresh "H" x in
      destruct m as [x|] eqn:Hx; simpl in H; [|discriminate H]
  | (if negb (bool_decide ?P) then _ else _) = Return _ =>
      let HP := fresh "Hlen" in
      destruct (bool_decide_reflect P) as [HP|HP]; simpl in H; [|discriminate H]
  end.

Section ReaderFacts.

Variable int : string → option Z.

Lemma S_loop_keys (instance : list string) (l : list Z) (m : nat)
    (S0 S' : list (Z * list Z)) :
  for_each (λ S jk, line ← index instance (Z.to_nat jk.2);
                    members ← list_comp (int_of int) (split_ws line);
                    Return (od_set (jk.1 + 1) members S))
           (imap (λ i a, (Z.of_nat (m + i), a)) l) S0 = Return S' →
  S0.*1 = keys_upto m →
  S'.*1 = keys_upto (m + length l).
Proof.
  revert m S0. induction l as [|a l IH]; intros m S0 Hloop Hkeys; simpl in *.
  - injection Hloop as <-. by rewrite Nat.add_0_r.
  - bind_inv Hloop. bind_inv Hx. bind_inv Hx.
    injection Hx as <-. rewrite Nat.add_0_r in Hloop.
    replace (m + S (length l))%nat with (S m + length l)%nat by lia.
    apply (IH (S m) (od_set (Z.of_nat m + 1) x1 S0)).
    + rewrite <- Hloop. f_equal. apply imap_ext. intros i y _. simpl.
      do 2 f_equal. lia.
    + rewrite od_set_fresh.
      * by rewrite fmap_app, Hkeys, keys_upto_S.
      * rewrite Hkeys, elem_of_keys_upto. lia.
Qed.

(** What [read_instance] returns has the keys 1..num_E in [E] and [r]
    and the keys 1..num_S in [S] and [c]. *)
Lemma read_instance_keys (text : string) (E : gmap Z Z) (S_ : gmap Z (list Z))
    (r c : gmap Z Z) (num_E num_S P : Z) :
  read_instance_try int text = Return (E, S_, r, c, num_E, num_S, P) →
  (∀ k, is_Some (E !! k) ↔ 1 ≤ k ≤ num_E)
  ∧ (∀ k, is_Some (S_ !! k) ↔ 1 ≤ k ≤ num_S)
  ∧ (∀ k, is_Some (r !! k) ↔ 1 ≤ k ≤ num_E)
  ∧ (∀ k, is_Some (c !! k) ↔ 1 ≤ k ≤ num_S).
Proof.
  unfold read_instance_try. intros H.
  bind_inv H. bind_inv H.
  destruct x0 as [|a [|b [|c0 [|? ?]]]]; simpl in H; try discriminate H.
  bind_inv H. bind_inv H. bind_inv H. bind_inv H. bind_inv H. bind_inv H.
  bind_inv H. bind_inv H.
  rename x1 into r0, x3 into costs, x4 into S_od, Hx5 into Hloop.
  injection H as <- <- <- <- <- <- <-.
  pose proof (S_loop_keys _ _ 0 [] _ Hloop eq_refl) as HS. simpl in HS.
  set (n := length (range 3 (Z.of_nat (length (split_on "010" text))))) in *.
  assert (length S_od = n) as HlenS
    by (by rewrite <- (length_fmap fst), HS, length_keys_upto).
  set (E_od := od_of_pairs _).
  assert (E_od.*1 = keys_upto (length r0)) as HE.
  { unfold E_od. rewrite od_of_pairs_NoDup; rewrite enumerate_keys, length_range.
    - f_equal. lia.
    - apply NoDup_keys_upto. }
  assert (∀ ks (vs : list Z) m, ks = keys_upto m → length vs = m →
            (od_of_pairs (zip ks vs)).*1 = keys_upto m) as Hzip.
  { intros ks vs m -> Hm.
    assert ((zip (keys_upto m) vs).*1 = keys_upto m) as Hfst
      by (apply fst_zip; rewrite length_keys_upto; lia).
    rewrite od_of_pairs_NoDup; rewrite Hfst; [done | apply NoDup_keys_upto]. }
  assert (length costs = n) as Hcosts by lia.
  split; [|split; [|split]]; intros k; rewrite list_to_map_is_Some.
  - rewrite HE, elem_of_keys_upto. lia.
  - rewrite HS, elem_of_keys_upto. lia.
  - rewrite (Hzip _ _ _ HE eq_refl), elem_of_keys_upto. lia.
  - rewrite (Hzip _ _ _ HS Hcosts), elem_of_keys_upto. lia.
Qed.

End ReaderFacts.

(** ** Lookups by SetId *)

(** C9, as the code has it.  For an instance that [read_instance] returned:
    when every SetId of the solution lies in [1, num_S], the lookups
    [C_dict[i]] of the cost check and [S[i]] of the covering check succeed;
    when moreover every element listed in a selected set lies in
    [1, num_E], the lookups [Re[i]] succeed as well, no check raises and
    [main] ends with one of the four verdicts.  A solution with a SetId
    outside [1, num_S] makes the cost check, hence [main], stop with an
    uncaught [KeyError], nothing printed. *)
Theorem setid_lookups (int : string → option Z) (text : string)
    (E : gmap Z Z) (S_ : gmap Z (list Z)) (r c : gmap Z Z) (num_E num_S P : Z)
    (Costs : Z) (Sets : list Z) :
  read_instance_try int text = Return (E, S_, r, c, num_E, num_S, P) →
  ((∀ i, i ∈ Sets → 1 ≤ i ≤ num_S) →
     (∃ b, verify_costs Sets Costs c = Return b)
     ∧ (∃ cov, coverage Sets S_ = Return cov)
     ∧ ((∀ e, covered S_ Sets e → 1 ≤ e ≤ num_E) →
          (∃ b, verify_covering_requirement r Sets S_ P = Return b)
          ∧ (∃ b, verify_minimal r Sets S_ P = Return b)
          ∧ (∃ v, main_checks S_ r c P Costs Sets = report v)))
  ∧ ((∃ i, i ∈ Sets ∧ ¬ (1 ≤ i ≤ num_S)) →
     verify_costs Sets Costs c = Raise KeyError
     ∧ main_checks S_ r c P Costs Sets = mkIO [] (Raise KeyError)).
Proof.
  intros Hinst.
  destruct (read_instance_keys int _ _ _ _ _ _ _ _ Hinst) as (_ & HS & Hr & Hc).
  split.
  - intros Hrange.
    assert (∀ i, i ∈ Sets → is_Some (c !! i)) as Hvc by (intros; by apply Hc, Hrange).
    assert (∀ i, i ∈ Sets → is_Some (S_ !! i)) as Hvs by (intros; by apply HS, Hrange).
    assert (∃ b, verify_costs Sets Costs c = Return b) as [b1 Hb1]
      by (rewrite verify_costs_value by done; by eexists).
    destruct (coverage_Return S_ Sets Hvs) as (cov & Hcov & _).
    split; [by eexists|]. split; [by eexists|]. intros Helem.
    assert (∀ e, covered S_ Sets e → is_Some (r !! e)) as Hreq
      by (intros; by apply Hr, Helem).
    destruct (covering_check_returns r Sets S_ P Hvs Hreq) as [b2 Hb2].
    destruct (verify_minimal_returns r Sets S_ P Hvs Hreq) as [b3 Hb3].
    split; [by eexists|]. split; [by eexists|].
    rewrite main_checks_cases, Hb1, Hb2, Hb3. destruct b1, b2, b3; by eexists.
  - intros (i & Hi & Hout).
    assert (verify_costs Sets Costs c = Raise KeyError) as Hraise.
    { unfold verify_costs. rewrite cost_loop_invalid; [done|].
      exists i. split; [done|]. apply eq_None_not_Some. by rewrite Hc. }
    split; [done|]. by rewrite main_checks_cases, Hraise.
Qed.

Lemma setid_lookups_witness :
  (∃ b, verify_costs [1] 4 {[1 := 4]} = Return b)
  ∧ verify_costs [2] 4 {[1 := 4]} = Raise KeyError.
Proof.
  assert (read_instance_try int_plain stray_element_text
          = Return ({[1 := 1]}, {[1 := [1; 2]]}, {[1 := 1]}, {[1 := 4]}, 1, 1, 1))
    as Hinst by (vm_compute; reflexivity).
  split.
  - refine (proj1 (proj1 (setid_lookups int_plain _ _ _ _ _ _ _ _ 4 [1] Hinst) _)).
    intros i H. in_list H. lia.
  - refine (proj1 (proj2 (setid_lookups int_plain _ _ _ _ _ _ _ _ 4 [2] Hinst) _)).
    exists 2. split; [left | lia].
Defined.

(** That file is read without complaint; the solution [1] names a SetId
    in [1, num_S], and yet the covering check stops at the lookup [Re[2]]
    and [main] ends with the uncaught [KeyError]. *)
Lemma setid_in_range_lookup_fails :
  read_instance_try int_plain stray_element_text
  = Return ({[1 := 1]}, {[1 := [1; 2]]}, {[1 := 1]}, {[1 := 4]}, 1, 1, 1)
  ∧ (∀ i, i ∈ [1] → 1 ≤ i ≤ 1)
  ∧ verify_covering_requirement {[1 := 1]} [1] {[1 := [1; 2]]} 1 = Raise KeyError
  ∧ main_checks {[1 := [1; 2]]} {[1 := 1]} {[1 := 4]} 1 4 [1] = mkIO [] (Raise KeyError).
Proof.
  split; [vm_compute; reflexivity|]. split.
  - intros i H. in_list H. lia.
  - split; vm_compute; reflexivity.
Qed.

(** ** Reading the solution *)

Lemma int_of_Some (int : string → option Z) (tok : string) (z : Z) :
  int tok = Some z → int_of int tok = Return z.
Proof. unfold int_of. by intros ->. Qed.

Lemma int_of_None (int : string → option Z) (tok : string) :
  int tok = None → int_of int tok = Raise ValueError.
Proof. unfold int_of. by intros ->. Qed.

Lemma list_comp_ints (int : string → option Z) (toks : list string) (zs : list Z) :
  Forall2 (λ tok z, int tok = Some z) toks zs →
  list_comp (int_of int) toks = Return zs.
Proof.
  induction 1 as [|tok z toks zs Htok _ IH]; simpl; [done|].
  rewrite (int_of_Some _ _ _ Htok). simpl. by rewrite IH.
Qed.

(** What [read_solution] does with a text of at least two tokens, all of
    them integers. *)
Lemma read_solution_value (int : string → option Z) (fs : string → open_result)
    (filename text tok_k tok_cost : string) (toks : list string)
    (k Cost : Z) (Sets : list Z) :
  fs filename = FileText text →
  split_on " " text = tok_k :: tok_cost :: toks →
  int tok_k = Some k →
  int tok_cost = Some Cost →
  Forall2 (λ tok z, int tok = Some z) toks Sets →
  read_solution int fs filename =
  if decide (k = Z.of_nat (length toks))
  then mkIO [] (Return (k, Cost, Sets))
  else mkIO ["wrong format"] (Raise SystemExit).
Proof.
  intros Hfs Hsplit Hk Hcost Hids. unfold read_solution. rewrite Hfs, Hsplit.
  change (index (tok_k :: tok_cost :: toks) 0) with (Return tok_k).
  change (index (tok_k :: tok_cost :: toks) 1) with (Return tok_cost).
  change (drop 2 (tok_k :: tok_cost :: toks)) with toks.
  rewrite bind_lift_Return, (int_of_Some _ _ _ Hk), bind_lift_Return.
  rewrite bind_lift_Return, (int_of_Some _ _ _ Hcost), bind_lift_Return.
  rewrite (list_comp_ints int toks Sets Hids), bind_lift_Return.
  rewrite <- (Forall2_length _ _ _ Hids).
  case_decide; case_bool_decide; done.
Qed.

(** For a solution text that splits at single spaces into a count token,
    a cost token and trailing tokens, all of them integers,
    [read_solution] prints "wrong format" and exits exactly when the count
    differs from the number of trailing tokens; when they agree it returns
    the count, the declared cost and the list of ids. *)
Theorem read_solution_format (int : string → option Z) (fs : string → open_result)
    (filename text tok_k tok_cost : string) (toks : list string)
    (k Cost : Z) (Sets : list Z) :
  fs filename = FileText text →
  split_on " " text = tok_k :: tok_cost :: toks →
  int tok_k = Some k →
  int tok_cost = Some Cost →
  Forall2 (λ tok z, int tok = Some z) toks Sets →
  (read_solution int fs filename = mkIO ["wrong format"] (Raise SystemExit)
     ↔ k ≠ Z.of_nat (length toks))
  ∧ (k = Z.of_nat (length toks) →
     read_solution int fs filename = mkIO [] (Return (k, Cost, Sets)))
  ∧ length Sets = length toks.
Proof.
  intros Hfs Hsplit Hk Hcost Hids.
  rewrite (read_solution_value int fs filename text tok_k tok_cost toks k Cost Sets)
    by done.
  split; [|split].
  - case_decide; split; intros; (done || discriminate).
  - intros. by case_decide.
  - symmetry. by eapply Forall2_length.
Qed.

Lemma read_solution_format_witness :
  read_solution int_plain scenario_fs "solution01.txt" = mkIO [] (Return (1, 3, [2])).
Proof.
  refine (proj1 (proj2 (read_solution_format int_plain scenario_fs
            "solution01.txt" "1 3 2" "1" "3" ["2"] 1 3 [2] eq_refl eq_refl
            eq_refl eq_refl _)) eq_refl).
  repeat constructor.
Defined.

(** C8 fails on the code.  The text "5" has one token, an integer: the
    count 5 differs from the number of trailing ids, 0, so the file is to
    be reported as "wrong format", the report that [read_solution] makes
    when [k != len(Sets)] and that [read_instance] makes for every error
    of its parsing; but [read_solution] reads [instance[1]] before it
    compares, nothing is printed and the call ends in an uncaught
    [IndexError]. *)
Lemma read_solution_count_only :
  split_on " " "5" = ["5"]
  ∧ Forall (λ tok, is_Some (int_plain tok)) (split_on " " "5")
  ∧ int_plain "5" = Some 5
  ∧ length (drop 2 (split_on " " "5")) = 0%nat
  ∧ read_solution int_plain count_only_fs "solution01.txt" = mkIO [] (Raise IndexError)
  ∧ ¬ (read_solution int_plain count_only_fs "solution01.txt"
       = mkIO ["wrong format"] (Raise SystemExit)
       ↔ 5 ≠ Z.of_nat (length (drop 2 (split_on " " "5")))).
Proof.
  split; [reflexivity|]. split; [repeat constructor; by eexists|].
  split; [reflexivity|]. split; [reflexivity|]. split; [reflexivity|].
  intros [_ H]. discriminate H. simpl. lia.
Qed.

(** ** The model built by [create_Instance] *)

Section Eval.

Variable ρ : LpVariable → Z.

Lemma eval_addterm v a ts k :
  foldr (λ va acc, va.2 * ρ va.1 + acc) k (addterm v a ts)
  = a * ρ v + foldr (λ va acc, va.2 * ρ va.1 + acc) k ts.
Proof.
  induction ts as [|[w b] ts IH]; simpl; [done|].
  case_decide; simpl; [subst; lia | rewrite IH; lia].
Qed.

Lemma eval_expr_add_var e v : eval ρ (expr_add_var e v) = eval ρ e + ρ v.
Proof. unfold eval, expr_add_var. simpl. rewrite eval_addterm. lia. Qed.

Lemma eval_terms_shift ts k1 k2 :
  foldr (λ va acc, va.2 * ρ va.1 + acc) (k1 + k2) ts
  = foldr (λ va acc, va.2 * ρ va.1 + acc) k1 ts + k2.
Proof. induction ts as [|[w b] ts IH]; simpl; [done | rewrite IH; lia]. Qed.

Lemma eval_addterms (g : Z → Z) (sgn : Z) ts1 ts2 k :
  (∀ b, g b = sgn * b) →
  foldr (λ va acc, va.2 * ρ va.1 + acc) k
    (foldl (λ ts va, addterm va.1 (g va.2) ts) ts1 ts2)
  = foldr (λ va acc, va.2 * ρ va.1 + acc) k ts1
    + sgn * foldr (λ va acc, va.2 * ρ va.1 + acc) 0 ts2.
Proof.
  intros Hg. revert ts1.
  induction ts2 as [|[w b] ts2 IH]; intros ts1; simpl; [lia|].
  rewrite IH, eval_addterm, Hg. lia.
Qed.

Lemma eval_expr_add e1 e2 : eval ρ (expr_add e1 e2) = eval ρ e1 + eval ρ e2.
Proof.
  unfold eval, expr_add. simpl.
  pose proof (eval_addterms (λ b, b) 1 (terms e1) (terms e2)
                (constant e1 + constant e2) ltac:(intros; simpl; lia)) as H.
  simpl in H. rewrite H, eval_terms_shift.
  rewrite <- (Z.add_0_l (constant e2)) at 2. rewrite eval_terms_shift. lia.
Qed.

Lemma eval_expr_sub e1 e2 : eval ρ (expr_sub e1 e2) = eval ρ e1 - eval ρ e2.
Proof.
  unfold eval, expr_sub. simpl.
  pose proof (eval_addterms Z.opp (-1) (terms e1) (terms e2)
                (constant e1 - constant e2) ltac:(intros; simpl; lia)) as H.
  simpl in H. rewrite H.
  replace (constant e1 - constant e2) with (constant e1 + - constant e2) by lia.
  rewrite eval_terms_shift.
  rewrite <- (Z.add_0_l (constant e2)) at 2. rewrite eval_terms_shift. lia.
Qed.

Lemma eval_expr_neg e : eval ρ (expr_neg e) = - eval ρ e.
Proof.
  unfold eval, expr_neg. simpl. generalize (constant e) as k.
  induction (terms e) as [|[w b] ts IH]; intros k; simpl; [done|].
  rewrite IH. lia.
Qed.

Lemma eval_var_mul v z : eval ρ (var_mul v z) = z * ρ v.
Proof.
  unfold var_mul, expr_mul, eval. case_decide; simpl; [subst|]; ring.
Qed.

Lemma eval_sum_vars l : sum_eval ρ (sum_vars l) = Zsum (ρ <$> l).
Proof.
  destruct l as [|v l]; [done|].
  assert (∀ e, eval ρ (foldl expr_add_var e l) = eval ρ e + Zsum (ρ <$> l)) as H.
  { induction l as [|w l IH]; intros e; [simpl; lia|].
    rewrite fmap_cons. cbn [foldl Zsum]. rewrite IH, eval_expr_add_var. lia. }
  rewrite fmap_cons. cbn [sum_vars sum_eval Zsum]. rewrite H.
  unfold eval. simpl. lia.
Qed.

Lemma eval_sum_exprs l : sum_eval ρ (sum_exprs l) = Zsum (eval ρ <$> l).
Proof.
  destruct l as [|e l]; [done|]. rewrite fmap_cons. cbn [sum_exprs sum_eval Zsum].
  revert e. induction l as [|e' l IH]; intros e; [simpl; lia|].
  rewrite fmap_cons. cbn [foldl Zsum]. rewrite IH, eval_expr_add. lia.
Qed.

Lemma eval_sum_sub s e : eval ρ (sum_sub s e) = sum_eval ρ s - eval ρ e.
Proof.
  destruct s as [z|e1]; simpl; [|apply eval_expr_sub].
  pose proof (eval_expr_neg e) as H. unfold eval in *. simpl in *.
  rewrite eval_terms_shift, H. lia.
Qed.

Lemma holds_expr_ge e z : holds ρ (expr_ge e z) ↔ z ≤ eval ρ e.
Proof.
  unfold holds, expr_ge, eval. simpl.
  replace (constant e - z) with (constant e + - z) by lia.
  rewrite eval_terms_shift. lia.
Qed.

End Eval.

Lemma elem_of_keys {V : Type} (d : gmap Z V) (k : Z) : k ∈ keys d ↔ is_Some (d !! k).
Proof.
  unfold keys. rewrite list_elem_of_fmap. split.
  - intros ([k' v] & -> & Hin). apply elem_of_map_to_list in Hin. by eexists.
  - intros [v Hv]. exists (k, v). split; [done|]. by apply elem_of_map_to_list.
Qed.

Lemma NoDup_keys {V : Type} (d : gmap Z V) : NoDup (keys d).
Proof. apply NoDup_fst_map_to_list. Qed.

Lemma keys_Permutation {V : Type} (d : gmap Z V) (n : Z) :
  (∀ k, is_Some (d !! k) ↔ 1 ≤ k ≤ n) → keys d ≡ₚ keys_upto (Z.to_nat n).
Proof.
  intros Hd. apply NoDup_Permutation; [apply NoDup_keys | apply NoDup_keys_upto|].
  intros k. rewrite elem_of_keys, elem_of_keys_upto, Hd. lia.
Qed.

Lemma LpVariable_dict_lookup name indexs lb ub ct (j : Z) :
  LpVariable_dict name indexs lb ub ct !! j
  = if decide (j ∈ indexs) then Some (mkLpVariable name j lb ub ct) else None.
Proof.
  unfold LpVariable_dict.
  assert (∀ d : gmap Z LpVariable,
            foldl (λ d i, <[i := mkLpVariable name i lb ub ct]> d) d indexs !! j
            = if decide (j ∈ indexs) then Some (mkLpVariable name j lb ub ct)
              else d !! j) as H.
  { induction indexs as [|i l IH]; intros d; simpl.
    - destruct (decide (j ∈ [])) as [Hin|_]; [by apply elem_of_nil in Hin | done].
    - rewrite IH.
      destruct (decide (j ∈ l)) as [Hin|Hnin], (decide (j ∈ i :: l)) as [Hin'|Hnin'];
        try done.
      + exfalso. apply Hnin'. by right.
      + apply elem_of_cons in Hin' as [->|?]; [|done]. by rewrite lookup_insert_eq.
      + rewrite lookup_insert_ne; [done|]. intros ->. apply Hnin'. left. }
  rewrite H. by case_decide.
Qed.

Lemma getitem_LpVariable_dict name indexs lb ub ct (j : Z) :
  j ∈ indexs →
  getitem (LpVariable_dict name indexs lb ub ct) j
  = Return (mkLpVariable name j lb ub ct).
Proof.
  intros Hj. apply getitem_Some. by rewrite LpVariable_dict_lookup, decide_True.
Qed.

Lemma list_comp_Return {A B : Type} (f : A → result B) (g : A → B) (l : list A) :
  (∀ a, a ∈ l → f a = Return (g a)) → list_comp f l = Return (g <$> l).
Proof.
  induction l as [|a l IH]; intros Hf; simpl; [done|].
  rewrite Hf by left. simpl. rewrite IH; [done|]. intros b Hb. apply Hf. by right.
Qed.

Lemma list_comp_if_Return {A B : Type} (f : A → result B) (g : A → B)
    (cond : A → result bool) (P : A → Prop) `{!∀ a, Decision (P a)} (l : list A) :
  (∀ a, a ∈ l → cond a = Return (bool_decide (P a))) →
  (∀ a, a ∈ l → f a = Return (g a)) →
  list_comp_if f cond l = Return (g <$> filter P l).
Proof.
  induction l as [|a l IH]; intros Hc Hf; simpl; [done|].
  rewrite Hc by left. simpl. rewrite filter_cons.
  rewrite IH by (intros b Hb; (apply Hc || apply Hf); by right).
  case_bool_decide.
  - rewrite decide_True by done. rewrite Hf by left. done.
  - by rewrite decide_False.
Qed.

Lemma for_each_constraints {A : Type} (body : LpProblem → A → result LpProblem)
    (con : A → LpConstraint) (l : list A) (PSMC : LpProblem) :
  (∀ i PSMC', i ∈ l → body PSMC' i = Return (iadd_constraint PSMC' (con i))) →
  for_each body l PSMC
  = Return (mkLpProblem (prob_name PSMC) (prob_sense PSMC) (objective PSMC)
              (constraints PSMC ++ (con <$> l))).
Proof.
  revert PSMC. induction l as [|i l IH]; intros PSMC Hb; simpl.
  - rewrite app_nil_r. by destruct PSMC.
  - rewrite Hb by left. simpl. rewrite IH by (intros; apply Hb; by right).
    simpl. by rewrite <- app_assoc.
Qed.

Lemma create_Instance_value iadd_False (E : gmap Z Z) (S : gmap Z (list Z))
    (r c : gmap Z Z) (num_E num_S P : Z) (ey : LpAffineExpression) :
  (∀ j, is_Some (S !! j) → is_Some (c !! j)) →
  (∀ e, is_Some (E !! e) → is_Some (r !! e)) →
  sum_vars (y_var <$> keys E) = SumExpr ey →
  create_Instance iadd_False E S r c num_E num_S P
  = Return (mkLpProblem "Partial Set Multi Cover" LpMinimize
              (Some match sum_exprs (objective_terms S c) with
                    | SumInt z => expr_of_int z
                    | SumExpr e => e
                    end)
              (expr_ge ey P :: (element_constraint S r <$> keys E)),
            LpVariable_dict "x_%d" (keys S) (Some 0) (Some 1) LpInteger,
            LpVariable_dict "y_%d" (keys E) (Some 0) (Some 1) LpInteger).
Proof.
  intros Hc Hr Hey. unfold create_Instance.
  rewrite (list_comp_Return _ (λ j, var_mul (x_var j) (default 0 (c !! j)))).
  2:{ intros j Hj. destruct (Hc j) as [cj Hcj]; [by apply elem_of_keys|].
      rewrite (getitem_Some _ _ _ Hcj), Hcj. simpl.
      by rewrite getitem_LpVariable_dict. }
  simpl. rewrite (list_comp_Return _ y_var).
  2:{ intros e He. by rewrite getitem_LpVariable_dict. }
  simpl. rewrite Hey. simpl.
  rewrite (for_each_constraints _ (element_constraint S r)); [done|].
  intros e PSMC' He.
  rewrite (list_comp_if_Return _ x_var _ (λ j, e ∈ default [] (S !! j))).
  - simpl. rewrite getitem_LpVariable_dict by done. simpl.
    destruct (Hr e) as [re Hre]; [by apply elem_of_keys|].
    rewrite (getitem_Some _ _ _ Hre). simpl. unfold element_constraint.
    by rewrite Hre.
  - intros j Hj. apply elem_of_keys in Hj as [Sj HSj].
    rewrite (getitem_Some _ _ _ HSj), HSj. done.
  - intros j Hj. by rewrite getitem_LpVariable_dict.
Qed.

Lemma eval_objective ρ (s : sum_value) :
  eval ρ match s with SumInt z => expr_of_int z | SumExpr e => e end = sum_eval ρ s.
Proof. by destruct s. Qed.

Lemma Zsum_fmap_ext {A : Type} (f g : A → Z) (l : list A) :
  (∀ a, f a = g a) → Zsum (f <$> l) = Zsum (g <$> l).
Proof.
  intros Hfg. induction l as [|a l IH]; [done|].
  rewrite !fmap_cons. cbn [Zsum]. by rewrite Hfg, IH.
Qed.

(** C5.  For an instance that [read_instance] returned and that has at
    least one element, as every instance of the specification has
    ([numElements] is a positive integer), [create_Instance] returns a
    minimisation problem with the integer variables [x[j]] in [0, 1] for
    the sets j = 1..num_S and [y[e]] in [0, 1] for the elements
    e = 1..num_E, whose objective is Σ c[j]·x[j] over the sets and whose
    constraints are, first, Σ y[e] ≥ P and then, for each element e, the
    constraint Σ x[j] − r[e]·y[e] ≥ 0, the sum ranging over the sets j
    whose membership lists e. *)
Theorem create_Instance_model (iadd_False : LpProblem → result LpProblem)
    (int : string → option Z) (text : string)
    (E : gmap Z Z) (S_ : gmap Z (list Z)) (r c : gmap Z Z) (num_E num_S P : Z) :
  read_instance_try int text = Return (E, S_, r, c, num_E, num_S, P) →
  1 ≤ num_E →
  ∃ PSMC x y,
    create_Instance iadd_False E S_ r c num_E num_S P = Return (PSMC, x, y)
    ∧ (∀ j, x !! j = if decide (1 ≤ j ≤ num_S) then Some (x_var j) else None)
    ∧ (∀ e, y !! e = if decide (1 ≤ e ≤ num_E) then Some (y_var e) else None)
    ∧ keys S_ ≡ₚ keys_upto (Z.to_nat num_S)
    ∧ keys E ≡ₚ keys_upto (Z.to_nat num_E)
    ∧ prob_sense PSMC = LpMinimize
    ∧ (∃ obj, objective PSMC = Some obj
         ∧ ∀ ρ, eval ρ obj = Zsum ((λ j, default 0 (c !! j) * ρ (x_var j)) <$> keys S_))
    ∧ (∃ con_P cons_E, constraints PSMC = con_P :: cons_E
         ∧ (∀ ρ, holds ρ con_P ↔ P ≤ Zsum ((λ e, ρ (y_var e)) <$> keys E))
         ∧ Forall2 (λ e con, ∀ ρ, holds ρ con ↔
               0 ≤ Zsum ((λ j, ρ (x_var j))
                           <$> filter (λ j, e ∈ default [] (S_ !! j)) (keys S_))
                   - default 0 (r !! e) * ρ (y_var e))
             (keys E) cons_E).
Proof.
  intros Hinst HnE.
  destruct (read_instance_keys int _ _ _ _ _ _ _ _ Hinst) as (HE & HS & Hr & Hc).
  assert (∃ ey, sum_vars (y_var <$> keys E) = SumExpr ey) as [ey Hey].
  { assert (1 ∈ keys E) as H1 by (apply elem_of_keys, HE; lia).
    destruct (keys E) as [|e0 l]; [by apply elem_of_nil in H1|].
    rewrite fmap_cons. by eexists. }
  eexists _, _, _. split.
  { apply (create_Instance_value iadd_False E S_ r c num_E num_S P ey); [| |done].
    - intros j Hj. by apply Hc, HS.
    - intros e He. by apply Hr, HE. }
  split; [|split].
  { intros j. rewrite LpVariable_dict_lookup.
    destruct (decide (j ∈ keys S_)) as [Hj|Hj], (decide (1 ≤ j ≤ num_S)) as [Hj'|Hj'];
      try done; exfalso; rewrite elem_of_keys, HS in Hj; tauto. }
  { intros e. rewrite LpVariable_dict_lookup.
    destruct (decide (e ∈ keys E)) as [He|He], (decide (1 ≤ e ≤ num_E)) as [He'|He'];
      try done; exfalso; rewrite elem_of_keys, HE in He; tauto. }
  split; [by apply keys_Permutation|]. split; [by apply keys_Permutation|].
  split; [done|]. split.
  - eexists. split; [done|]. intros ρ.
    rewrite eval_objective, eval_sum_exprs. unfold objective_terms.
    rewrite <- list_fmap_compose. apply Zsum_fmap_ext.
    intros j. simpl. apply eval_var_mul.
  - eexists _, _. split; [done|]. split.
    + intros ρ. rewrite holds_expr_ge.
      change (eval ρ ey) with (sum_eval ρ (SumExpr ey)).
      by rewrite <- Hey, eval_sum_vars, <- list_fmap_compose.
    + apply Forall2_fmap_r, Forall_Forall2_diag, Forall_forall.
      intros e _ ρ. unfold element_constraint.
      rewrite holds_expr_ge, eval_sum_sub, eval_sum_vars, eval_var_mul.
      by rewrite <- list_fmap_compose.
Qed.

Lemma scenario_instance :
  read_instance_try int_plain scenario_text
  = Return ({[1 := 1; 2 := 2; 3 := 3]}, {[1 := [1; 2]; 2 := [2; 3]]},
            {[1 := 1; 2 := 1; 3 := 1]}, {[1 := 5; 2 := 3]}, 3, 2, 2).
Proof. vm_compute. reflexivity. Qed.

Lemma create_Instance_model_witness :
  ∃ PSMC x y,
    create_Instance (λ _, Raise TypeError) {[1 := 1; 2 := 2; 3 := 3]}
      {[1 := [1; 2]; 2 := [2; 3]]} {[1 := 1; 2 := 1; 3 := 1]} {[1 := 5; 2 := 3]} 3 2 2
    = Return (PSMC, x, y)
    ∧ prob_sense PSMC = LpMinimize
    ∧ x !! 2 = Some (x_var 2).
Proof.
  destruct (create_Instance_model (λ _, Raise TypeError) int_plain scenario_text
              _ _ _ _ 3 2 2 scenario_instance ltac:(lia))
    as (PSMC & x & y & Hret & Hx & _ & _ & _ & Hsense & _).
  exists PSMC, x, y. split; [exact Hret|]. split; [exact Hsense|]. exact (Hx 2).
Defined.

(** A file without elements and with threshold 0 is no instance of the
    specification, but it is read without complaint, and the model built
    from it has the objective 5·x[1] and no constraint in its list:
    [sum([])] is the integer 0, [0 >= 0] is [True], and [PSMC += True]
    adds nothing ([PSMC += False] is not reached).  The constraint
    Σ y[e] ≥ 0 over no element, which is missing from the list, holds
    under every assignment. *)
Lemma create_Instance_no_element :
  read_instance_try int_plain no_element_text
  = Return (∅, {[1 := []]}, ∅, {[1 := 5]}, 0, 1, 0)
  ∧ create_Instance (λ _, Raise TypeError) ∅ {[1 := []]} ∅ {[1 := 5]} 0 1 0
    = Return (mkLpProblem "Partial Set Multi Cover" LpMinimize
                (Some (mkExpr [(x_var 1, 5)] 0)) [],
              {[1 := x_var 1]}, ∅)
  ∧ ¬ (∃ PSMC x y con_P cons_E,
         create_Instance (λ _, Raise TypeError) ∅ {[1 := []]} ∅ {[1 := 5]} 0 1 0
         = Return (PSMC, x, y)
         ∧ constraints PSMC = con_P :: cons_E).
Proof.
  split; [vm_compute; reflexivity|].
  assert (create_Instance (λ _, Raise TypeError) ∅ {[1 := []]} ∅ {[1 := 5]} 0 1 0
          = Return (mkLpProblem "Partial Set Multi Cover" LpMinimize
                      (Some (mkExpr [(x_var 1, 5)] 0)) [],
                    {[1 := x_var 1]}, ∅)) as Hret by (vm_compute; reflexivity).
  split; [exact Hret|].
  intros (PSMC & x & y & con_P & cons_E & Hret' & Hcons).
  rewrite Hret in Hret'. injection Hret' as <- _ _. discriminate Hcons.
Qed.

(** * Further properties of the certifier *)

(** ** When the checks raise *)

(** The cost check raises [KeyError] exactly when some selected SetId is
    no key of the cost mapping, whatever cost is declared; it raises
    nothing else. *)
Theorem verify_costs_missing_key (Sol_Set : list Z) (Sol_Costs : Z)
    (C_dict : gmap Z Z) :
  (verify_costs Sol_Set Sol_Costs C_dict = Raise KeyError
     ↔ ∃ i, i ∈ Sol_Set ∧ C_dict !! i = None)
  ∧ (∀ e, verify_costs Sol_Set Sol_Costs C_dict = Raise e → e = KeyError).
Proof.
  destruct (valid_or_missing C_dict Sol_Set) as [Hv|Hm].
  - rewrite verify_costs_value by done. split; [|done]. split; [done|].
    intros (i & Hi & Hn). destruct (Hv i Hi) as [? ?]. congruence.
  - assert (verify_costs Sol_Set Sol_Costs C_dict = Raise KeyError) as ->
      by (unfold verify_costs; by rewrite cost_loop_invalid).
    split; [done|]. by intros e [= <-].
Qed.

(** The covering check raises [KeyError] exactly when a selected SetId is
    no key of [S] or a selected set lists an element without requirement;
    it raises nothing else. *)
Theorem covering_check_missing_key (Re : gmap Z Z) (Sol_Set : list Z)
    (S : gmap Z (list Z)) (P_thresh : Z) :
  (verify_covering_requirement Re Sol_Set S P_thresh = Raise KeyError
     ↔ (∃ i, i ∈ Sol_Set ∧ S !! i = None)
       ∨ (∃ e, covered S Sol_Set e ∧ Re !! e = None))
  ∧ (∀ e, verify_covering_requirement Re Sol_Set S P_thresh = Raise e → e = KeyError).
Proof.
  destruct (valid_or_missing S Sol_Set) as [Hv|Hm].
  - destruct (coverage_Return S Sol_Set Hv) as (cov & Hc & _ & Hdom).
    destruct (covered_or_unlisted Re cov) as [Hreq|(e & He & Hn)].
    + destruct (covering_check_returns Re Sol_Set S P_thresh Hv) as [b ->].
      { intros e He. by apply Hreq, Hdom. }
      split; [|done]. split; [done|].
      intros [(i & Hi & Hn)|(e & He & Hn)].
      * destruct (Hv i Hi) as [? ?]. congruence.
      * apply Hdom, Hreq in He as [? ?]. congruence.
    + rewrite covering_check_raises; [|done|exists e; split; [by apply Hdom | done]].
      split; [|by intros e' [= <-]]. split; [|done].
      intros _. right. exists e. split; [by apply Hdom | done].
  - assert (verify_covering_requirement Re Sol_Set S P_thresh = Raise KeyError) as ->.
    { unfold verify_covering_requirement, coverage. by rewrite coverage_loop_invalid. }
    split; [|by intros e [= <-]]. split; [by left | done].
Qed.

(** ** The order of the solution list *)

Lemma cost_sum_Permutation C_dict (l l' : list Z) :
  l ≡ₚ l' → cost_sum C_dict l = cost_sum C_dict l'.
Proof. induction 1; simpl; lia. Qed.

Lemma multiplicity_Permutation S (l l' : list Z) e :
  l ≡ₚ l' → multiplicity S l e = multiplicity S l' e.
Proof. induction 1; simpl; lia. Qed.

Lemma covered_Permutation S (l l' : list Z) e :
  l ≡ₚ l' → covered S l e → covered S l' e.
Proof.
  intros Hp (i & B & Hi & HB & He). exists i, B. split; [|done]. by rewrite <- Hp.
Qed.

Lemma missing_Permutation {V : Type} (d : gmap Z V) (l l' : list Z) :
  l ≡ₚ l' → (∃ i, i ∈ l ∧ d !! i = None) → ∃ i, i ∈ l' ∧ d !! i = None.
Proof. intros Hp (i & Hi & Hn). exists i. split; [by rewrite <- Hp | done]. Qed.

Lemma verify_costs_Permutation (l l' : list Z) Sol_Costs C_dict :
  l ≡ₚ l' → verify_costs l Sol_Costs C_dict = verify_costs l' Sol_Costs C_dict.
Proof.
  intros Hp. destruct (valid_or_missing C_dict l) as [Hv|Hm].
  - rewrite !verify_costs_value; [by rewrite (cost_sum_Permutation _ _ _ Hp)| |done].
    intros i Hi. apply Hv. by rewrite Hp.
  - unfold verify_costs. rewrite !cost_loop_invalid; [done | | done].
    by apply (missing_Permutation _ l).
Qed.

Lemma coverage_Permutation (l l' : list Z) S :
  l ≡ₚ l' → coverage l S = coverage l' S.
Proof.
  intros Hp. destruct (valid_or_missing S l) as [Hv|Hm].
  - destruct (coverage_Return S l Hv) as (cov & -> & Hget & Hdom).
    destruct (coverage_Return S l') as (cov' & -> & Hget' & Hdom').
    { intros i Hi. apply Hv. by rewrite Hp. }
    f_equal. apply map_eq. intros e.
    specialize (Hget e). specialize (Hget' e).
    rewrite <- (multiplicity_Permutation S l l' e Hp), <- Hget in Hget'.
    unfold Counter_get in Hget'.
    destruct (cov !! e) as [n|] eqn:Hn, (cov' !! e) as [n'|] eqn:Hn'; simpl in *;
      [congruence | | | done].
    + assert (is_Some (cov' !! e)) as [? ?]; [|congruence].
      apply Hdom', (covered_Permutation S l), Hdom; [done | by eexists].
    + assert (is_Some (cov !! e)) as [? ?]; [|congruence].
      apply Hdom, (covered_Permutation S l'), Hdom'; [done | by eexists].
  - unfold coverage. rewrite !coverage_loop_invalid; [done | | done].
    by apply (missing_Permutation _ l).
Qed.

Lemma covering_check_Permutation Re (l l' : list Z) S P_thresh :
  l ≡ₚ l' →
  verify_covering_requirement Re l S P_thresh
  = verify_covering_requirement Re l' S P_thresh.
Proof.
  intros Hp. unfold verify_covering_requirement.
  by rewrite (coverage_Permutation l l' S Hp).
Qed.

Lemma list_remove_Permutation (i : Z) (l l' : list Z) :
  l ≡ₚ l' → i ∈ l →
  ∃ changed changed', list_remove i l = Return changed
    ∧ list_remove i l' = Return changed' ∧ changed ≡ₚ changed'.
Proof.
  intros Hp Hi.
  destruct (list_remove_elem i l Hi) as (l1 & l2 & -> & Hrm).
  destruct (list_remove_elem i l') as (l1' & l2' & -> & Hrm'); [by rewrite <- Hp|].
  exists (l1 ++ l2), (l1' ++ l2'). split; [done|]. split; [done|].
  apply (Permutation_cons_inv (a := i)).
  by rewrite !Permutation_middle.
Qed.

Lemma verify_minimal_Permutation Re (l l' : list Z) S P_thresh :
  (∀ i, i ∈ l → is_Some (S !! i)) →
  (∀ e, covered S l e → is_Some (Re !! e)) →
  l ≡ₚ l' →
  verify_minimal Re l S P_thresh = verify_minimal Re l' S P_thresh.
Proof.
  intros Hv Hreq Hp.
  assert (∀ i, i ∈ l' → is_Some (S !! i)) as Hv'
    by (intros i Hi; apply Hv; by rewrite Hp).
  assert (∀ e, covered S l' e → is_Some (Re !! e)) as Hreq'
    by (intros e He; by apply Hreq, (covered_Permutation S l')).
  assert (∀ k : list Z, (∀ i, i ∈ k → is_Some (S !! i)) →
            (∀ e, covered S k e → is_Some (Re !! e)) →
            ∀ i, i ∈ k → ∃ changed b, list_remove i k = Return changed
              ∧ verify_covering_requirement Re changed S P_thresh = Return b) as Hret.
  { intros k Hk Hkr i Hi. destruct (list_remove_elem i k Hi) as (l1 & l2 & -> & Hrm).
    destruct (covering_check_returns Re (l1 ++ l2) S P_thresh) as [b Hb].
    - intros j Hj. apply Hk. rewrite elem_of_app, elem_of_cons.
      apply elem_of_app in Hj as [?|?]; auto.
    - intros e He. by apply Hkr, covered_remove.
    - by exists (l1 ++ l2), b. }
  destruct (minimal_loop_spec Re l S P_thresh l (Hret l Hv Hreq)) as [Hf _].
  destruct (minimal_loop_spec Re l' S P_thresh l' (Hret l' Hv' Hreq')) as [Hf' _].
  destruct (verify_minimal_returns Re l S P_thresh Hv Hreq) as [b Hb].
  destruct (verify_minimal_returns Re l' S P_thresh Hv' Hreq') as [b' Hb'].
  unfold verify_minimal in *. rewrite Hb, Hb' in *. f_equal.
  assert (b = false ↔ b' = false) as Hiff; [|destruct b, b'; intuition congruence].
  split; intros ->.
  - destruct (proj1 Hf eq_refl) as (j & ch & Hj & Hrm & Hch).
    destruct (list_remove_Permutation j l l' Hp Hj) as (c1 & c2 & H1 & H2 & Hpc).
    assert (Return b' = Return false) as [= ->]; [|done].
    apply Hf'. exists j, c2. split; [by rewrite <- Hp|]. split; [done|].
    rewrite <- (covering_check_Permutation Re c1 c2 S P_thresh Hpc). congruence.
  - destruct (proj1 Hf' eq_refl) as (j & ch & Hj & Hrm & Hch).
    symmetry in Hp.
    destruct (list_remove_Permutation j l' l Hp Hj) as (c1 & c2 & H1 & H2 & Hpc).
    assert (Return b = Return false) as [= ->]; [|done].
    apply Hf. exists j, c2. split; [by rewrite <- Hp|]. split; [done|].
    rewrite <- (covering_check_Permutation Re c1 c2 S P_thresh Hpc). congruence.
Qed.

Lemma main_checks_Permutation (S : gmap Z (list Z)) (r c : gmap Z Z)
    (P Costs : Z) (Sets Sets' : list Z) :
  Sets ≡ₚ Sets' →
  main_checks S r c P Costs Sets = main_checks S r c P Costs Sets'.
Proof.
  intros Hp. rewrite !main_checks_cases.
  rewrite <- (verify_costs_Permutation Sets Sets' Costs c Hp).
  rewrite <- (covering_check_Permutation r Sets Sets' S P Hp).
  destruct (verify_costs Sets Costs c) as [[|]|]; [|done..].
  destruct (verify_covering_requirement r Sets S P) as [[|]|] eqn:Hcov; [|done..].
  apply covering_check_Return_inv in Hcov as [Hv Hreq].
  by rewrite (verify_minimal_Permutation r Sets Sets' S P Hv Hreq Hp).
Qed.

(** What the cost check and the covering check return and the verdict
    that [main] prints do not depend on the order in which the solution
    lists its sets: a check returns a boolean on one list exactly when it
    returns this boolean on every reordering, and [main] prints a verdict
    on one exactly when it prints this verdict on the other.  Where a
    lookup fails, which key the [KeyError] names follows the order of the
    list; of a run that raises, the statement says only that no reordering
    makes it return. *)
Theorem verdict_order_independent (S : gmap Z (list Z)) (r c : gmap Z Z)
    (P Costs : Z) (Sets Sets' : list Z) :
  Sets ≡ₚ Sets' →
  (∀ b, verify_costs Sets Costs c = Return b ↔ verify_costs Sets' Costs c = Return b)
  ∧ (∀ b, verify_covering_requirement r Sets S P = Return b
          ↔ verify_covering_requirement r Sets' S P = Return b)
  ∧ (∀ v, main_checks S r c P Costs Sets = report v
          ↔ main_checks S r c P Costs Sets' = report v).
Proof.
  intros Hp.
  rewrite (verify_costs_Permutation Sets Sets' Costs c Hp).
  rewrite (covering_check_Permutation r Sets Sets' S P Hp).
  by rewrite (main_checks_Permutation S r c P Costs Sets Sets' Hp).
Qed.

Lemma verdict_order_independent_witness :
  main_checks {[1 := [1; 2]; 2 := [2; 3]]} {[1 := 1; 2 := 1; 3 := 1]}
              {[1 := 5; 2 := 3]} 2 8 [2; 1] = report NotMinimal.
Proof.
  refine (proj1 (proj2 (proj2 (verdict_order_independent {[1 := [1; 2]; 2 := [2; 3]]}
            {[1 := 1; 2 := 1; 3 := 1]} {[1 := 5; 2 := 3]} 2 8 [1; 2] [2; 1] _))
            NotMinimal) _).
  - apply perm_swap.
  - vm_compute. reflexivity.
Defined.

(** Run on its own, the minimality check depends on the order only through
    the errors it meets: when the SetIds are keys of [S] and every listed
    element has a requirement, it gives the same answer on every
    reordering of the solution list. *)
Theorem minimal_check_order_independent (Re : gmap Z Z) (l l' : list Z)
    (S : gmap Z (list Z)) (P_thresh : Z) :
  (∀ i, i ∈ l → is_Some (S !! i)) →
  (∀ e, covered S l e → is_Some (Re !! e)) →
  l ≡ₚ l' →
  verify_minimal Re l S P_thresh = verify_minimal Re l' S P_thresh
  ∧ ∃ b, verify_minimal Re l S P_thresh = Return b.
Proof.
  intros Hv Hreq Hp. split; [by apply verify_minimal_Permutation|].
  by apply verify_minimal_returns.
Qed.

Lemma minimal_check_order_independent_witness :
  verify_minimal {[1 := 1; 2 := 1; 3 := 1]} [1; 2] {[1 := [1; 2]; 2 := [2; 3]]} 2
  = verify_minimal {[1 := 1; 2 := 1; 3 := 1]} [2; 1] {[1 := [1; 2]; 2 := [2; 3]]} 2.
Proof.
  refine (proj1 (minimal_check_order_independent {[1 := 1; 2 := 1; 3 := 1]}
            [1; 2] [2; 1] {[1 := [1; 2]; 2 := [2; 3]]} 2 _ _ _)).
  - intros i H. in_list H; by eexists.
  - intros e (i & B & Hi & HB & He).
    in_list Hi; vm_compute in HB; injection HB as <-; in_list He; by eexists.
  - apply perm_swap.
Defined.

(** ** Feasibility grows with the solution *)

Lemma count_satisfied_Return_inv Re (cov : gmap Z Z) q :
  count_satisfied Re cov = Return q →
  (∀ e, is_Some (cov !! e) → is_Some (Re !! e))
  ∧ q = Z.of_nat (length (filter (sat_entry Re) (map_to_list cov))).
Proof.
  intros Hq. unfold count_satisfied in Hq.
  destruct (covered_or_unlisted Re cov) as [Hreq|(e & [n Hn] & Hnone)].
  - split; [done|]. rewrite count_loop in Hq.
    + injection Hq as <-. lia.
    + intros [i n] Hin. apply elem_of_map_to_list in Hin. simpl. apply Hreq. by eexists.
  - rewrite count_loop_invalid in Hq; [done|].
    exists (e, n). split; [by apply elem_of_map_to_list | done].
Qed.

Lemma count_satisfied_mono Re (cov cov' : gmap Z Z) q q' :
  count_satisfied Re cov = Return q →
  count_satisfied Re cov' = Return q' →
  (∀ e n, cov !! e = Some n → ∃ n', cov' !! e = Some n' ∧ n ≤ n') →
  q ≤ q'.
Proof.
  intros Hq Hq' Hle.
  apply count_satisfied_Return_inv in Hq as [_ ->].
  apply count_satisfied_Return_inv in Hq' as [_ ->].
  apply inj_le.
  rewrite <- (length_fmap fst (filter _ (map_to_list cov))),
          <- (length_fmap fst (filter _ (map_to_list cov'))).
  apply submseteq_length, NoDup_submseteq.
  - apply (sublist_NoDup _ (map_to_list cov).*1).
    + apply NoDup_fst_map_to_list.
    + apply fmap_sublist, sublist_filter.
  - intros e He. apply list_elem_of_fmap in He as ([e' n] & -> & Hin).
    apply list_elem_of_filter in Hin as [Hsat Hin].
    apply elem_of_map_to_list in Hin. destruct (Hle _ _ Hin) as (n' & Hn' & Hnn').
    apply list_elem_of_fmap. exists (e', n'). split; [done|].
    apply list_elem_of_filter. split; [|by apply elem_of_map_to_list].
    unfold sat_entry in *. simpl in *. destruct (Re !! e'); [lia | done].
Qed.

(** Inserting a set of the instance into a solution that passes the
    covering check gives a solution that passes it too, provided the
    elements the new set lists have requirements. *)
Theorem feasible_superset (Re : gmap Z Z) (S : gmap Z (list Z)) (P_thresh : Z)
    (l1 l2 : list Z) (j : Z) (B : list Z) :
  verify_covering_requirement Re (l1 ++ l2) S P_thresh = Return true →
  S !! j = Some B →
  (∀ e, e ∈ B → is_Some (Re !! e)) →
  verify_covering_requirement Re (l1 ++ j :: l2) S P_thresh = Return true.
Proof.
  intros Hfeas HB HBreq.
  destruct (covering_check_Return_inv _ _ _ _ _ Hfeas) as [Hv Hreq].
  assert (∀ i, i ∈ l1 ++ j :: l2 → is_Some (S !! i)) as Hv'.
  { intros i Hi. apply elem_of_app in Hi as [Hi|Hi].
    - apply Hv, elem_of_app. by left.
    - apply elem_of_cons in Hi as [->|Hi]; [by eexists|]. apply Hv, elem_of_app. by right. }
  assert (∀ e, covered S (l1 ++ j :: l2) e → is_Some (Re !! e)) as Hreq'.
  { intros e (i & B' & Hi & HB' & He).
    destruct (decide (i = j)) as [->|Hne].
    - apply HBreq. congruence.
    - apply Hreq. exists i, B'. split; [|done].
      rewrite elem_of_app, elem_of_cons in Hi. rewrite elem_of_app. intuition congruence. }
  destruct (covering_check_returns Re (l1 ++ j :: l2) S P_thresh Hv' Hreq') as [b Hb].
  destruct b; [done|]. exfalso.
  unfold verify_covering_requirement in Hfeas, Hb.
  destruct (coverage_Return S (l1 ++ l2) Hv) as (cov & Hc & Hget & Hdom).
  destruct (coverage_Return S (l1 ++ j :: l2) Hv') as (cov' & Hc' & Hget' & Hdom').
  rewrite Hc in Hfeas. rewrite Hc' in Hb. simpl in *.
  destruct (count_satisfied Re cov) as [q|] eqn:Hq; simpl in Hfeas; [|done].
  destruct (count_satisfied Re cov') as [q'|] eqn:Hq'; simpl in Hb; [|done].
  assert (q ≤ q') as Hle.
  { apply (count_satisfied_mono Re cov cov'); [done..|].
    intros e n Hn.
    assert (is_Some (cov' !! e)) as [n' Hn'].
    { apply Hdom', covered_remove, Hdom. by eexists. }
    exists n'. split; [done|].
    pose proof (Hget e) as H1. pose proof (Hget' e) as H2.
    unfold Counter_get in H1, H2. rewrite Hn in H1. rewrite Hn' in H2. simpl in *.
    rewrite H1, H2, !multiplicity_app. simpl.
    pose proof (occ_nonneg e (default [] (S !! j))). lia. }
  repeat case_decide; (done || lia).
Qed.

Lemma feasible_superset_witness :
  verify_covering_requirement {[1 := 1; 2 := 1; 3 := 1]} ([2] ++ 1 :: [])
    {[1 := [1; 2]; 2 := [2; 3]]} 2 = Return true.
Proof.
  apply (feasible_superset {[1 := 1; 2 := 1; 3 := 1]} {[1 := [1; 2]; 2 := [2; 3]]}
           2 [2] [] 1 [1; 2]).
  - vm_compute. reflexivity.
  - vm_compute. reflexivity.
  - intros e H. in_list H; by eexists.
Defined.

(** ** What a verdict tells *)

Lemma cost_sum_app C_dict (l1 l2 : list Z) :
  cost_sum C_dict (l1 ++ l2) = cost_sum C_dict l1 + cost_sum C_dict l2.
Proof. induction l1 as [|i l1 IH]; simpl; lia. Qed.

Lemma verify_costs_Return_inv Sol_Set Sol_Costs C_dict b :
  verify_costs Sol_Set Sol_Costs C_dict = Return b →
  (∀ i, i ∈ Sol_Set → is_Some (C_dict !! i))
  ∧ b = bool_decide (cost_sum C_dict Sol_Set = Sol_Costs).
Proof.
  intros Hb. destruct (valid_or_missing C_dict Sol_Set) as [Hv|Hm].
  - split; [done|]. rewrite verify_costs_value in Hb by done. congruence.
  - unfold verify_costs in Hb. by rewrite cost_loop_invalid in Hb.
Qed.

(** When [main] prints "not minimal", some set of the solution can be
    left out: the rest still passes the covering check and costs the
    declared cost less the cost of that set. *)
Theorem not_minimal_cheaper (S : gmap Z (list Z)) (r c : gmap Z Z)
    (P Costs : Z) (Sets : list Z) :
  main_checks S r c P Costs Sets = report NotMinimal →
  ∃ j cj changed,
    j ∈ Sets ∧ c !! j = Some cj
    ∧ list_remove j Sets = Return changed
    ∧ verify_covering_requirement r changed S P = Return true
    ∧ verify_costs changed (Costs - cj) c = Return true.
Proof.
  rewrite main_checks_cases. intros Hmain.
  destruct (verify_costs Sets Costs c) as [[|]|] eqn:Hcost;
    [|by apply report_inj in Hmain|done].
  destruct (verify_covering_requirement r Sets S P) as [[|]|] eqn:Hcov;
    [|by apply report_inj in Hmain|done].
  destruct (verify_minimal r Sets S P) as [[|]|] eqn:Hmin;
    [by apply report_inj in Hmain| |done].
  apply verify_costs_Return_inv in Hcost as [Hvc Hsum].
  symmetry in Hsum. apply bool_decide_eq_true in Hsum.
  apply covering_check_Return_inv in Hcov as [Hv Hreq].
  assert (∃ j changed, j ∈ Sets ∧ list_remove j Sets = Return changed
            ∧ verify_covering_requirement r changed S P = Return true)
    as (j & changed & Hj & Hrm & Hfeas).
  { apply (minimal_loop_spec r Sets S P Sets); [|done].
    intros i Hi. destruct (list_remove_elem i Sets Hi) as (l1 & l2 & -> & Hrm).
    destruct (covering_check_returns r (l1 ++ l2) S P) as [b Hb].
    - intros k Hk. apply Hv. rewrite elem_of_app, elem_of_cons.
      apply elem_of_app in Hk as [?|?]; auto.
    - intros e He. by apply Hreq, covered_remove.
    - by exists (l1 ++ l2), b. }
  destruct (Hvc j Hj) as [cj Hcj].
  exists j, cj, changed. split; [done|]. split; [done|]. split; [done|]. split; [done|].
  destruct (list_remove_elem j Sets Hj) as (l1 & l2 & -> & Hrm').
  assert (changed = l1 ++ l2) as -> by congruence.
  rewrite verify_costs_value.
  - f_equal. apply bool_decide_eq_true. rewrite cost_sum_app in *. simpl in Hsum.
    rewrite Hcj in Hsum. simpl in Hsum. lia.
  - intros k Hk. apply Hvc. rewrite elem_of_app, elem_of_cons.
    apply elem_of_app in Hk as [?|?]; auto.
Qed.

Lemma not_minimal_cheaper_witness :
  ∃ j cj changed,
    j ∈ [1; 2] ∧ ({[1 := 5; 2 := 3]} : gmap Z Z) !! j = Some cj
    ∧ list_remove j [1; 2] = Return changed
    ∧ verify_covering_requirement {[1 := 1; 2 := 1; 3 := 1]} changed
        {[1 := [1; 2]; 2 := [2; 3]]} 2 = Return true
    ∧ verify_costs changed (8 - cj) {[1 := 5; 2 := 3]} = Return true.
Proof.
  apply (not_minimal_cheaper {[1 := [1; 2]; 2 := [2; 3]]} {[1 := 1; 2 := 1; 3 := 1]}
           {[1 := 5; 2 := 3]} 2 8 [1; 2]).
  vm_compute. reflexivity.
Defined.

(** * Further properties of the readers *)

(** ** What [read_instance] accepts and returns *)

Lemma lookup_keys_upto (n i : nat) :
  keys_upto n !! i = if decide (i < n)%nat then Some (Z.of_nat i + 1) else None.
Proof.
  unfold keys_upto. rewrite list_lookup_fmap. case_decide.
  - by rewrite lookup_seq_lt.
  - rewrite lookup_seq_ge; [done | lia].
Qed.

Lemma dict_of_list_lookup {V : Type} (vs : list V) (i : nat) :
  dict_of_list vs !! (Z.of_nat i + 1) = vs !! i.
Proof.
  unfold dict_of_list. destruct (vs !! i) as [v|] eqn:Hv.
  - apply elem_of_list_to_map_1.
    + rewrite fst_zip by (rewrite length_keys_upto; lia). apply NoDup_keys_upto.
    + apply list_elem_of_lookup. exists i. apply lookup_zip_Some. split; [|done].
      rewrite lookup_keys_upto, decide_True; [done|]. by eapply lookup_lt_Some.
  - apply not_elem_of_list_to_map_1.
    rewrite fst_zip by (rewrite length_keys_upto; lia).
    rewrite elem_of_keys_upto. apply lookup_ge_None in Hv. lia.
Qed.

Lemma dict_of_list_is_Some {V : Type} (vs : list V) (k : Z) :
  is_Some (dict_of_list vs !! k) ↔ 1 ≤ k ≤ Z.of_nat (length vs).
Proof.
  unfold dict_of_list. rewrite list_to_map_is_Some.
  rewrite fst_zip by (rewrite length_keys_upto; lia). apply elem_of_keys_upto.
Qed.

Lemma od_of_pairs_zip {V : Type} (vs : list V) (n : nat) :
  length vs = n → od_of_pairs (zip (keys_upto n) vs) = zip (keys_upto n) vs.
Proof.
  intros Hn. apply od_of_pairs_NoDup.
  rewrite fst_zip by (rewrite length_keys_upto; lia). apply NoDup_keys_upto.
Qed.

Section ReaderSpec.

Variable int : string → option Z.

(** The loop that fills [S] reads the lines from the fourth on, one set
    per line, and numbers them from 1. *)
Lemma S_loop_value (instance : list string) (d m : nat) (S0 : list (Z * list Z)) :
  length (drop (3 + m) instance) = d →
  S0.*1 = keys_upto m →
  for_each (λ S jk, line ← index instance (Z.to_nat jk.2);
                    members ← list_comp (int_of int) (split_ws line);
                    Return (od_set (jk.1 + 1) members S))
           (imap (λ i a, (Z.of_nat (m + i), a))
                 ((λ i : nat, 3 + Z.of_nat (m + i)) <$> seq 0 d)) S0
  = (sets ← list_comp (λ line, list_comp (int_of int) (split_ws line))
                      (drop (3 + m) instance);
     Return (S0 ++ zip ((λ i : nat, Z.of_nat i + 1) <$> seq m (length sets)) sets)).
Proof.
  revert m S0. induction d as [|d IH]; intros m S0 Hd Hkeys.
  - apply nil_length_inv in Hd. rewrite Hd. simpl. by rewrite app_nil_r.
  - destruct (drop (3 + m) instance) as [|line ls] eqn:Hdrop; [done|].
    assert (instance !! (3 + m)%nat = Some line) as Hline.
    { rewrite <- (Nat.add_0_r (3 + m)), <- lookup_drop, Hdrop. done. }
    assert (drop (3 + S m) instance = ls) as Hls.
    { replace (3 + S m)%nat with (S (3 + m)) by lia.
      pose proof (drop_S instance line (3 + m) Hline) as H.
      rewrite Hdrop in H. injection H as Heq. symmetry. exact Heq. }
    cbn [seq fmap list_fmap imap for_each]. rewrite Nat.add_0_r.
    cbn [fst snd]. replace (Z.to_nat (3 + Z.of_nat m)) with (3 + m)%nat by lia.
    assert (index instance (3 + m) = Return line) as ->
      by (unfold index; by rewrite Hline).
    cbn [mbind result_bind list_comp].
    destruct (list_comp (int_of int) (split_ws line)) as [members|e]; [|done].
    cbn [mbind result_bind].
    rewrite <- fmap_S_seq, <- list_fmap_compose.
    rewrite (imap_ext _ (λ i a, (Z.of_nat (S m + i), a)))
      by (intros; simpl; do 2 f_equal; lia).
    rewrite (list_fmap_ext _ (λ i : nat, 3 + Z.of_nat (S m + i)))
      by (intros; simpl; f_equal; lia).
    rewrite (IH (S m)).
    + rewrite Hls. destruct (list_comp _ ls) as [sets|e]; [|done].
      cbn [mbind result_bind length seq fmap list_fmap zip zip_with].
      rewrite od_set_fresh by (rewrite Hkeys, elem_of_keys_upto; lia).
      by rewrite <- app_assoc.
    + rewrite Hls. simpl in Hd. lia.
    + rewrite od_set_fresh by (rewrite Hkeys, elem_of_keys_upto; lia).
      by rewrite fmap_app, Hkeys, keys_upto_S.
Qed.

Lemma S_loop_enumerate (instance : list string) :
  for_each (λ S jk, line ← index instance (Z.to_nat jk.2);
                    members ← list_comp (int_of int) (split_ws line);
                    Return (od_set (jk.1 + 1) members S))
           (enumerate (range 3 (Z.of_nat (length instance)))) []
  = (sets ← list_comp (ints_of_line int) (drop 3 instance);
     Return (zip (keys_upto (length sets)) sets)).
Proof.
  unfold enumerate, range.
  replace (Z.to_nat (Z.of_nat (length instance) - 3)) with (length instance - 3)%nat
    by lia.
  exact (S_loop_value instance (length instance - 3) 0 [] (length_drop _ _) eq_refl).
Qed.

Lemma imap_zip_keys {A : Type} (l : list A) (m : nat) :
  imap (λ i a, (Z.of_nat (m + i) + 1, a)) l
  = zip ((λ i : nat, Z.of_nat i + 1) <$> seq m (length l)) l.
Proof.
  revert m. induction l as [|a l IH]; intros m; simpl; [done|].
  rewrite Nat.add_0_r. f_equal. rewrite <- IH.
  apply imap_ext. intros i x _. simpl. do 2 f_equal. lia.
Qed.

Lemma E_pairs (n : nat) :
  (λ kv : Z * Z, (kv.1 + 1, kv.2)) <$> enumerate (range 1 (Z.of_nat n + 1))
  = zip (keys_upto n) (keys_upto n).
Proof.
  assert (range 1 (Z.of_nat n + 1) = keys_upto n) as ->.
  { unfold range, keys_upto. replace (Z.to_nat (Z.of_nat n + 1 - 1)) with n by lia.
    apply list_fmap_ext. intros; lia. }
  unfold enumerate. rewrite fmap_imap.
  pose proof (imap_zip_keys (keys_upto n) 0) as H.
  rewrite length_keys_upto in H. exact H.
Qed.

(** [read_instance] line by line. *)
Lemma read_instance_try_lines (text l0 l1 l2 : string) (setlines : list string) :
  split_on "010" text = l0 :: l1 :: l2 :: setlines →
  read_instance_try int text =
  (header ← ints_of_line int l0;
   match header with
   | [num_E; num_S; P] =>
       reqs ← ints_of_line int l1;
       if negb (bool_decide (Z.of_nat (length reqs) = num_E)) then Raise ValueError else
       costs ← ints_of_line int l2;
       if negb (bool_decide (Z.of_nat (length costs) = num_S)) then Raise ValueError else
       sets ← list_comp (ints_of_line int) setlines;
       if negb (bool_decide (Z.of_nat (length sets) = num_S)) then Raise ValueError else
       Return (dict_of_list (keys_upto (length reqs)), dict_of_list sets,
               dict_of_list reqs, dict_of_list costs, num_E, num_S, P)
   | _ => Raise ValueError
   end).
Proof.
  intros Hsplit. unfold read_instance_try. rewrite S_loop_enumerate, Hsplit.
  change (index (l0 :: l1 :: l2 :: setlines) 0) with (Return l0).
  change (index (l0 :: l1 :: l2 :: setlines) 1) with (Return l1).
  change (index (l0 :: l1 :: l2 :: setlines) 2) with (Return l2).
  change (drop 3 (l0 :: l1 :: l2 :: setlines)) with setlines.
  unfold ints_of_line. cbn [mbind result_bind].
  destruct (list_comp (int_of int) (split_ws l0)) as [header|]; [|done].
  cbn [mbind result_bind].
  destruct header as [|num_E [|num_S [|P [|? ?]]]]; try done.
  cbn [mbind result_bind].
  destruct (list_comp (int_of int) (split_ws l1)) as [reqs|]; [|done].
  cbn [mbind result_bind].
  case_bool_decide as HnE; [|done]. cbn [negb].
  destruct (list_comp (int_of int) (split_ws l2)) as [costs|]; [|done].
  cbn [mbind result_bind].
  case_bool_decide as HnS; [|done]. cbn [negb].
  destruct (list_comp _ setlines) as [sets|]; [|done].
  cbn [mbind result_bind].
  rewrite length_zip, length_keys_upto, Nat.min_id.
  case_bool_decide as HnS'; [|done]. cbn [negb].
  assert (num_E = Z.of_nat (length reqs)) as -> by lia.
  rewrite E_pairs.
  rewrite (od_of_pairs_zip (keys_upto (length reqs)) (length reqs))
    by apply length_keys_upto.
  rewrite !fst_zip by (rewrite !length_keys_upto; lia).
  rewrite (od_of_pairs_zip reqs (length reqs)) by done.
  assert (length sets = length costs) as Hsc by lia. rewrite Hsc.
  rewrite (od_of_pairs_zip costs (length costs)) by done.
  unfold dict_of_list. rewrite length_keys_upto, <- Hsc. done.
Qed.

Lemma read_instance_try_Return_lines (text : string) inst :
  read_instance_try int text = Return inst →
  ∃ l0 l1 l2 setlines, split_on "010" text = l0 :: l1 :: l2 :: setlines.
Proof.
  unfold read_instance_try. intros H.
  bind_inv H. bind_inv H.
  destruct x0 as [|a [|b [|c0 [|? ?]]]]; simpl in H; try discriminate H.
  bind_inv H. bind_inv H. bind_inv H. bind_inv H.
  destruct (split_on "010" text) as [|l0 [|l1 [|l2 setlines]]]; try discriminate.
  by exists l0, l1, l2, setlines.
Qed.

Lemma list_comp_length {A B : Type} (f : A → result B) (l : list A) (bs : list B) :
  list_comp f l = Return bs → length bs = length l.
Proof.
  revert bs. induction l as [|a l IH]; intros bs; simpl.
  - by intros [= <-].
  - destruct (f a) as [b|]; simpl; [|done].
    destruct (list_comp f l) as [bs'|]; simpl; [|done].
    intros [= <-]. simpl. f_equal. by apply IH.
Qed.

(** [read_instance] returns exactly for a text of at least three lines
    whose first line is three integers [num_E num_S P], whose second line
    is [num_E] integers, whose third line is [num_S] integers and whose
    remaining lines are [num_S] lines of integers; what it returns is the
    file's data: [E] maps k to k, [r] the k-th requirement to k, [c] the
    j-th cost to j and [S] the integers of line j + 3 to j. *)
Theorem read_instance_parses (text : string) (E : gmap Z Z) (S_ : gmap Z (list Z))
    (r c : gmap Z Z) (num_E num_S P : Z) :
  read_instance_try int text = Return (E, S_, r, c, num_E, num_S, P)
  ↔ ∃ l0 l1 l2 setlines reqs costs sets,
      split_on "010" text = l0 :: l1 :: l2 :: setlines
      ∧ ints_of_line int l0 = Return [num_E; num_S; P]
      ∧ ints_of_line int l1 = Return reqs ∧ Z.of_nat (length reqs) = num_E
      ∧ ints_of_line int l2 = Return costs ∧ Z.of_nat (length costs) = num_S
      ∧ list_comp (ints_of_line int) setlines = Return sets
      ∧ Z.of_nat (length sets) = num_S
      ∧ E = dict_of_list (keys_upto (length reqs))
      ∧ S_ = dict_of_list sets
      ∧ r = dict_of_list reqs
      ∧ c = dict_of_list costs.
Proof.
  split.
  - intros H.
    destruct (read_instance_try_Return_lines _ _ H) as (l0 & l1 & l2 & setlines & Hsplit).
    rewrite (read_instance_try_lines _ _ _ _ _ Hsplit) in H.
    exists l0, l1, l2, setlines.
    destruct (ints_of_line int l0) as [header|]; [|done]. simpl in H.
    destruct header as [|nE [|nS [|P' [|? ?]]]]; try done.
    destruct (ints_of_line int l1) as [reqs|]; [|done]. simpl in H.
    case_bool_decide; [|done]. simpl in H.
    destruct (ints_of_line int l2) as [costs|]; [|done]. simpl in H.
    case_bool_decide; [|done]. simpl in H.
    destruct (list_comp (ints_of_line int) setlines) as [sets|]; [|done]. simpl in H.
    case_bool_decide; [|done]. simpl in H.
    injection H as <- <- <- <- <- <- <-.
    by exists reqs, costs, sets.
  - intros (l0 & l1 & l2 & setlines & reqs & costs & sets & Hsplit & H0 & H1 & HnE
            & H2 & HnS & Hsets & HnS' & -> & -> & -> & ->).
    rewrite (read_instance_try_lines _ _ _ _ _ Hsplit), H0. simpl.
    rewrite H1. simpl. rewrite bool_decide_eq_true_2 by done. simpl.
    rewrite H2. simpl. rewrite bool_decide_eq_true_2 by done. simpl.
    rewrite Hsets. simpl. by rewrite bool_decide_eq_true_2 by done.
Qed.

Lemma split_on_cons (sep : ascii) (s : string) :
  ∃ w ws, split_on sep s = w :: ws.
Proof.
  destruct s as [|ch s]; simpl; [by eexists _, _|].
  case_decide; [by eexists _, _|]. destruct (split_on sep s); by eexists _, _.
Qed.

Lemma split_on_app_sep (sep : ascii) (s : string) :
  split_on sep (String.append s (String sep EmptyString))
  = split_on sep s ++ [EmptyString].
Proof.
  induction s as [|ch s IH]; simpl.
  - by rewrite decide_True.
  - case_decide; [by rewrite IH|]. rewrite IH.
    destruct (split_on_cons sep s) as (w & ws & ->). done.
Qed.

(** A newline after the last set line makes [read_instance] find one set
    too many: an instance file that is accepted is rejected, with "wrong
    format", once a newline is appended to it. *)
Theorem read_instance_trailing_newline (fs : string → open_result)
    (filename text : string)
    (inst : gmap Z Z * gmap Z (list Z) * gmap Z Z * gmap Z Z * Z * Z * Z) :
  read_instance_try int text = Return inst →
  fs filename = FileText (String.append text (String "010"%char EmptyString)) →
  read_instance int fs filename = mkIO ["wrong format"] (Raise SystemExit).
Proof.
  intros Hret Hfs. unfold read_instance. rewrite Hfs.
  destruct inst as [[[[[[E S_] r] c] num_E] num_S] P].
  apply read_instance_parses in Hret
    as (l0 & l1 & l2 & setlines & reqs & costs & sets & Hsplit & H0 & H1 & HnE
        & H2 & HnS & Hsets & HnS' & _).
  assert (split_on "010" (String.append text (String "010"%char EmptyString))
          = l0 :: l1 :: l2 :: (setlines ++ [EmptyString])) as Hsplit'
    by (by rewrite split_on_app_sep, Hsplit).
  rewrite (read_instance_try_lines _ _ _ _ _ Hsplit'), H0. simpl.
  rewrite H1. simpl. rewrite bool_decide_eq_true_2 by done. simpl.
  rewrite H2. simpl. rewrite bool_decide_eq_true_2 by done. simpl.
  destruct (list_comp (ints_of_line int) (setlines ++ [EmptyString]))
    as [sets'|] eqn:Hsets'; simpl; [|done].
  apply list_comp_length in Hsets, Hsets'. rewrite length_app in Hsets'. simpl in Hsets'.
  rewrite bool_decide_eq_false_2 by lia. done.
Qed.

End ReaderSpec.

Lemma read_instance_trailing_newline_witness :
  read_instance int_plain
    (λ _, FileText (String.append scenario_text (String "010"%char EmptyString)))
    "instance01.txt"
  = mkIO ["wrong format"] (Raise SystemExit).
Proof.
  apply (read_instance_trailing_newline int_plain _ "instance01.txt" scenario_text _
           scenario_instance).
  reflexivity.
Defined.

(** ** What [read_solution] returns and raises *)

Section SolutionReader.

Variable int : string → option Z.
Variable fs : string → open_result.

(** [read_solution] token by token. *)
Lemma read_solution_tokens (filename text : string) :
  fs filename = FileText text →
  read_solution int fs filename =
  match split_on " " text with
  | [] => mkIO [] (Raise IndexError)
  | tok_k :: rest =>
      match int tok_k with
      | None => mkIO [] (Raise ValueError)
      | Some k =>
          match rest with
          | [] => mkIO [] (Raise IndexError)
          | tok_cost :: toks =>
              match int tok_cost with
              | None => mkIO [] (Raise ValueError)
              | Some Cost =>
                  match list_comp (int_of int) toks with
                  | Raise e => mkIO [] (Raise e)
                  | Return Sets =>
                      if decide (k = Z.of_nat (length Sets))
                      then mkIO [] (Return (k, Cost, Sets))
                      else mkIO ["wrong format"] (Raise SystemExit)
                  end
              end
          end
      end
  end.
Proof.
  intros Hfs. unfold read_solution. rewrite Hfs.
  destruct (split_on " " text) as [|tok_k rest]; [done|].
  change (index (tok_k :: rest) 0) with (Return tok_k).
  rewrite bind_lift_Return.
  destruct (int tok_k) as [k|] eqn:Hk;
    [rewrite (int_of_Some _ _ _ Hk) | by rewrite (int_of_None _ _ Hk)].
  rewrite bind_lift_Return.
  destruct rest as [|tok_cost toks]; [done|].
  change (index (tok_k :: tok_cost :: toks) 1) with (Return tok_cost).
  change (drop 2 (tok_k :: tok_cost :: toks)) with toks.
  rewrite bind_lift_Return.
  destruct (int tok_cost) as [Cost|] eqn:Hcost;
    [rewrite (int_of_Some _ _ _ Hcost) | by rewrite (int_of_None _ _ Hcost)].
  rewrite bind_lift_Return.
  destruct (list_comp (int_of int) toks) as [Sets|e]; [|done].
  rewrite bind_lift_Return. by case_decide; case_bool_decide.
Qed.

Lemma list_comp_ints_inv (toks : list string) (zs : list Z) :
  list_comp (int_of int) toks = Return zs →
  Forall2 (λ tok z, int tok = Some z) toks zs.
Proof.
  revert zs. induction toks as [|tok toks IH]; intros zs; simpl.
  - intros [= <-]. constructor.
  - destruct (int tok) as [z|] eqn:Hz;
      [rewrite (int_of_Some _ _ _ Hz) | by rewrite (int_of_None _ _ Hz)]; simpl.
    destruct (list_comp (int_of int) toks) as [zs'|]; simpl; [|done].
    intros [= <-]. constructor; [done | by apply IH].
Qed.

Lemma list_comp_ints_raise (toks : list string) :
  (∃ tok, tok ∈ toks ∧ int tok = None) →
  list_comp (int_of int) toks = Raise ValueError.
Proof.
  induction toks as [|tok toks IH]; intros (t & Ht & Hn).
  - by apply elem_of_nil in Ht.
  - simpl. destruct (int tok) as [z|] eqn:Hz;
      [rewrite (int_of_Some _ _ _ Hz) | by rewrite (int_of_None _ _ Hz)]; simpl.
    rewrite IH; [done|]. exists t. split; [|done].
    apply elem_of_cons in Ht as [->|Ht]; [congruence | done].
Qed.

(** Whenever [read_solution] returns, nothing was printed, the count it
    returns is the length of the id list it returns, and count, cost and
    ids are the integers of the file's tokens in this order. *)
Theorem read_solution_returns (filename : string) (out : list string)
    (k Cost : Z) (Sets : list Z) :
  read_solution int fs filename = mkIO out (Return (k, Cost, Sets)) →
  out = [] ∧ k = Z.of_nat (length Sets)
  ∧ ∃ text tok_k tok_cost toks,
      fs filename = FileText text
      ∧ split_on " " text = tok_k :: tok_cost :: toks
      ∧ int tok_k = Some k ∧ int tok_cost = Some Cost
      ∧ Forall2 (λ tok z, int tok = Some z) toks Sets.
Proof.
  intros H. destruct (fs filename) as [text|msg] eqn:Hfs.
  - rewrite (read_solution_tokens _ _ Hfs) in H.
    destruct (split_on " " text) as [|tok_k [|tok_cost toks]] eqn:Hsplit; [done| |].
    { by destruct (int tok_k). }
    destruct (int tok_k) as [k'|] eqn:Hk; [|done].
    destruct (int tok_cost) as [Cost'|] eqn:Hcost; [|done].
    destruct (list_comp (int_of int) toks) as [Sets'|] eqn:Hids; [|done].
    case_decide; [|done]. injection H as <- <- <- <-.
    split; [done|]. split; [done|].
    exists text, tok_k, tok_cost, toks. repeat (split; [done|]).
    by apply list_comp_ints_inv.
  - unfold read_solution in H. rewrite Hfs in H. done.
Qed.

(** A token of the solution file that is no integer ends [read_solution]
    with an uncaught [ValueError]; "wrong format" is not printed. *)
Theorem read_solution_bad_token (filename text tok_k tok_cost : string)
    (toks : list string) :
  fs filename = FileText text →
  split_on " " text = tok_k :: tok_cost :: toks →
  (∃ tok, tok ∈ tok_k :: tok_cost :: toks ∧ int tok = None) →
  read_solution int fs filename = mkIO [] (Raise ValueError).
Proof.
  intros Hfs Hsplit (tok & Htok & Hnone).
  rewrite (read_solution_tokens _ _ Hfs), Hsplit.
  destruct (int tok_k) as [k|] eqn:Hk; [|done].
  destruct (int tok_cost) as [Cost|] eqn:Hcost; [|done].
  rewrite list_comp_ints_raise; [done|].
  exists tok. split; [|done].
  apply elem_of_cons in Htok as [->|Htok]; [congruence|].
  apply elem_of_cons in Htok as [->|Htok]; [congruence | done].
Qed.

End SolutionReader.

Lemma read_solution_returns_witness :
  1 = Z.of_nat (length [2]).
Proof.
  refine (proj1 (proj2 (read_solution_returns int_plain scenario_fs
            "solution01.txt" [] 1 3 [2] _))).
  reflexivity.
Defined.

Lemma read_solution_bad_token_witness :
  read_solution int_plain (λ _, FileText "2 8 1  2") "solution01.txt"
  = mkIO [] (Raise ValueError).
Proof.
  apply (read_solution_bad_token int_plain _ "solution01.txt" "2 8 1  2"
           "2" "8" ["1"; ""; "2"]); [reflexivity | reflexivity |].
  exists "". split; [|reflexivity]. do 3 right. left.
Defined.

(** * Further properties of the solver *)

Example findall_digits_example :
  findall_digits "instance01_v2.txt" = ["01"; "2"].
Proof. reflexivity. Qed.

Example str_int_examples :
  str_int 0 = "0" ∧ str_int 305 = "305" ∧ str_int (-12) = "-12".
Proof. repeat split. Qed.

(** ** The solution file that the solver writes *)

Lemma append_empty_r (s : string) : String.append s EmptyString = s.
Proof.
  induction s as [|ch s IH]; [done|].
  change (String ch (String.append s EmptyString) = String ch s). by f_equal.
Qed.

Lemma split_on_token (sep : ascii) (s t : string) :
  ¬ In_string sep s →
  split_on sep (String.append s (String sep t)) = s :: split_on sep t.
Proof.
  induction s as [|ch s IH]; simpl; intros Hn.
  - by rewrite decide_True.
  - rewrite decide_False by (intros ->; apply Hn; by left).
    rewrite IH; [done|]. intros H. apply Hn. by right.
Qed.

Lemma split_on_last (sep : ascii) (s : string) :
  ¬ In_string sep s → split_on sep s = [s].
Proof.
  induction s as [|ch s IH]; simpl; intros Hn; [done|].
  rewrite decide_False by (intros ->; apply Hn; by left).
  rewrite IH; [done|]. intros H. apply Hn. by right.
Qed.

Section SolutionFile.

Variable str : Z → string.
Variable value_is_1 : LpVariable → bool.

Hypothesis str_no_space : ∀ z, ¬ In_string " " (str z).

Lemma split_on_lines_tail (s : string) (sets : list Z) :
  ¬ In_string " " s →
  split_on " " (String.append s (join ((λ i, String.append " " (str i)) <$> sets)))
  = s :: (str <$> sets).
Proof.
  revert s. induction sets as [|i sets IH]; intros s Hs.
  - change (split_on " " (String.append s EmptyString) = [s]).
    rewrite append_empty_r. by apply split_on_last.
  - change (split_on " " (String.append s (String " "
              (String.append (str i) (join ((λ i, String.append " " (str i)) <$> sets)))))
            = s :: str i :: (str <$> sets)).
    rewrite split_on_token by done. f_equal. by apply IH.
Qed.

Lemma split_on_main_lines (cost k : Z) (sets : list Z) :
  split_on " " (main_lines str cost k sets) = str k :: str cost :: (str <$> sets).
Proof.
  change (split_on " " (String.append (str k) (String " "
            (String.append (str cost) (join ((λ i, String.append " " (str i)) <$> sets)))))
          = str k :: str cost :: (str <$> sets)).
  rewrite split_on_token by done. f_equal.
  by apply split_on_lines_tail.
Qed.

Lemma main_collect_loop (x : gmap Z LpVariable) (c : gmap Z Z) (l : list Z)
    (st st' : Z * Z * list Z) :
  for_each (λ st i,
              xi ← getitem x i;
              if value_is_1 xi
              then ci ← getitem c i; Return (st.1.1 + ci, st.1.2 + 1, st.2 ++ [i])
              else Return st) l st = Return st' →
  ∃ sel, sel `sublist_of` l
    ∧ st'.2 = st.2 ++ sel
    ∧ st'.1.2 = st.1.2 + Z.of_nat (length sel)
    ∧ st'.1.1 = st.1.1 + cost_sum c sel
    ∧ (∀ i, i ∈ sel → is_Some (c !! i))
    ∧ (∀ i, i ∈ sel ↔ i ∈ l ∧ ∃ xi, x !! i = Some xi ∧ value_is_1 xi = true).
Proof.
  revert st. induction l as [|i l IH]; intros st Hloop; simpl in Hloop.
  - injection Hloop as <-. exists []. rewrite app_nil_r. simpl.
    split; [constructor|]. split; [done|]. split; [lia|]. split; [lia|]. split.
    + intros j Hj. by apply elem_of_nil in Hj.
    + intros j. split; [intros Hj | intros [Hj _]]; by apply elem_of_nil in Hj.
  - destruct (x !! i) as [xi|] eqn:Hxi;
      [rewrite (getitem_Some _ _ _ Hxi) in Hloop
      |rewrite (getitem_None _ _ Hxi) in Hloop; discriminate Hloop].
    simpl in Hloop. destruct (value_is_1 xi) eqn:Hsel.
    + destruct (c !! i) as [ci|] eqn:Hci;
        [rewrite (getitem_Some _ _ _ Hci) in Hloop
        |rewrite (getitem_None _ _ Hci) in Hloop; discriminate Hloop].
      simpl in Hloop.
      destruct (IH _ Hloop) as (sel & Hsub & Hsets & Hk & Hcost & Hvalid & Hiff).
      simpl in *. exists (i :: sel). split; [by apply sublist_skip|].
      split; [by rewrite Hsets, <- app_assoc|].
      split; [rewrite Hk; simpl; lia|].
      split; [rewrite Hcost; simpl; rewrite Hci; simpl; lia|]. split.
      * intros j Hj. apply elem_of_cons in Hj as [->|Hj]; [by eexists | by apply Hvalid].
      * intros j. rewrite !elem_of_cons, Hiff. split.
        -- intros [->|[? ?]]; [split; [by left | by exists xi] | split; [by right | done]].
        -- intros [[->|?] ?]; [by left | by right].
    + simpl in Hloop.
      destruct (IH _ Hloop) as (sel & Hsub & Hsets & Hk & Hcost & Hvalid & Hiff).
      exists sel. split; [by apply sublist_cons|]. repeat (split; [done|]).
      intros j. rewrite elem_of_cons, Hiff. split.
      * intros [? ?]. split; [by right | done].
      * intros [[->|?] (xj & Hxj & Hvj)]; [congruence | split; [done | by exists xj]].
Qed.

End SolutionFile.

Section RoundTrip.

Variable str : Z → string.
Variable int : string → option Z.
Variable value_is_1 : LpVariable → bool.
Variable fs : string → open_result.

(** The solution line that solver.py writes is read back by tester.py:
    when [int] reads what [str] prints and [str] prints no space, the
    reader returns the count, the cost and the sets that the solver
    collected, the count is the number of sets, the sets are the visited
    keys of [x] whose variable has the value 1, in the order of the
    visit, and the cost check passes on them. *)
Theorem solver_output_accepted (order : list Z) (x : gmap Z LpVariable)
    (c : gmap Z Z) (cost k : Z) (sets : list Z) (filename : string) :
  (∀ z, int (str z) = Some z) →
  (∀ z, ¬ In_string " " (str z)) →
  main_collect value_is_1 order x c = Return (cost, k, sets) →
  fs filename = FileText (main_lines str cost k sets) →
  read_solution int fs filename = mkIO [] (Return (k, cost, sets))
  ∧ verify_costs sets cost c = Return true
  ∧ k = Z.of_nat (length sets)
  ∧ sets `sublist_of` order
  ∧ (∀ i, i ∈ sets ↔ i ∈ order ∧ ∃ xi, x !! i = Some xi ∧ value_is_1 xi = true).
Proof.
  intros Hint Hns Hcollect Hfs. unfold main_collect in Hcollect.
  destruct (main_collect_loop value_is_1 x c _ _ _ Hcollect)
    as (sel & Hsub & Hsets & Hk & Hcost & Hvalid & Hiff).
  simpl in *. subst sets.
  assert (k = Z.of_nat (length sel)) as Hk' by lia.
  assert (read_solution int fs filename = mkIO [] (Return (k, cost, sel))) as Hread.
  { rewrite (read_solution_value int fs filename _ (str k) (str cost) (str <$> sel)
               k cost sel Hfs (split_on_main_lines str Hns cost k sel)
               (Hint k) (Hint cost)).
    - rewrite length_fmap. by rewrite decide_True.
    - apply Forall2_fmap_l, Forall_Forall2_diag, Forall_forall. intros; apply Hint. }
  split; [done|]. split.
  { rewrite verify_costs_value by done. f_equal. apply bool_decide_eq_true. lia. }
  split; [done|]. split; [done | exact Hiff].
Qed.

End RoundTrip.

(** ** [str] and [int] on decimal tokens *)

Lemma digit_of_digit_char (d : Z) : 0 ≤ d < 10 → digit_of (digit_char d) = Some d.
Proof.
  intros Hd.
  assert (d = 0 ∨ d = 1 ∨ d = 2 ∨ d = 3 ∨ d = 4 ∨ d = 5 ∨ d = 6 ∨ d = 7 ∨ d = 8 ∨ d = 9)
    as Hcases by lia.
  repeat (destruct Hcases as [->|Hcases]; [reflexivity|]). by subst.
Qed.

Lemma digit_char_plain (d : Z) :
  0 ≤ d < 10 → digit_char d ≠ "-"%char ∧ digit_char d ≠ " "%char.
Proof.
  intros Hd.
  assert (d = 0 ∨ d = 1 ∨ d = 2 ∨ d = 3 ∨ d = 4 ∨ d = 5 ∨ d = 6 ∨ d = 7 ∨ d = 8 ∨ d = 9)
    as Hcases by lia.
  repeat (destruct Hcases as [->|Hcases]; [by split|]). by subst.
Qed.

Lemma digits_of_str_digits (fuel : nat) (n : Z) (acc : string) :
  0 ≤ n < Z.of_nat fuel →
  digits_of 0 (str_digits fuel n acc) = digits_of n acc.
Proof.
  revert n acc. induction fuel as [|fuel IH]; intros n acc Hn; [lia|].
  simpl. case_decide.
  - simpl. rewrite digit_of_digit_char by (apply Z.mod_pos_bound; lia). simpl.
    rewrite Z.mod_small by lia. done.
  - rewrite IH.
    + simpl. rewrite digit_of_digit_char by (apply Z.mod_pos_bound; lia). simpl.
      f_equal. pose proof (Z.div_mod n 10). lia.
    + pose proof (Z.div_mod n 10). pose proof (Z.mod_pos_bound n 10). lia.
Qed.

Lemma str_digits_head (fuel : nat) (n : Z) (acc : string) :
  0 ≤ n →
  ∃ d rest, 0 ≤ d < 10 ∧ str_digits (S fuel) n acc = String (digit_char d) rest.
Proof.
  revert n acc. induction fuel as [|fuel IH]; intros n acc Hn.
  - simpl. exists (n mod 10). case_decide; eexists; (split; [apply Z.mod_pos_bound; lia | done]).
  - change (str_digits (S (S fuel)) n acc)
      with (if decide (n < 10) then String (digit_char (n mod 10)) acc
            else str_digits (S fuel) (n / 10) (String (digit_char (n mod 10)) acc)).
    case_decide.
    + exists (n mod 10), acc. split; [apply Z.mod_pos_bound; lia | done].
    + apply IH. apply Z.div_pos; lia.
Qed.

Lemma str_digits_no_space (fuel : nat) (n : Z) (acc : string) :
  0 ≤ n → ¬ In_string " " acc → ¬ In_string " " (str_digits fuel n acc).
Proof.
  revert n acc. induction fuel as [|fuel IH]; intros n acc Hn Hacc; [done|].
  assert (¬ In_string " " (String (digit_char (n mod 10)) acc)) as Hacc'.
  { simpl. intros [Heq|?]; [|done].
    by destruct (digit_char_plain (n mod 10) ltac:(apply Z.mod_pos_bound; lia)). }
  simpl. case_decide; [done|]. apply IH; [apply Z.div_pos; lia | done].
Qed.

Lemma int_plain_str_int (z : Z) : int_plain (str_int z) = Some z.
Proof.
  unfold str_int. case_decide as Hz.
  - destruct (str_digits_head (Z.to_nat (- z)) (- z) EmptyString)
      as (d & rest & Hd & Heq); [lia|].
    pose proof (digits_of_str_digits (S (Z.to_nat (- z))) (- z) EmptyString) as Hdig.
    rewrite Heq in *. unfold int_plain. rewrite Hdig by lia. simpl. f_equal. lia.
  - destruct (str_digits_head (Z.to_nat z) z EmptyString)
      as (d & rest & Hd & Heq); [lia|].
    pose proof (digits_of_str_digits (S (Z.to_nat z)) z EmptyString) as Hdig.
    rewrite Heq in *. unfold int_plain.
    destruct (digit_char_plain d Hd) as [Hminus _].
    destruct (digit_char d) as [[] [] [] [] [] [] [] []] eqn:Hch;
      try (by rewrite Hdig by lia); by destruct rest.
Qed.

Lemma str_int_no_space (z : Z) : ¬ In_string " " (str_int z).
Proof.
  unfold str_int. case_decide.
  - change (¬ (" "%char = "-"%char
               ∨ In_string " " (str_digits (S (Z.to_nat (- z))) (- z) EmptyString))).
    intros [?|Hin]; [done|]. revert Hin.
    apply str_digits_no_space; [lia | by intros []].
  - apply str_digits_no_space; [lia | by intros []].
Qed.

Lemma solver_output_accepted_witness :
  read_solution int_plain (λ _, FileText (main_lines str_int 3 1 [2])) "solution01.txt"
  = mkIO [] (Return (1, 3, [2])).
Proof.
  refine (proj1 (solver_output_accepted str_int int_plain
            (λ v, bool_decide (name_index v = 2)) _ [1; 2]
            (LpVariable_dict "x_%d" [1; 2] (Some 0) (Some 1) LpInteger)
            {[1 := 5; 2 := 3]} 3 1 [2] "solution01.txt"
            int_plain_str_int str_int_no_space _ eq_refl)).
  vm_compute. reflexivity.
Defined.

(** ** The names of the two files *)

Lemma findall_digits_runs (s w : string) :
  w ∈ findall_digits s → w ≠ EmptyString ∧ all_digits w.
Proof.
  revert w. induction s as [|ch s IH]; intros w; simpl.
  - intros H. by apply elem_of_nil in H.
  - destruct (isdigit ch) eqn:Hch; [|apply IH].
    assert (all_digits (String ch EmptyString)) as Hone
      by (intros c [->|[]]; done).
    destruct s as [|ch' s'].
    + intros H. apply elem_of_cons in H as [->|H]; [done | by apply elem_of_nil in H].
    + destruct (isdigit ch') eqn:Hch'.
      * destruct (findall_digits (String ch' s')) as [|w' ws] eqn:Hf.
        -- intros H. apply elem_of_cons in H as [->|H]; [done | by apply elem_of_nil in H].
        -- intros H. apply elem_of_cons in H as [->|H].
           ++ split; [done|]. destruct (IH w') as [_ Hw']; [left|].
              intros c [->|Hc]; [done | by apply Hw'].
           ++ apply IH. by right.
      * intros H. apply elem_of_cons in H as [->|H]; [done | by apply IH].
Qed.

Lemma findall_digits_two (ch ch' : ascii) (s : string) :
  isdigit ch = true → isdigit ch' = true →
  findall_digits (String ch (String ch' s))
  = match findall_digits (String ch' s) with
    | w :: ws => String ch w :: ws
    | [] => [String ch EmptyString]
    end.
Proof. intros H H'. simpl. by rewrite H, H'. Qed.

Lemma findall_digits_number (number : string) :
  number ≠ EmptyString → all_digits number →
  findall_digits (String.append number ".txt") = [number].
Proof.
  induction number as [|ch num IH]; intros Hne Hall; [done|].
  assert (isdigit ch = true) as Hch by (apply Hall; by left).
  assert (all_digits num) as Hnum by (intros c Hc; apply Hall; by right).
  change (findall_digits (String ch (String.append num ".txt")) = [String ch num]).
  destruct num as [|ch' num'].
  - simpl. by rewrite Hch.
  - assert (isdigit ch' = true) as Hch' by (apply Hnum; by left).
    specialize (IH ltac:(done) Hnum).
    change (findall_digits (String ch' (String.append num' ".txt")) = [String ch' num'])
      in IH.
    change (findall_digits (String ch (String ch' (String.append num' ".txt")))
            = [String ch (String ch' num')]).
    by rewrite (findall_digits_two _ _ _ Hch Hch'), IH.
Qed.

Lemma endswith_append (s suffix : string) :
  endswith (String.append s suffix) suffix = true.
Proof.
  induction s as [|ch s IH].
  - change (endswith suffix suffix = true). destruct suffix; simpl.
    + done.
    + by rewrite Ascii.eqb_refl, String.eqb_refl.
  - change (endswith (String ch (String.append s suffix)) suffix = true).
    cbn [endswith]. rewrite IH. apply orb_true_r.
Qed.

Lemma output_name_number (number : string) :
  number ≠ EmptyString → all_digits number →
  endswith (String.append "solution" (String.append number ".txt")) ".txt" = true
  ∧ findall_digits (String.append "solution" (String.append number ".txt")) = [number].
Proof.
  intros Hne Hall. split.
  - change (String.append "solution" (String.append number ".txt"))
      with (String.append (String.append "solution" number) ".txt").
    apply endswith_append.
  - change (findall_digits (String.append "solution" (String.append number ".txt")))
      with (findall_digits (String.append number ".txt")).
    by apply findall_digits_number.
Qed.

Section Names.

Variable int : string → option Z.
Variable fs : string → open_result.

(** The solution file is named after the first run of digits in the name
    of the instance file, and tester.py compares exactly these runs: given
    the name that solver.py chose for one instance file and any instance
    file ending in ".txt", [main] of tester.py goes on to read the files
    when the two first runs of digits are the same string, and prints
    "wrong format" without opening any file when they differ. *)
Theorem solver_name_checked (prog input_file input_file' output_file : string)
    (number number' : string) :
  output_name input_file = Return output_file →
  index (findall_digits input_file) 0 = Return number →
  endswith input_file' ".txt" = true →
  index (findall_digits input_file') 0 = Return number' →
  tester_main int fs [prog; input_file'; output_file]
  = Ended (if decide (number' = number)
           then main_run int fs input_file' output_file
           else mkIO ["wrong format"] (Raise SystemExit)).
Proof.
  intros Hout Hnum Hends Hnum'. unfold output_name in Hout. rewrite Hnum in Hout.
  injection Hout as <-.
  assert (number ≠ EmptyString ∧ all_digits number) as [Hne Hall].
  { apply (findall_digits_runs input_file). unfold index in Hnum.
    destruct (findall_digits input_file !! 0%nat) as [w|] eqn:Hw; [|done].
    injection Hnum as ->. apply list_elem_of_lookup. by exists 0%nat. }
  destruct (output_name_number number Hne Hall) as [Hends' Hfind].
  unfold tester_main. rewrite Hends, Hends', Hnum', Hfind.
  cbn [negb]. f_equal. rewrite bind_lift_Return.
  change (index [number] 0) with (@Return string number). rewrite bind_lift_Return.
  destruct (String.eqb_spec number' number) as [->|Hneq]; case_decide; done.
Qed.

End Names.

Lemma solver_name_checked_witness :
  tester_main int_plain scenario_fs ["tester.py"; "instance02.txt"; "solution01.txt"]
  = Ended (mkIO ["wrong format"] (Raise SystemExit)).
Proof.
  exact (solver_name_checked int_plain scenario_fs "tester.py" "instance01.txt"
           "instance02.txt" "solution01.txt" "01" "02"
           eq_refl eq_refl eq_refl eq_refl).
Defined.

(** * The model and the certifier *)

(** ** Sums of 0/1 values *)

Lemma Zsum_Permutation (l l' : list Z) : l ≡ₚ l' → Zsum l = Zsum l'.
Proof. induction 1; simpl; lia. Qed.

Lemma Zsum_nonneg {A : Type} (f : A → Z) (l : list A) :
  (∀ a, a ∈ l → 0 ≤ f a) → 0 ≤ Zsum (f <$> l).
Proof.
  induction l as [|a l IH]; intros Hf; [done|].
  rewrite fmap_cons. cbn [Zsum].
  assert (0 ≤ f a) by (apply Hf; left).
  assert (0 ≤ Zsum (f <$> l)) by (apply IH; intros; apply Hf; by right). lia.
Qed.

Lemma Zsum_binary_weight {A : Type} (f w : A → Z) (l : list A) :
  (∀ a, a ∈ l → 0 ≤ f a ≤ 1) →
  Zsum ((λ a, w a * f a) <$> l) = Zsum (w <$> filter (λ a, f a = 1) l).
Proof.
  induction l as [|a l IH]; intros Hf; [done|].
  rewrite fmap_cons, filter_cons. cbn [Zsum].
  rewrite IH by (intros; apply Hf; by right).
  assert (0 ≤ f a ≤ 1) as Ha by (apply Hf; left).
  case_decide as Hfa.
  - rewrite fmap_cons. cbn [Zsum]. rewrite Hfa. lia.
  - replace (f a) with 0 by lia. lia.
Qed.

Lemma Zsum_binary_count {A : Type} (f : A → Z) (l : list A) :
  (∀ a, a ∈ l → 0 ≤ f a ≤ 1) →
  Zsum (f <$> l) = Z.of_nat (length (filter (λ a, f a = 1) l)).
Proof.
  induction l as [|a l IH]; intros Hf; [done|].
  rewrite fmap_cons, filter_cons. cbn [Zsum].
  rewrite IH by (intros; apply Hf; by right).
  assert (0 ≤ f a ≤ 1) as Ha by (apply Hf; left).
  case_decide as Hfa; [rewrite Hfa; simpl; lia | simpl; lia].
Qed.

Lemma cost_sum_Zsum (c : gmap Z Z) (l : list Z) :
  cost_sum c l = Zsum ((λ j, default 0 (c !! j)) <$> l).
Proof.
  induction l as [|j l IH]; [done|].
  rewrite fmap_cons. cbn [Zsum]. rewrite <- IH. done.
Qed.

Lemma NoDup_keys_size {V : Type} (m : gmap Z V) (l : list Z) :
  NoDup l → (∀ e, e ∈ l → is_Some (m !! e)) → (length l ≤ size m)%nat.
Proof.
  intros Hnd Hl. rewrite <- (length_map_to_list m), <- (length_fmap fst).
  apply submseteq_length, NoDup_submseteq; [done|].
  intros e He. by apply (elem_of_keys m), Hl.
Qed.

(** The sets of value 1 that list [e] are counted by the coverage of the
    selection. *)
Lemma selection_covers (ρ : LpVariable → Z) (S : gmap Z (list Z)) (e : Z)
    (l : list Z) :
  (∀ j, j ∈ l → 0 ≤ ρ (x_var j) ≤ 1) →
  Zsum ((λ j, ρ (x_var j)) <$> filter (λ j, e ∈ default [] (S !! j)) l)
  ≤ multiplicity S (filter (λ j, ρ (x_var j) = 1) l) e.
Proof.
  induction l as [|j l IH]; intros Hb; [done|].
  assert (0 ≤ ρ (x_var j) ≤ 1) as Hj by (apply Hb; left).
  assert (Zsum ((λ j, ρ (x_var j)) <$> filter (λ j, e ∈ default [] (S !! j)) l)
          ≤ multiplicity S (filter (λ j, ρ (x_var j) = 1) l) e) as IH'
    by (apply IH; intros; apply Hb; by right).
  rewrite !filter_cons.
  pose proof (occ_nonneg e (default [] (S !! j))) as Hocc.
  destruct (decide (e ∈ default [] (S !! j))) as [He|He];
    destruct (decide (ρ (x_var j) = 1)) as [H1|H1];
    rewrite ?fmap_cons; unfold multiplicity in *; cbn [Zsum foldr]; try lia.
  pose proof (occ_elem _ _ He). lia.
Qed.

(** With memberships that list no element twice, the coverage of a
    solution counts the selected sets that list [e]. *)
Lemma multiplicity_count (S : gmap Z (list Z)) (l : list Z) (e : Z) :
  (∀ j Sj, S !! j = Some Sj → NoDup Sj) →
  multiplicity S l e
  = Z.of_nat (length (filter (λ j, e ∈ default [] (S !! j)) l)).
Proof.
  intros Hnd. induction l as [|j l IH]; [done|].
  rewrite filter_cons. unfold multiplicity in *. cbn [foldr]. rewrite IH.
  assert (NoDup (default [] (S !! j))) as Hj.
  { destruct (S !! j) as [Sj|] eqn:HSj; simpl; [by eapply Hnd | constructor]. }
  case_decide as He.
  - pose proof (occ_elem _ _ He). pose proof (occ_NoDup e _ Hj). simpl. lia.
  - rewrite (occ_not_elem _ _ He). lia.
Qed.

(** ** Collecting the solution *)

Lemma main_collect_value (value_is_1 : LpVariable → bool) (x : gmap Z LpVariable)
    (c : gmap Z Z) (Q : Z → Prop) `{!∀ i, Decision (Q i)} (l : list Z)
    (st : Z * Z * list Z) :
  (∀ i, i ∈ l → ∃ xi, x !! i = Some xi ∧ value_is_1 xi = bool_decide (Q i)) →
  (∀ i, i ∈ l → is_Some (c !! i)) →
  for_each (λ st i,
              xi ← getitem x i;
              if value_is_1 xi
              then ci ← getitem c i; Return (st.1.1 + ci, st.1.2 + 1, st.2 ++ [i])
              else Return st) l st
  = Return (st.1.1 + cost_sum c (filter Q l),
            st.1.2 + Z.of_nat (length (filter Q l)),
            st.2 ++ filter Q l).
Proof.
  revert st. induction l as [|i l IH]; intros [[cost k] sets] Hx Hc.
  - simpl. rewrite app_nil_r. do 2 f_equal; f_equal; lia.
  - cbn [for_each]. destruct (Hx i) as (xi & Hxi & Hv); [left|].
    rewrite filter_cons, (getitem_Some _ _ _ Hxi). simpl. rewrite Hv.
    case_bool_decide as HQ.
    + destruct (Hc i) as [ci Hci]; [left|]. rewrite (getitem_Some _ _ _ Hci). simpl.
      rewrite IH by (intros; (apply Hx || apply Hc); by right).
      rewrite decide_True by done. simpl. rewrite Hci. simpl.
      rewrite <- app_assoc. simpl. do 2 f_equal; f_equal; lia.
    + simpl. rewrite IH by (intros; (apply Hx || apply Hc); by right).
      by rewrite decide_False.
Qed.

(** ** What the model asks of an assignment *)

Lemma create_Instance_feasible (iadd_False : LpProblem → result LpProblem)
    (int : string → option Z) (text : string)
    (E : gmap Z Z) (S_ : gmap Z (list Z)) (r c : gmap Z Z) (num_E num_S P : Z) :
  read_instance_try int text = Return (E, S_, r, c, num_E, num_S, P) →
  1 ≤ num_E →
  ∃ PSMC obj,
    create_Instance iadd_False E S_ r c num_E num_S P
    = Return (PSMC, LpVariable_dict "x_%d" (keys S_) (Some 0) (Some 1) LpInteger,
              LpVariable_dict "y_%d" (keys E) (Some 0) (Some 1) LpInteger)
    ∧ objective PSMC = Some obj
    ∧ (∀ ρ, eval ρ obj = Zsum ((λ j, default 0 (c !! j) * ρ (x_var j)) <$> keys S_))
    ∧ (∀ ρ, feasible ρ PSMC ↔
         P ≤ Zsum ((λ e, ρ (y_var e)) <$> keys E)
         ∧ ∀ e, e ∈ keys E →
             0 ≤ Zsum ((λ j, ρ (x_var j))
                         <$> filter (λ j, e ∈ default [] (S_ !! j)) (keys S_))
                 - default 0 (r !! e) * ρ (y_var e)).
Proof.
  intros Hinst HnE.
  destruct (read_instance_keys int _ _ _ _ _ _ _ _ Hinst) as (HE & HS & Hr & Hc).
  assert (∃ ey, sum_vars (y_var <$> keys E) = SumExpr ey) as [ey Hey].
  { assert (1 ∈ keys E) as H1 by (apply elem_of_keys, HE; lia).
    destruct (keys E) as [|e0 l]; [by apply elem_of_nil in H1|].
    rewrite fmap_cons. by eexists. }
  eexists _, _. split.
  { apply (create_Instance_value iadd_False E S_ r c num_E num_S P ey); [| |done].
    - intros j Hj. by apply Hc, HS.
    - intros e He. by apply Hr, HE. }
  split; [done|]. split.
  - intros ρ. rewrite eval_objective, eval_sum_exprs. unfold objective_terms.
    rewrite <- list_fmap_compose. apply Zsum_fmap_ext.
    intros j. simpl. apply eval_var_mul.
  - intros ρ. unfold feasible. cbn [constraints].
    rewrite Forall_cons, Forall_fmap, Forall_forall, holds_expr_ge.
    change (eval ρ ey) with (sum_eval ρ (SumExpr ey)).
    rewrite <- Hey, eval_sum_vars, <- list_fmap_compose.
    apply and_iff_compat_l. apply forall_proper. intros e.
    apply forall_proper. intros He. simpl. unfold element_constraint.
    rewrite holds_expr_ge, eval_sum_sub, eval_sum_vars, eval_var_mul.
    by rewrite <- list_fmap_compose.
Qed.

Lemma keys_LpVariable_dict name (l : list Z) lb ub ct (j : Z) :
  j ∈ keys (LpVariable_dict name l lb ub ct) ↔ j ∈ l.
Proof.
  rewrite elem_of_keys, LpVariable_dict_lookup.
  case_decide; split; done.
Qed.

Section Correspondence.

Variable iadd_False : LpProblem → result LpProblem.
Variable int : string → option Z.

Lemma model_solution_checks (text : string)
    (E : gmap Z Z) (S_ : gmap Z (list Z)) (r c : gmap Z Z) (num_E num_S P : Z)
    (PSMC : LpProblem) (x y : gmap Z LpVariable) (order : list Z)
    (ρ : LpVariable → Z) :
  read_instance_try int text = Return (E, S_, r, c, num_E, num_S, P) →
  1 ≤ num_E →
  (∀ e re, r !! e = Some re → 0 < re) →
  (∀ j Sj e, S_ !! j = Some Sj → e ∈ Sj → 1 ≤ e ≤ num_E) →
  create_Instance iadd_False E S_ r c num_E num_S P = Return (PSMC, x, y) →
  order ≡ₚ keys x →
  feasible ρ PSMC →
  (∀ j v, x !! j = Some v → within_bounds ρ v) →
  (∀ e v, y !! e = Some v → within_bounds ρ v) →
  ∃ obj, objective PSMC = Some obj
    ∧ main_collect (value_is_1_in ρ) order x c
      = Return (eval ρ obj, Z.of_nat (length (selected ρ order)), selected ρ order)
    ∧ verify_costs (selected ρ order) (eval ρ obj) c = Return true
    ∧ verify_covering_requirement r (selected ρ order) S_ P = Return true
    ∧ ∃ b, verify_minimal r (selected ρ order) S_ P = Return b.
Proof.
  intros Hinst HnE Hpos Hrange Hcreate Horder Hfeas Hbx Hby.
  destruct (read_instance_keys int _ _ _ _ _ _ _ _ Hinst) as (HE & HS & Hr & Hc).
  destruct (create_Instance_feasible iadd_False int text _ _ _ _ _ _ _ Hinst HnE)
    as (PSMC' & obj & Hret & Hobj & Hev & Hf).
  rewrite Hcreate in Hret. injection Hret as -> -> ->.
  set (xd := LpVariable_dict "x_%d" (keys S_) (Some 0) (Some 1) LpInteger) in *.
  set (yd := LpVariable_dict "y_%d" (keys E) (Some 0) (Some 1) LpInteger) in *.
  assert (∀ j, j ∈ keys S_ → 0 ≤ ρ (x_var j) ≤ 1) as Hxb.
  { intros j Hj. destruct (Hbx j (x_var j)) as [H0 H1]; [|simpl in *; lia].
    unfold xd. by rewrite LpVariable_dict_lookup, decide_True. }
  assert (∀ e, e ∈ keys E → 0 ≤ ρ (y_var e) ≤ 1) as Hyb.
  { intros e He. destruct (Hby e (y_var e)) as [H0 H1]; [|simpl in *; lia].
    unfold yd. by rewrite LpVariable_dict_lookup, decide_True. }
  assert (order ≡ₚ keys S_) as Hperm.
  { rewrite Horder.
    apply NoDup_Permutation; [apply NoDup_keys..|]. apply keys_LpVariable_dict. }
  assert (∀ i, i ∈ selected ρ order → i ∈ keys S_) as Hsel.
  { intros i Hi. apply list_elem_of_filter in Hi as [_ Hi]. by rewrite <- Hperm. }
  assert (∀ i, i ∈ selected ρ order → is_Some (S_ !! i)) as HvS
    by (intros i Hi; by apply elem_of_keys, Hsel).
  assert (∀ i, i ∈ selected ρ order → is_Some (c !! i)) as Hvc
    by (intros i Hi; apply Hc, HS, elem_of_keys; by apply Hsel).
  assert (∀ e, covered S_ (selected ρ order) e → is_Some (r !! e)) as Hreq.
  { intros e (i & B & _ & HB & He). apply Hr. by eapply Hrange. }
  assert (eval ρ obj = cost_sum c (selected ρ order)) as Hcost.
  { rewrite Hev, cost_sum_Zsum. unfold selected.
    rewrite <- (Zsum_binary_weight (λ j, ρ (x_var j))).
    - apply Zsum_Permutation, fmap_Permutation. by symmetry.
    - intros j Hj. apply Hxb. by rewrite <- Hperm. }
  assert (verify_costs (selected ρ order) (eval ρ obj) c = Return true) as Hcosts.
  { rewrite verify_costs_value by done. f_equal. by apply bool_decide_eq_true. }
  assert (verify_covering_requirement r (selected ρ order) S_ P = Return true) as Hcov.
  { rewrite covering_check_value by done. f_equal. apply bool_decide_eq_true.
    destruct (proj1 (Hf ρ) Hfeas) as [HP Hel].
    rewrite Zsum_binary_count in HP by done.
    etrans; [exact HP|]. unfold satisfied_count. apply inj_le.
    apply NoDup_keys_size; [apply NoDup_filter, NoDup_keys|].
    intros e He. apply list_elem_of_filter in He as [Hy He].
    destruct (proj2 (Hr e)) as [re Hre]; [by apply HE, elem_of_keys|].
    exists re. apply map_lookup_filter_Some. split; [done|]. simpl.
    specialize (Hel e He). rewrite Hre, Hy in Hel. simpl in Hel.
    pose proof (selection_covers ρ S_ e (keys S_) Hxb) as Hle.
    assert (filter (λ j, ρ (x_var j) = 1) (keys S_) ≡ₚ selected ρ order) as Hp
      by (unfold selected; by rewrite Hperm).
    rewrite (multiplicity_Permutation _ _ _ e Hp) in Hle. lia. }
  exists obj. split; [done|]. split.
  { unfold main_collect.
    rewrite (main_collect_value _ _ _ (λ j, ρ (x_var j) = 1)).
    - simpl. fold (selected ρ order). by rewrite Hcost.
    - intros i Hi. exists (x_var i). split; [|done].
      rewrite Hperm in Hi.
      unfold xd. by rewrite LpVariable_dict_lookup, decide_True.
    - intros i Hi. apply Hc, HS, elem_of_keys. by rewrite <- Hperm. }
  split; [done|]. split; [done|].
  exact (verify_minimal_returns r (selected ρ order) S_ P HvS Hreq).
Qed.

(** Every feasible point of the model within the bounds of its variables
    passes the certifier when [main] of solver.py writes it out: for an
    instance with positive requirements whose sets list elements between
    1 and [num_E], the loop over the keys of [x], in whatever order it
    visits them, collects the sets of value 1, their number and their
    cost, which is the value of the objective; on these the cost check
    and the covering check pass, no check raises, and the checks of
    tester.py print "everything is correct!" or "not minimal". *)
Theorem model_solution_certified (text : string)
    (E : gmap Z Z) (S_ : gmap Z (list Z)) (r c : gmap Z Z) (num_E num_S P : Z)
    (PSMC : LpProblem) (x y : gmap Z LpVariable) (order : list Z)
    (ρ : LpVariable → Z) :
  read_instance_try int text = Return (E, S_, r, c, num_E, num_S, P) →
  1 ≤ num_E →
  (∀ e re, r !! e = Some re → 0 < re) →
  (∀ j Sj e, S_ !! j = Some Sj → e ∈ Sj → 1 ≤ e ≤ num_E) →
  create_Instance iadd_False E S_ r c num_E num_S P = Return (PSMC, x, y) →
  order ≡ₚ keys x →
  feasible ρ PSMC →
  (∀ j v, x !! j = Some v → within_bounds ρ v) →
  (∀ e v, y !! e = Some v → within_bounds ρ v) →
  ∃ obj, objective PSMC = Some obj
    ∧ main_collect (value_is_1_in ρ) order x c
      = Return (eval ρ obj, Z.of_nat (length (selected ρ order)), selected ρ order)
    ∧ verify_costs (selected ρ order) (eval ρ obj) c = Return true
    ∧ verify_covering_requirement r (selected ρ order) S_ P = Return true
    ∧ (main_checks S_ r c P (eval ρ obj) (selected ρ order) = report Correct
       ∨ main_checks S_ r c P (eval ρ obj) (selected ρ order) = report NotMinimal).
Proof.
  intros Hinst HnE Hpos Hrange Hcreate Horder Hfeas Hbx Hby.
  destruct (model_solution_checks text _ _ _ _ _ _ _ _ _ _ order ρ
              Hinst HnE Hpos Hrange Hcreate Horder Hfeas Hbx Hby)
    as (obj & Hobj & Hcollect & Hcosts & Hcov & [b Hmin]).
  exists obj. do 4 (split; [done|]).
  rewrite main_checks_cases, Hcosts, Hcov, Hmin. destruct b; [by left | by right].
Qed.

Lemma assignment_of_x (r : gmap Z Z) (S : gmap Z (list Z)) (Sol_Set : list Z) (j : Z) :
  assignment_of r S Sol_Set (x_var j) = if decide (j ∈ Sol_Set) then 1 else 0.
Proof. reflexivity. Qed.

Lemma assignment_of_y (r : gmap Z Z) (S : gmap Z (list Z)) (Sol_Set : list Z) (e : Z) :
  assignment_of r S Sol_Set (y_var e)
  = match r !! e with
    | Some re => if decide (re ≤ multiplicity S Sol_Set e) then 1 else 0
    | None => 0
    end.
Proof. reflexivity. Qed.

Lemma assignment_of_binary (r : gmap Z Z) (S : gmap Z (list Z)) (Sol_Set : list Z)
    (v : LpVariable) :
  0 ≤ assignment_of r S Sol_Set v ≤ 1.
Proof.
  unfold assignment_of. repeat case_decide; try lia.
  destruct (r !! name_index v); [case_decide|]; lia.
Qed.

Lemma solution_point_feasible (text : string)
    (E : gmap Z Z) (S_ : gmap Z (list Z)) (r c : gmap Z Z) (num_E num_S P : Z)
    (PSMC : LpProblem) (x y : gmap Z LpVariable) (Sol_Set : list Z) :
  read_instance_try int text = Return (E, S_, r, c, num_E, num_S, P) →
  1 ≤ num_E →
  (∀ j Sj, S_ !! j = Some Sj → NoDup Sj) →
  NoDup Sol_Set →
  verify_covering_requirement r Sol_Set S_ P = Return true →
  create_Instance iadd_False E S_ r c num_E num_S P = Return (PSMC, x, y) →
  feasible (assignment_of r S_ Sol_Set) PSMC
  ∧ (∀ j v, x !! j = Some v → within_bounds (assignment_of r S_ Sol_Set) v)
  ∧ (∀ e v, y !! e = Some v → within_bounds (assignment_of r S_ Sol_Set) v)
  ∧ objective_value (assignment_of r S_ Sol_Set) PSMC = cost_sum c Sol_Set.
Proof.
  intros Hinst HnE HndS Hnd Hcov Hcreate.
  destruct (read_instance_keys int _ _ _ _ _ _ _ _ Hinst) as (HE & HS & Hr & Hc).
  destruct (create_Instance_feasible iadd_False int text _ _ _ _ _ _ _ Hinst HnE)
    as (PSMC' & obj & Hret & Hobj & Hev & Hf).
  rewrite Hcreate in Hret. injection Hret as -> -> ->.
  destruct (covering_check_Return_inv _ _ _ _ _ Hcov) as [Hv Hreq].
  unfold objective_value. rewrite Hobj.
  set (ρ := assignment_of r S_ Sol_Set).
  assert (∀ v, 0 ≤ ρ v ≤ 1) as Hbin by apply assignment_of_binary.
  assert (∀ d : gmap Z LpVariable, ∀ name l (j : Z) v,
            d = LpVariable_dict name l (Some 0) (Some 1) LpInteger →
            d !! j = Some v → within_bounds ρ v) as Hbounds.
  { intros d name l j v -> Hj. rewrite LpVariable_dict_lookup in Hj.
    case_decide; [|done]. injection Hj as <-. unfold within_bounds. simpl.
    specialize (Hbin (mkLpVariable name j (Some 0) (Some 1) LpInteger)). lia. }
  split; [|split; [|split];
              [intros j v Hj; eapply Hbounds; [reflexivity | exact Hj]..|] ].
  - apply Hf. split.
    + unfold verify_covering_requirement in Hcov.
      destruct (coverage_Return S_ Sol_Set Hv) as (cov & Hcv & Hget & Hdom).
      rewrite Hcv in Hcov. simpl in Hcov.
      destruct (count_satisfied r cov) as [q|] eqn:Hq; simpl in Hcov; [|done].
      case_decide as HPq; [|done].
      apply count_satisfied_Return_inv in Hq as [_ ->].
      rewrite Zsum_binary_count by (intros; apply Hbin).
      etrans; [exact HPq|]. apply inj_le.
      rewrite <- (length_fmap fst (filter _ (map_to_list cov))).
      apply submseteq_length, NoDup_submseteq.
      * apply (sublist_NoDup _ (map_to_list cov).*1).
        -- apply NoDup_fst_map_to_list.
        -- apply fmap_sublist, sublist_filter.
      * intros e He. apply list_elem_of_fmap in He as ([e' n] & -> & Hin).
        apply list_elem_of_filter in Hin as [Hsat Hin].
        apply elem_of_map_to_list in Hin. unfold sat_entry in Hsat. simpl in *.
        destruct (r !! e') as [re|] eqn:Hre; [|done].
        apply list_elem_of_filter. split.
        -- unfold ρ. rewrite assignment_of_y, Hre.
           rewrite decide_True; [done|]. rewrite <- Hget. unfold Counter_get.
           rewrite Hin. done.
        -- apply elem_of_keys, HE, Hr. by eexists.
    + intros e He.
      destruct (proj2 (Hr e)) as [re Hre]; [by apply HE, elem_of_keys|].
      rewrite Hre. simpl. unfold ρ at 2. rewrite assignment_of_y, Hre.
      case_decide as Hsat.
      * rewrite (multiplicity_count _ _ _ HndS) in Hsat.
        rewrite Zsum_binary_count by (intros; apply Hbin).
        assert (length (filter (λ j, e ∈ default [] (S_ !! j)) Sol_Set)
                ≤ length (filter (λ j, ρ (x_var j) = 1%Z)
                            (filter (λ j, e ∈ default [] (S_ !! j)) (keys S_))))%nat.
        { apply submseteq_length, NoDup_submseteq; [by apply NoDup_filter|].
          intros j Hj. apply list_elem_of_filter in Hj as [He' Hj].
          apply list_elem_of_filter. split.
          - unfold ρ. by rewrite assignment_of_x, decide_True.
          - apply list_elem_of_filter. split; [done|]. by apply elem_of_keys, Hv. }
        lia.
      * pose proof (Zsum_nonneg (λ j, ρ (x_var j))
                      (filter (λ j, e ∈ default [] (S_ !! j)) (keys S_))
                      ltac:(intros; apply Hbin)). lia.
  - rewrite Hev.
    rewrite (Zsum_binary_weight (λ j, ρ (x_var j))) by (intros; apply Hbin).
    rewrite <- cost_sum_Zsum. apply cost_sum_Permutation.
    apply NoDup_Permutation; [apply NoDup_filter, NoDup_keys | done|].
    intros j. rewrite list_elem_of_filter. unfold ρ. rewrite assignment_of_x.
    case_decide; split; try (intros [? ?]); try done.
    intros _. split; [done|]. by apply elem_of_keys, Hv.
Qed.

(** Every solution that passes the covering check is a feasible point of
    the model: when no set is selected twice and no membership lists an
    element twice, the assignment that gives 1 to the variables of the
    selected sets and to the variables of the elements whose requirement
    the selection meets satisfies every constraint of the model that
    [create_Instance] builds, within the bounds of the variables, and the
    value of the objective is the cost of the selected sets. *)
Theorem certified_solution_feasible (text : string)
    (E : gmap Z Z) (S_ : gmap Z (list Z)) (r c : gmap Z Z) (num_E num_S P : Z)
    (Sol_Set : list Z) :
  read_instance_try int text = Return (E, S_, r, c, num_E, num_S, P) →
  1 ≤ num_E →
  (∀ j Sj, S_ !! j = Some Sj → NoDup Sj) →
  NoDup Sol_Set →
  verify_covering_requirement r Sol_Set S_ P = Return true →
  ∃ PSMC x y obj,
    create_Instance iadd_False E S_ r c num_E num_S P = Return (PSMC, x, y)
    ∧ objective PSMC = Some obj
    ∧ feasible (assignment_of r S_ Sol_Set) PSMC
    ∧ (∀ j v, x !! j = Some v → within_bounds (assignment_of r S_ Sol_Set) v)
    ∧ (∀ e v, y !! e = Some v → within_bounds (assignment_of r S_ Sol_Set) v)
    ∧ eval (assignment_of r S_ Sol_Set) obj = cost_sum c Sol_Set.
Proof.
  intros Hinst HnE HndS Hnd Hcov.
  destruct (create_Instance_feasible iadd_False int text _ _ _ _ _ _ _ Hinst HnE)
    as (PSMC & obj & Hret & Hobj & _).
  destruct (solution_point_feasible text _ _ _ _ _ _ _ _ _ _ Sol_Set
              Hinst HnE HndS Hnd Hcov Hret) as (Hfeas & Hbx & Hby & Hval).
  unfold objective_value in Hval. rewrite Hobj in Hval.
  by eexists PSMC, _, _, obj.
Qed.

Lemma verify_minimal_false_inv Re (l : list Z) S P_thresh :
  (∀ i, i ∈ l → is_Some (S !! i)) →
  (∀ e, covered S l e → is_Some (Re !! e)) →
  verify_minimal Re l S P_thresh = Return false →
  ∃ j l1 l2, l = l1 ++ j :: l2
    ∧ verify_covering_requirement Re (l1 ++ l2) S P_thresh = Return true.
Proof.
  intros Hv Hreq Hmin.
  assert (∃ j changed, j ∈ l ∧ list_remove j l = Return changed
            ∧ verify_covering_requirement Re changed S P_thresh = Return true)
    as (j & changed & Hj & Hrm & Hfeas).
  { apply (minimal_loop_spec Re l S P_thresh l); [|done].
    intros i Hi. destruct (list_remove_elem i l Hi) as (l1 & l2 & -> & Hrm).
    destruct (covering_check_returns Re (l1 ++ l2) S P_thresh) as [b Hb].
    - intros k Hk. apply Hv. rewrite elem_of_app, elem_of_cons.
      apply elem_of_app in Hk as [?|?]; auto.
    - intros e He. by apply Hreq, covered_remove.
    - by exists (l1 ++ l2), b. }
  destruct (list_remove_elem j l Hj) as (l1 & l2 & -> & Hrm').
  exists j, l1, l2. split; [done|]. congruence.
Qed.

(** An optimal point of the model is certified as correct: for an
    instance with positive requirements and positive costs whose sets
    list elements between 1 and [num_E], none twice, when the assignment
    in the variables is feasible within the bounds and no feasible
    assignment within the bounds has a smaller objective value, the checks
    of tester.py on the collected sets and the value of the objective
    print "everything is correct!". *)
Theorem optimum_certified_correct (text : string)
    (E : gmap Z Z) (S_ : gmap Z (list Z)) (r c : gmap Z Z) (num_E num_S P : Z)
    (PSMC : LpProblem) (x y : gmap Z LpVariable) (order : list Z)
    (ρ : LpVariable → Z) :
  read_instance_try int text = Return (E, S_, r, c, num_E, num_S, P) →
  1 ≤ num_E →
  (∀ e re, r !! e = Some re → 0 < re) →
  (∀ j cj, c !! j = Some cj → 0 < cj) →
  (∀ j Sj, S_ !! j = Some Sj → NoDup Sj ∧ ∀ e, e ∈ Sj → 1 ≤ e ≤ num_E) →
  create_Instance iadd_False E S_ r c num_E num_S P = Return (PSMC, x, y) →
  order ≡ₚ keys x →
  feasible ρ PSMC →
  (∀ j v, x !! j = Some v → within_bounds ρ v) →
  (∀ e v, y !! e = Some v → within_bounds ρ v) →
  (∀ ρ', feasible ρ' PSMC →
         (∀ j v, x !! j = Some v → within_bounds ρ' v) →
         (∀ e v, y !! e = Some v → within_bounds ρ' v) →
         objective_value ρ PSMC ≤ objective_value ρ' PSMC) →
  main_collect (value_is_1_in ρ) order x c
  = Return (objective_value ρ PSMC, Z.of_nat (length (selected ρ order)),
            selected ρ order)
  ∧ main_checks S_ r c P (objective_value ρ PSMC) (selected ρ order) = report Correct.
Proof.
  intros Hinst HnE Hpos Hcpos Hsets Hcreate Horder Hfeas Hbx Hby Hopt.
  destruct (model_solution_checks text _ _ _ _ _ _ _ _ _ _ order ρ
              Hinst HnE Hpos (λ j Sj e Hj, proj2 (Hsets j Sj Hj) e)
              Hcreate Horder Hfeas Hbx Hby)
    as (obj & Hobj & Hcollect & Hcosts & Hcov & [b Hmin]).
  assert (objective_value ρ PSMC = eval ρ obj) as Hval
    by (unfold objective_value; by rewrite Hobj).
  rewrite Hval. split; [done|].
  rewrite main_checks_cases, Hcosts, Hcov, Hmin. destruct b; [done|]. exfalso.
  apply verify_costs_Return_inv in Hcosts as [Hvc Hsum].
  symmetry in Hsum. apply bool_decide_eq_true in Hsum.
  destruct (covering_check_Return_inv _ _ _ _ _ Hcov) as [Hv Hreq].
  destruct (verify_minimal_false_inv _ _ _ _ Hv Hreq Hmin)
    as (j & l1 & l2 & Hsel & Hcov').
  assert (NoDup (selected ρ order)) as Hnd.
  { apply NoDup_filter. rewrite Horder. apply NoDup_keys. }
  rewrite Hsel in Hnd, Hsum, Hvc.
  rewrite <- Permutation_middle in Hnd. apply NoDup_cons in Hnd as [_ Hnd].
  destruct (solution_point_feasible text _ _ _ _ _ _ _ _ _ _ (l1 ++ l2)
              Hinst HnE (λ j Sj Hj, proj1 (Hsets j Sj Hj)) Hnd Hcov' Hcreate)
    as (Hfeas' & Hbx' & Hby' & Hval').
  specialize (Hopt _ Hfeas' Hbx' Hby'). rewrite Hval', Hval, <- Hsum in Hopt.
  rewrite !cost_sum_app in Hopt. simpl in Hopt.
  destruct (Hvc j) as [cj Hcj]; [rewrite elem_of_app, elem_of_cons; auto|].
  rewrite Hcj in Hopt. simpl in Hopt. pose proof (Hcpos j cj Hcj). lia.
Qed.

End Correspondence.

Lemma scenario_requirements_positive (e re : Z) :
  ({[1 := 1; 2 := 1; 3 := 1]} : gmap Z Z) !! e = Some re → 0 < re.
Proof.
  intros H.
  repeat (apply lookup_insert_Some in H as [[_ <-]|[_ H]]; [lia|]).
  apply lookup_singleton_Some in H as [_ <-]. lia.
Qed.

Lemma scenario_memberships (j : Z) (Sj : list Z) :
  ({[1 := [1; 2]; 2 := [2; 3]]} : gmap Z (list Z)) !! j = Some Sj →
  NoDup Sj ∧ ∀ e, e ∈ Sj → 1 ≤ e ≤ 3.
Proof.
  intros H. apply lookup_insert_Some in H as [[_ <-]|[_ H]].
  - split; [apply (bool_decide_unpack _); by vm_compute|].
    intros e He. in_list He; lia.
  - apply lookup_singleton_Some in H as [_ <-].
    split; [apply (bool_decide_unpack _); by vm_compute|].
    intros e He. in_list He; lia.
Qed.

Lemma assignment_of_within_bounds (r : gmap Z Z) (S : gmap Z (list Z))
    (Sol_Set : list Z) name (l : list Z) (j : Z) (v : LpVariable) :
  LpVariable_dict name l (Some 0) (Some 1) LpInteger !! j = Some v →
  within_bounds (assignment_of r S Sol_Set) v.
Proof.
  intros Hj. rewrite LpVariable_dict_lookup in Hj. case_decide; [|done].
  injection Hj as <-. unfold within_bounds. simpl.
  pose proof (assignment_of_binary r S Sol_Set
                (mkLpVariable name j (Some 0) (Some 1) LpInteger)). lia.
Qed.

Lemma scenario_create_Instance :
  create_Instance (λ _, Raise TypeError) {[1 := 1; 2 := 2; 3 := 3]}
    {[1 := [1; 2]; 2 := [2; 3]]} {[1 := 1; 2 := 1; 3 := 1]} {[1 := 5; 2 := 3]} 3 2 2
  = Return (scenario_model,
            LpVariable_dict "x_%d" [1; 2] (Some 0) (Some 1) LpInteger,
            LpVariable_dict "y_%d" [1; 2; 3] (Some 0) (Some 1) LpInteger).
Proof. vm_compute. reflexivity. Qed.

Lemma scenario_order :
  [1; 2] ≡ₚ keys (LpVariable_dict "x_%d" [1; 2] (Some 0) (Some 1) LpInteger).
Proof.
  apply NoDup_Permutation.
  - apply (bool_decide_unpack _). by vm_compute.
  - apply NoDup_keys.
  - intros j. by rewrite keys_LpVariable_dict.
Qed.

Lemma scenario_feasible :
  feasible (assignment_of {[1 := 1; 2 := 1; 3 := 1]} {[1 := [1; 2]; 2 := [2; 3]]} [2])
    scenario_model.
Proof. unfold feasible. repeat constructor; by vm_compute. Qed.

Lemma model_solution_certified_witness :
  main_collect (value_is_1_in
                  (assignment_of {[1 := 1; 2 := 1; 3 := 1]} {[1 := [1; 2]; 2 := [2; 3]]} [2]))
    [1; 2] (LpVariable_dict "x_%d" [1; 2] (Some 0) (Some 1) LpInteger) {[1 := 5; 2 := 3]}
  = Return (3, 1, [2])
  ∧ main_checks {[1 := [1; 2]; 2 := [2; 3]]} {[1 := 1; 2 := 1; 3 := 1]}
      {[1 := 5; 2 := 3]} 2 3 [2] = report Correct.
Proof.
  destruct (model_solution_certified (λ _, Raise TypeError) int_plain scenario_text
              _ _ _ _ 3 2 2 scenario_model
              (LpVariable_dict "x_%d" [1; 2] (Some 0) (Some 1) LpInteger)
              (LpVariable_dict "y_%d" [1; 2; 3] (Some 0) (Some 1) LpInteger)
              [1; 2]
              (assignment_of {[1 := 1; 2 := 1; 3 := 1]} {[1 := [1; 2]; 2 := [2; 3]]} [2])
              scenario_instance ltac:(lia) scenario_requirements_positive
              (λ j Sj e Hj, proj2 (scenario_memberships j Sj Hj) e)
              scenario_create_Instance scenario_order scenario_feasible
              (assignment_of_within_bounds _ _ _ _ _)
              (assignment_of_within_bounds _ _ _ _ _))
    as (obj & Hobj & Hcollect & _ & _ & [Hmain|Hmain]).
  - injection Hobj as <-. split; [exact Hcollect | exact Hmain].
  - injection Hobj as <-. split; [exact Hcollect|]. exfalso.
    assert (main_checks {[1 := [1; 2]; 2 := [2; 3]]} {[1 := 1; 2 := 1; 3 := 1]}
              {[1 := 5; 2 := 3]} 2 3 [2] = report Correct) as Hc
      by (vm_compute; reflexivity).
    change (main_checks {[1 := [1; 2]; 2 := [2; 3]]} {[1 := 1; 2 := 1; 3 := 1]}
              {[1 := 5; 2 := 3]} 2 3 [2] = report NotMinimal) in Hmain.
    rewrite Hc in Hmain. discriminate Hmain.
Defined.

Lemma certified_solution_feasible_witness :
  ∃ PSMC x y obj,
    create_Instance (λ _, Raise TypeError) {[1 := 1; 2 := 2; 3 := 3]}
      {[1 := [1; 2]; 2 := [2; 3]]} {[1 := 1; 2 := 1; 3 := 1]} {[1 := 5; 2 := 3]} 3 2 2
    = Return (PSMC, x, y)
    ∧ objective PSMC = Some obj
    ∧ feasible (assignment_of {[1 := 1; 2 := 1; 3 := 1]} {[1 := [1; 2]; 2 := [2; 3]]} [2])
        PSMC
    ∧ eval (assignment_of {[1 := 1; 2 := 1; 3 := 1]} {[1 := [1; 2]; 2 := [2; 3]]} [2]) obj
      = 3.
Proof.
  destruct (certified_solution_feasible (λ _, Raise TypeError) int_plain scenario_text
              _ _ _ _ 3 2 2 [2] scenario_instance ltac:(lia))
    as (PSMC & x & y & obj & Hret & Hobj & Hfeas & _ & _ & Hcost).
  - intros j Sj Hj. exact (proj1 (scenario_memberships j Sj Hj)).
  - apply (bool_decide_unpack _). by vm_compute.
  - vm_compute. reflexivity.
  - exists PSMC, x, y, obj. split; [exact Hret|]. split; [exact Hobj|].
    split; [exact Hfeas | exact Hcost].
Defined.

(** ** From the solver to the certifier *)

Lemma bind_mret {A B : Type} (a : A) (f : A → IO B) : (mret a ≫= f) = f a.
Proof. apply bind_lift_Return. Qed.

Section Pipeline.

Variable iadd_False : LpProblem → result LpProblem.
Variable str : Z → string.
Variable int : string → option Z.
Variable fs : string → open_result.

(** What solver.py writes for an instance file, tester.py accepts: when
    the instance file is read into an instance with positive requirements
    whose sets list elements between 1 and [num_E], the solver has left a
    feasible point of the model within the bounds in the variables, and
    the solution file, under the name that solver.py derives from the
    name of the instance file, holds the line that [main] of solver.py
    builds from the collected sets, then [main] of tester.py called on
    the two files passes the name checks, reads both files, and prints
    "everything is correct!" or "not minimal" and nothing else. *)
Theorem solver_run_certified (prog input_file output_file text : string)
    (E : gmap Z Z) (S_ : gmap Z (list Z)) (r c : gmap Z Z) (num_E num_S P : Z)
    (PSMC : LpProblem) (x y : gmap Z LpVariable) (order : list Z)
    (ρ : LpVariable → Z) (cost k : Z) (sets : list Z) :
  (∀ z, int (str z) = Some z) →
  (∀ z, ¬ In_string " " (str z)) →
  endswith input_file ".txt" = true →
  output_name input_file = Return output_file →
  fs input_file = FileText text →
  read_instance_try int text = Return (E, S_, r, c, num_E, num_S, P) →
  1 ≤ num_E →
  (∀ e re, r !! e = Some re → 0 < re) →
  (∀ j Sj e, S_ !! j = Some Sj → e ∈ Sj → 1 ≤ e ≤ num_E) →
  create_Instance iadd_False E S_ r c num_E num_S P = Return (PSMC, x, y) →
  order ≡ₚ keys x →
  feasible ρ PSMC →
  (∀ j v, x !! j = Some v → within_bounds ρ v) →
  (∀ e v, y !! e = Some v → within_bounds ρ v) →
  main_collect (value_is_1_in ρ) order x c = Return (cost, k, sets) →
  fs output_file = FileText (main_lines str cost k sets) →
  tester_main int fs [prog; input_file; output_file] = Ended (report Correct)
  ∨ tester_main int fs [prog; input_file; output_file] = Ended (report NotMinimal).
Proof.
  intros Hint Hns Hends Hout Hfs Hinst HnE Hpos Hrange Hcreate Horder Hfeas Hbx Hby
    Hcollect Hfs'.
  destruct (model_solution_checks iadd_False int text _ _ _ _ _ _ _ _ _ _ order ρ
              Hinst HnE Hpos Hrange Hcreate Horder Hfeas Hbx Hby)
    as (obj & Hobj & Hcol & Hcosts & Hcov & [b Hmin]).
  rewrite Hcollect in Hcol. injection Hcol as -> -> ->.
  unfold output_name in Hout.
  destruct (index (findall_digits input_file) 0) as [number|] eqn:Hnum;
    simpl in Hout; [|done].
  injection Hout as <-.
  assert (number ≠ EmptyString ∧ all_digits number) as [Hne Hall].
  { apply (findall_digits_runs input_file). unfold index in Hnum.
    destruct (findall_digits input_file !! 0%nat) as [w|] eqn:Hw; [|done].
    injection Hnum as ->. apply list_elem_of_lookup. by exists 0%nat. }
  destruct (output_name_number number Hne Hall) as [Hends' Hfind].
  set (output_file := String.append "solution" (String.append number ".txt")) in *.
  set (sel := selected ρ order) in *.
  assert (read_solution int fs output_file
          = mkIO [] (Return (Z.of_nat (length sel), eval ρ obj, sel))) as Hread.
  { rewrite (read_solution_value int fs output_file _ (str (Z.of_nat (length sel)))
               (str (eval ρ obj)) (str <$> sel) (Z.of_nat (length sel)) (eval ρ obj) sel
               Hfs' (split_on_main_lines str Hns _ _ sel) (Hint _) (Hint _)).
    - rewrite length_fmap. by rewrite decide_True.
    - apply Forall2_fmap_l, Forall_Forall2_diag, Forall_forall. intros; apply Hint. }
  assert (tester_main int fs [prog; input_file; output_file]
          = Ended (main_checks S_ r c P (eval ρ obj) sel)) as ->.
  { unfold tester_main. rewrite Hends, Hends', Hnum, Hfind. cbn [negb]. f_equal.
    rewrite bind_lift_Return.
    change (index [number] 0) with (@Return string number). rewrite bind_lift_Return.
    rewrite String.eqb_refl. cbn [negb].
    unfold main_run, read_instance. rewrite Hfs, Hinst, bind_mret, Hread.
    apply (bind_lift_Return (Z.of_nat (length sel), eval ρ obj, sel)). }
  rewrite main_checks_cases, Hcosts, Hcov, Hmin. destruct b; [by left | by right].
Qed.

End Pipeline.

Lemma solver_run_certified_witness :
  tester_main int_plain scenario_fs ["tester.py"; "instance01.txt"; "solution01.txt"]
  = Ended (report Correct).
Proof.
  destruct (solver_run_certified (λ _, Raise TypeError) str_int int_plain scenario_fs
              "tester.py" "instance01.txt" "solution01.txt" scenario_text
              _ _ _ _ 3 2 2 scenario_model _ _ [1; 2]
              (assignment_of {[1 := 1; 2 := 1; 3 := 1]} {[1 := [1; 2]; 2 := [2; 3]]} [2])
              3 1 [2]
              int_plain_str_int str_int_no_space eq_refl eq_refl eq_refl
              scenario_instance ltac:(lia) scenario_requirements_positive
              (λ j Sj e Hj, proj2 (scenario_memberships j Sj Hj) e)
              scenario_create_Instance scenario_order scenario_feasible
              (assignment_of_within_bounds _ _ _ _ _)
              (assignment_of_within_bounds _ _ _ _ _)
              eq_refl eq_refl) as [Hmain|Hmain].
  - exact Hmain.
  - exfalso.
    assert (tester_main int_plain scenario_fs
              ["tester.py"; "instance01.txt"; "solution01.txt"]
            = Ended (report Correct)) as Hc by (vm_compute; reflexivity).
    rewrite Hc in Hmain. discriminate Hmain.
Defined.

Lemma scenario_optimal (ρ' : LpVariable → Z) :
  feasible ρ' scenario_model →
  (∀ j v, LpVariable_dict "x_%d" [1; 2] (Some 0) (Some 1) LpInteger !! j = Some v →
          within_bounds ρ' v) →
  (∀ e v, LpVariable_dict "y_%d" [1; 2; 3] (Some 0) (Some 1) LpInteger !! e = Some v →
          within_bounds ρ' v) →
  objective_value
    (assignment_of {[1 := 1; 2 := 1; 3 := 1]} {[1 := [1; 2]; 2 := [2; 3]]} [2])
    scenario_model
  ≤ objective_value ρ' scenario_model.
Proof.
  intros Hf Hbx Hby.
  change (objective_value (assignment_of _ _ [2]) scenario_model) with 3.
  pose proof (Hbx 1 (x_var 1) eq_refl) as [Hx1 Hx1'].
  pose proof (Hbx 2 (x_var 2) eq_refl) as [Hx2 Hx2'].
  pose proof (Hby 1 (y_var 1) eq_refl) as [Hy1 Hy1'].
  pose proof (Hby 2 (y_var 2) eq_refl) as [Hy2 Hy2'].
  pose proof (Hby 3 (y_var 3) eq_refl) as [Hy3 Hy3'].
  unfold feasible in Hf. cbn [constraints scenario_model] in Hf.
  apply Forall_cons in Hf as [H0 Hf]. apply Forall_cons in Hf as [H3 Hf].
  apply Forall_cons in Hf as [H2 Hf]. apply Forall_cons in Hf as [H1 _].
  unfold objective_value, holds, eval in *. simpl in *. lia.
Qed.

Lemma optimum_certified_correct_witness :
  main_checks {[1 := [1; 2]; 2 := [2; 3]]} {[1 := 1; 2 := 1; 3 := 1]} {[1 := 5; 2 := 3]} 2
    (objective_value
       (assignment_of {[1 := 1; 2 := 1; 3 := 1]} {[1 := [1; 2]; 2 := [2; 3]]} [2])
       scenario_model)
    (selected
       (assignment_of {[1 := 1; 2 := 1; 3 := 1]} {[1 := [1; 2]; 2 := [2; 3]]} [2])
       [1; 2])
  = report Correct.
Proof.
  refine (proj2 (optimum_certified_correct (λ _, Raise TypeError) int_plain
                   scenario_text _ _ _ _ 3 2 2 scenario_model _ _ [1; 2]
                   (assignment_of {[1 := 1; 2 := 1; 3 := 1]}
                      {[1 := [1; 2]; 2 := [2; 3]]} [2])
                   scenario_instance ltac:(lia) scenario_requirements_positive _
                   scenario_memberships
                   scenario_create_Instance scenario_order scenario_feasible
                   (assignment_of_within_bounds _ _ _ _ _)
                   (assignment_of_within_bounds _ _ _ _ _)
                   scenario_optimal)).
  intros j cj H.
  apply lookup_insert_Some in H as [[_ <-]|[_ H]]; [lia|].
  apply lookup_singleton_Some in H as [_ <-]. lia.
Defined.
